(** * golang-set: a shallow embedding of [threadUnsafeSet] and [threadSafeSet]

    The two Go files [threadunsafe.go] and [threadsafe.go] are embedded as
    computations in a state-and-failure monad over an explicit store:

    - a Go [interface{}] element is a [value];
    - every map variable (a [threadUnsafeSet] whose address is taken, or the
      [objects] field of a [threadSafeSet]) lives in the store at a location
      and holds a finite set of values ([gset value]);
    - the [sync.RWMutex] of a [threadSafeSet] lives at the same location in a
      second component of the store;
    - [for ... range] over a map has no fixed order in Go: every loop asks a
      [RangeOrder] oracle for the order of this particular traversal. *)

From Stdlib Require Import ZArith Ascii String.
From stdpp Require Import gmap strings list.

Local Open Scope string_scope.
Local Open Scope Z_scope.

(** ** Values *)

Definition loc := positive.
Bind Scope positive_scope with loc.

(** The two implementations of the [Set] interface, as the dynamic type and
    address of an interface value. *)
Inductive Set_ : Type :=
| PtrUnsafe (p : loc)      (* *threadUnsafeSet *)
| PtrSafe (p : loc).       (* *threadSafeSet *)

(** The hashable dynamic values that occur as elements.  Equality of Go
    interface values compares dynamic type and value, which is structural
    equality here.  Floating-point elements are left out. *)
Inductive value : Type :=
| Nil                                   (* nil interface *)
| Bool (b : bool)
| Int (n : Z)
| Str (s : string)
| Number (s : string)                   (* json.Number *)
| OrderedPair (First Second : value)
| Ptr (r : Set_).

Global Instance Set__eq_dec : EqDecision Set_.
Proof. solve_decision. Defined.

Global Instance value_eq_dec : EqDecision value.
Proof.
  refine (fix go (x y : value) {struct x} : Decision (x = y) :=
    match x, y with
    | Nil, Nil => left _
    | Bool a, Bool b => cast_if (decide (a = b))
    | Int a, Int b => cast_if (decide (a = b))
    | Str a, Str b => cast_if (decide (a = b))
    | Number a, Number b => cast_if (decide (a = b))
    | OrderedPair a1 a2, OrderedPair b1 b2 =>
        cast_if_and (go a1 b1) (go a2 b2)
    | Ptr a, Ptr b => cast_if (decide (a = b))
    | _, _ => right _
    end); abstract congruence.
Defined.

Definition value_leaf : Type := bool + Z + string + string + loc + loc.

Fixpoint value_to_tree (v : value) : gen_tree value_leaf :=
  match v with
  | Nil => GenNode 0 []
  | Bool b => GenLeaf (inl (inl (inl (inl (inl b)))))
  | Int n => GenLeaf (inl (inl (inl (inl (inr n)))))
  | Str s => GenLeaf (inl (inl (inl (inr s))))
  | Number s => GenLeaf (inl (inl (inr s)))
  | OrderedPair a b => GenNode 1 [value_to_tree a; value_to_tree b]
  | Ptr (PtrUnsafe p) => GenLeaf (inl (inr p))
  | Ptr (PtrSafe p) => GenLeaf (inr p)
  end.

Fixpoint value_of_tree (t : gen_tree value_leaf) : option value :=
  match t with
  | GenNode 0 [] => Some Nil
  | GenLeaf (inl (inl (inl (inl (inl b))))) => Some (Bool b)
  | GenLeaf (inl (inl (inl (inl (inr n))))) => Some (Int n)
  | GenLeaf (inl (inl (inl (inr s)))) => Some (Str s)
  | GenLeaf (inl (inl (inr s))) => Some (Number s)
  | GenNode 1 [a; b] =>
      match value_of_tree a, value_of_tree b with
      | Some x, Some y => Some (OrderedPair x y)
      | _, _ => None
      end
  | GenLeaf (inl (inr p)) => Some (Ptr (PtrUnsafe p))
  | GenLeaf (inr p) => Some (Ptr (PtrSafe p))
  | _ => None
  end.

Lemma value_of_to_tree v : value_of_tree (value_to_tree v) = Some v.
Proof.
  induction v as [| | | | |a IHa b IHb|[p|p]]; simpl; try reflexivity.
  by rewrite IHa, IHb.
Qed.

Global Instance value_countable : Countable value :=
  inj_countable value_to_tree value_of_tree value_of_to_tree.

(** ** The store *)

(** [sync.RWMutex], seen from one goroutine: the number of read locks held
    and whether the write lock is held. *)
Record RWMutex : Type := mkRWMutex { readers : nat; writer : bool }.

Global Instance RWMutex_eq_dec : EqDecision RWMutex.
Proof. solve_decision. Defined.

Inductive event : Type :=
| EvRLock (p : loc)
| EvRUnlock (p : loc)
| EvLock (p : loc)
| EvUnlock (p : loc).

Global Instance event_eq_dec : EqDecision event.
Proof. solve_decision. Defined.

Record World : Type := mkWorld {
  objects : gmap loc (gset value);   (* contents of every map variable *)
  mutex : gmap loc RWMutex;          (* the lock of every threadSafeSet *)
  tick : nat;                        (* number of map traversals so far *)
  trace : list event                 (* lock operations, oldest first *)
}.

Definition set_objects (f : gmap loc (gset value) → gmap loc (gset value))
    (w : World) : World :=
  mkWorld (f (objects w)) (mutex w) (tick w) (trace w).

Definition set_mutex (f : gmap loc RWMutex → gmap loc RWMutex)
    (w : World) : World :=
  mkWorld (objects w) (f (mutex w)) (tick w) (trace w).

Definition set_tick (f : nat → nat) (w : World) : World :=
  mkWorld (objects w) (mutex w) (f (tick w)) (trace w).

Definition log (e : event) (w : World) : World :=
  mkWorld (objects w) (mutex w) (tick w) (trace w ++ [e]).

(** ** The monad *)

Inductive outcome (A : Type) : Type :=
| Done (a : A) (w : World)          (* the call returns a *)
| Panic (msg : string) (w : World)  (* a Go panic is unwinding *)
| Fatal (msg : string) (w : World)  (* runtime throw: the process dies *)
| Blocked (w : World).              (* parked on a lock that is not granted *)
Arguments Done {A} a w.
Arguments Panic {A} msg w.
Arguments Fatal {A} msg w.
Arguments Blocked {A} w.

Definition M (A : Type) : Type := World → outcome A.

Definition ret {A} (a : A) : M A := λ w, Done a w.

Definition bind {A B} (m : M A) (k : A → M B) : M B := λ w,
  match m w with
  | Done a w' => k a w'
  | Panic msg w' => Panic msg w'
  | Fatal msg w' => Fatal msg w'
  | Blocked w' => Blocked w'
  end.

Definition panic {A} (msg : string) : M A := λ w, Panic msg w.

Global Instance M_ret : MRet M := @ret.
Global Instance M_bind : MBind M := λ A B k m, bind m k.

(** The world an outcome ends in. *)
Definition final {A} (o : outcome A) : World :=
  match o with
  | Done _ w | Panic _ w | Fatal _ w | Blocked w => w
  end.

(** [defer d] followed by the rest of the function body: [d] runs when the
    body returns and also while a panic unwinds; a runtime throw and a parked
    goroutine never reach it. *)
Definition defer {A} (d : M unit) (body : M A) : M A := λ w,
  match body w with
  | Done a w' => bind d (λ _, ret a) w'
  | Panic msg w' => bind d (λ _, panic msg) w'
  | Fatal msg w' => Fatal msg w'
  | Blocked w' => Blocked w'
  end.

(** ** Map traversal order *)

(** Go leaves the order of [range] over a map unspecified and varies it from
    one traversal to the next.  The oracle gives, for the [n]-th traversal of
    the run, some enumeration of the map's keys. *)
Class RangeOrder : Type := {
  range_of : nat → gset value → list value;
  range_of_perm : ∀ n s, range_of n s ≡ₚ elements s
}.

(** Two concrete schedules. *)
Program Definition order_elements : RangeOrder :=
  {| range_of := λ _ s, elements s |}.
Next Obligation. reflexivity. Qed.

Program Definition order_alternating : RangeOrder :=
  {| range_of := λ n s, if Nat.even n then elements s else reverse (elements s) |}.
Next Obligation.
  intros n s. simpl. destruct (Nat.even n); [reflexivity | apply reverse_Permutation].
Qed.

(** * encoding/json and unicode/utf8, as far as the two codecs use them

    JSON text is a Go byte string, here a [string] of 8-bit characters. *)

Definition byte_val (c : ascii) : Z := Z.of_N (N_of_ascii c).
Definition byte_of (n : Z) : ascii := ascii_of_N (Z.to_N n).

Definition DQ : ascii := byte_of 34.     (* the double quote *)
Definition BSL : ascii := byte_of 92.    (* the backslash *)

Definition RuneError : Z := 0xFFFD.

(** [utf8.DecodeRune]: the first rune of [s] and its width in bytes; an
    invalid or truncated encoding gives [(RuneError, 1)]. *)
Definition first_byte (b0 : Z) : option (nat * Z * Z) :=
  if b0 <? 0xC2 then None
  else if b0 <? 0xE0 then Some (2%nat, 0x80, 0xBF)
  else if b0 =? 0xE0 then Some (3%nat, 0xA0, 0xBF)
  else if b0 =? 0xED then Some (3%nat, 0x80, 0x9F)
  else if b0 <? 0xF0 then Some (3%nat, 0x80, 0xBF)
  else if b0 =? 0xF0 then Some (4%nat, 0x90, 0xBF)
  else if b0 <? 0xF4 then Some (4%nat, 0x80, 0xBF)
  else if b0 =? 0xF4 then Some (4%nat, 0x80, 0x8F)
  else None.

Definition in_range (lo hi b : Z) : bool := (lo <=? b) && (b <=? hi).

Definition DecodeRune (s : string) : Z * nat :=
  match s with
  | EmptyString => (RuneError, 0%nat)
  | String c0 s1 =>
      let p0 := byte_val c0 in
      if p0 <? 0x80 then (p0, 1%nat)
      else
        match first_byte p0, s1 with
        | Some (2%nat, lo, hi), String c1 _ =>
            let b1 := byte_val c1 in
            if in_range lo hi b1
            then (Z.lor (Z.shiftl (Z.land p0 0x1F) 6) (Z.land b1 0x3F), 2%nat)
            else (RuneError, 1%nat)
        | Some (3%nat, lo, hi), String c1 (String c2 _) =>
            let b1 := byte_val c1 in
            let b2 := byte_val c2 in
            if in_range lo hi b1 && in_range 0x80 0xBF b2
            then (Z.lor (Z.lor (Z.shiftl (Z.land p0 0x0F) 12)
                               (Z.shiftl (Z.land b1 0x3F) 6))
                        (Z.land b2 0x3F), 3%nat)
            else (RuneError, 1%nat)
        | Some (4%nat, lo, hi), String c1 (String c2 (String c3 _)) =>
            let b1 := byte_val c1 in
            let b2 := byte_val c2 in
            let b3 := byte_val c3 in
            if in_range lo hi b1 && in_range 0x80 0xBF b2
               && in_range 0x80 0xBF b3
            then (Z.lor (Z.lor (Z.lor (Z.shiftl (Z.land p0 0x07) 18)
                                      (Z.shiftl (Z.land b1 0x3F) 12))
                               (Z.shiftl (Z.land b2 0x3F) 6))
                        (Z.land b3 0x3F), 4%nat)
            else (RuneError, 1%nat)
        | _, _ => (RuneError, 1%nat)
        end
  end.

(** [utf8.EncodeRune] on a non-negative rune. *)
Definition encode3 (r : Z) : string :=
  String (byte_of (Z.lor 0xE0 (Z.shiftr r 12)))
    (String (byte_of (Z.lor 0x80 (Z.land (Z.shiftr r 6) 0x3F)))
       (String (byte_of (Z.lor 0x80 (Z.land r 0x3F))) EmptyString)).

Definition EncodeRune (r : Z) : string :=
  if r <=? 0x7F then String (byte_of r) EmptyString
  else if r <=? 0x7FF then
    String (byte_of (Z.lor 0xC0 (Z.shiftr r 6)))
      (String (byte_of (Z.lor 0x80 (Z.land r 0x3F))) EmptyString)
  else if (0x10FFFF <? r) || ((0xD800 <=? r) && (r <=? 0xDFFF)) then
    encode3 RuneError
  else if r <=? 0xFFFF then encode3 r
  else
    String (byte_of (Z.lor 0xF0 (Z.shiftr r 18)))
      (String (byte_of (Z.lor 0x80 (Z.land (Z.shiftr r 12) 0x3F)))
         (String (byte_of (Z.lor 0x80 (Z.land (Z.shiftr r 6) 0x3F)))
            (String (byte_of (Z.lor 0x80 (Z.land r 0x3F))) EmptyString))).

(** ** Encoding *)

Definition hex : string := "0123456789abcdef".

Definition hex_digit (n : Z) : ascii :=
  match String.get (Z.to_nat n) hex with
  | Some c => c
  | None => "0"%char
  end.

(** The escape sequence [\u00XX] of a byte below 0x80. *)
Definition escape_u00 (b : Z) : string :=
  String BSL (String "u" (String "0" (String "0"
    (String (hex_digit (Z.shiftr b 4))
       (String (hex_digit (Z.land b 0xF)) EmptyString))))).

(** [htmlSafeSet]: the bytes below 0x80 copied as they are. *)
Definition htmlSafe (b : Z) : bool :=
  (0x20 <=? b) && negb (b =? 34) && negb (b =? 92)
  && negb (b =? 60) && negb (b =? 62) && negb (b =? 38).

(** The body of a quoted string: the loop of [encodeState.string] with HTML
    escaping on, as [json.Marshal] has it. *)
Fixpoint escape (s : string) : string :=
  match s with
  | EmptyString => EmptyString
  | String c0 s1 =>
      let b := byte_val c0 in
      if b <? 0x80 then
        if htmlSafe b then String c0 (escape s1)
        else if (b =? 92) || (b =? 34) then String BSL (String c0 (escape s1))
        else if b =? 8 then String BSL (String "b" (escape s1))
        else if b =? 12 then String BSL (String "f" (escape s1))
        else if b =? 10 then String BSL (String "n" (escape s1))
        else if b =? 13 then String BSL (String "r" (escape s1))
        else if b =? 9 then String BSL (String "t" (escape s1))
        else escape_u00 b ++ escape s1
      else
        match DecodeRune s, s1 with
        | (r, 2%nat), String c1 s2 =>
            String c0 (String c1 (escape s2))
        | (r, 3%nat), String c1 (String c2 s3) =>
            if (r =? 0x2028) || (r =? 0x2029)
            then String BSL (String "u" (String "2" (String "0" (String "2"
                   (String (hex_digit (Z.land r 0xF)) (escape s3))))))
            else String c0 (String c1 (String c2 (escape s3)))
        | (r, 4%nat), String c1 (String c2 (String c3 s4)) =>
            String c0 (String c1 (String c2 (String c3 (escape s4))))
        | _, _ =>
            String BSL (String "u" (String "f" (String "f" (String "f"
              (String "d" (escape s1))))))
        end
  end.

Definition quote (s : string) : string :=
  String DQ (escape s ++ String DQ EmptyString).

(** [strconv.FormatInt(n, 10)]. *)
Fixpoint format_digits (fuel : nat) (n : Z) (acc : string) : string :=
  let acc' := String (byte_of (48 + n mod 10)) acc in
  match fuel with
  | O => acc'
  | S fuel' => if n <? 10 then acc' else format_digits fuel' (n / 10) acc'
  end.

Definition FormatInt (n : Z) : string :=
  if n <? 0
  then String "-" (format_digits (Z.to_nat (Z.log2 (- n))) (- n) EmptyString)
  else format_digits (Z.to_nat (Z.log2 n)) n EmptyString.

(** ** Scanning and decoding *)

Definition is_digit (c : ascii) : bool := in_range 48 57 (byte_val c).

Definition isSpace (c : ascii) : bool :=
  let b := byte_val c in
  (b =? 32) || (b =? 9) || (b =? 13) || (b =? 10).

Fixpoint skip_space (s : string) : string :=
  match s with
  | String c s' => if isSpace c then skip_space s' else s
  | EmptyString => EmptyString
  end.

(** The longest prefix of digits, and what follows it. *)
Fixpoint span_digits (s : string) : string * string :=
  match s with
  | String c s' =>
      if is_digit c
      then let '(d, r) := span_digits s' in (String c d, r)
      else (EmptyString, s)
  | EmptyString => (EmptyString, EmptyString)
  end.

(** One or more digits. *)
Definition digits1 (s : string) : option (string * string) :=
  match span_digits s with
  | (EmptyString, _) => None
  | (d, r) => Some (d, r)
  end.

(** The integer part: a single 0, or a digit 1 to 9 followed by digits. *)
Definition scan_int (s : string) : option (string * string) :=
  match s with
  | String c s' =>
      if byte_val c =? 48 then Some (String c EmptyString, s')
      else if is_digit c
      then let '(d, r) := span_digits s' in Some (String c d, r)
      else None
  | EmptyString => None
  end.

Definition scan_frac (s : string) : option (string * string) :=
  match s with
  | String c s' =>
      if byte_val c =? 46 then                              (* . *)
        match digits1 s' with
        | Some (d, r) => Some (String c d, r)
        | None => None
        end
      else Some (EmptyString, s)
  | EmptyString => Some (EmptyString, s)
  end.

Definition scan_exp (s : string) : option (string * string) :=
  match s with
  | String c s' =>
      if (byte_val c =? 101) || (byte_val c =? 69) then   (* e, E *)
        match s' with
        | String sg s'' =>
            if (byte_val sg =? 43) || (byte_val sg =? 45) then   (* +, - *)
              match digits1 s'' with
              | Some (d, r) => Some (String c (String sg d), r)
              | None => None
              end
            else
              match digits1 s' with
              | Some (d, r) => Some (String c d, r)
              | None => None
              end
        | EmptyString => None
        end
      else Some (EmptyString, s)
  | EmptyString => Some (EmptyString, s)
  end.

(** A number literal at the head of [s], kept as text, and the rest. *)
Definition scan_number (s : string) : option (string * string) :=
  let '(sign, s0) :=
    match s with
    | String c s' =>
        if byte_val c =? 45 then (String c EmptyString, s')  (* - *)
        else (EmptyString, s)
    | EmptyString => (EmptyString, s)
    end in
  match scan_int s0 with
  | Some (i, s1) =>
      match scan_frac s1 with
      | Some (f, s2) =>
          match scan_exp s2 with
          | Some (e, s3) => Some (sign ++ i ++ f ++ e, s3)
          | None => None
          end
      | None => None
      end
  | None => None
  end.

(** [isValidNumber] of the encoder: the whole string is one number
    literal. *)
Definition isValidNumber (s : string) : bool :=
  match scan_number s with
  | Some (_, EmptyString) => true
  | _ => false
  end.

Definition hex_val (c : ascii) : option Z :=
  let b := byte_val c in
  if in_range 48 57 b then Some (b - 48)
  else if in_range 97 102 b then Some (b - 97 + 10)
  else if in_range 65 70 b then Some (b - 65 + 10)
  else None.

(** [getu4] on the four characters after [\u]. *)
Definition hex4 (h1 h2 h3 h4 : ascii) : option Z :=
  match hex_val h1, hex_val h2, hex_val h3, hex_val h4 with
  | Some a, Some b, Some c, Some d => Some (((a * 16 + b) * 16 + c) * 16 + d)
  | _, _, _, _ => None
  end.

Definition IsSurrogate (r : Z) : bool := (0xD800 <=? r) && (r <? 0xE000).

(** [utf16.DecodeRune]. *)
Definition utf16_DecodeRune (r1 r2 : Z) : Z :=
  if (0xD800 <=? r1) && (r1 <? 0xDC00) && (0xDC00 <=? r2) && (r2 <? 0xE000)
  then Z.lor (Z.shiftl (r1 - 0xD800) 10) (r2 - 0xDC00) + 0x10000
  else RuneError.

(** The second half of a surrogate pair, if [s] starts with a [\uXXXX]
    escape: [getu4], or -1. *)
Definition getu4 (s : string) : Z * string :=
  match s with
  | String b (String u (String g1 (String g2 (String g3 (String g4 s'))))) =>
      if (byte_val b =? 92) && (byte_val u =? 117) then
        match hex4 g1 g2 g3 g4 with
        | Some r => (r, s')
        | None => (-1, s')
        end
      else (-1, s')
  | _ => (-1, s)
  end.

(** A string literal after its opening quote: the scanner's check of the
    literal and [unquote] in one pass.  The result is the decoded text and
    what follows the closing quote. *)
Fixpoint scan_string (s : string) : option (string * string) :=
  let cons_to (pre : string) (r : option (string * string)) :=
    match r with
    | Some (t, rest) => Some (pre ++ t, rest)
    | None => None
    end in
  match s with
  | EmptyString => None
  | String c s1 =>
      let b := byte_val c in
      if b =? 34 then Some (EmptyString, s1)
      else if b =? 92 then
        match s1 with
        | String e s2 =>
            let be := byte_val e in
            if (be =? 34) || (be =? 92) || (be =? 47)
            then cons_to (String e EmptyString) (scan_string s2)
            else if be =? 98 then cons_to (String (byte_of 8) EmptyString) (scan_string s2)
            else if be =? 102 then cons_to (String (byte_of 12) EmptyString) (scan_string s2)
            else if be =? 110 then cons_to (String (byte_of 10) EmptyString) (scan_string s2)
            else if be =? 114 then cons_to (String (byte_of 13) EmptyString) (scan_string s2)
            else if be =? 116 then cons_to (String (byte_of 9) EmptyString) (scan_string s2)
            else if be =? 117 then
              match s2 with
              | String h1 (String h2 (String h3 (String h4 s6))) =>
                  match hex4 h1 h2 h3 h4 with
                  | Some rr =>
                      if IsSurrogate rr then
                        match s6 with
                        | String _ (String _ (String _ (String _
                            (String _ (String _ s12))))) =>
                            let dec := utf16_DecodeRune rr (fst (getu4 s6)) in
                            if dec =? RuneError
                            then cons_to (EncodeRune RuneError) (scan_string s6)
                            else cons_to (EncodeRune dec) (scan_string s12)
                        | _ => cons_to (EncodeRune RuneError) (scan_string s6)
                        end
                      else cons_to (EncodeRune rr) (scan_string s6)
                  | None => None
                  end
              | _ => None
              end
            else None
        | EmptyString => None
        end
      else if b <? 0x20 then None
      else if b <? 0x80 then cons_to (String c EmptyString) (scan_string s1)
      else
        match DecodeRune s, s1 with
        | (rr, 2%nat), String _ s2 => cons_to (EncodeRune rr) (scan_string s2)
        | (rr, 3%nat), String _ (String _ s3) =>
            cons_to (EncodeRune rr) (scan_string s3)
        | (rr, 4%nat), String _ (String _ (String _ s4)) =>
            cons_to (EncodeRune rr) (scan_string s4)
        | (rr, _), _ => cons_to (EncodeRune rr) (scan_string s1)
        end
  end.

(** What [Decode] stores in an [interface{}], with [UseNumber] on. *)
#[warnings="-register-all"]
Inductive jvalue : Type :=
| JNull
| JBool (b : bool)
| JNumber (s : string)                         (* json.Number *)
| JString (s : string)
| JArray (l : list jvalue)                     (* []interface{} *)
| JObject (m : list (string * jvalue)).        (* map[string]interface{},
                                                  members in input order *)

(** The rest of a literal name ([true], [false], [null]). *)
Fixpoint strip_prefix (lit s : string) : option string :=
  match lit with
  | EmptyString => Some s
  | String a lit' =>
      match s with
      | String b s' => if Ascii.eqb a b then strip_prefix lit' s' else None
      | EmptyString => None
      end
  end.

Definition expect (lit : string) (v : jvalue) (s : string)
    : option (jvalue * string) :=
  match strip_prefix lit s with
  | Some rest => Some (v, rest)
  | None => None
  end.

(** One JSON value at the head of [s] (no leading space), and the rest.
    [fuel] bounds the nesting depth plus the number of members met. *)
Fixpoint scan_value (fuel : nat) (s : string) : option (jvalue * string) :=
  match fuel with
  | O => None
  | S fuel' =>
      match s with
      | EmptyString => None
      | String c s1 =>
          let b := byte_val c in
          if b =? 91 then                                   (* [ *)
            match skip_space s1 with
            | String c' s2 =>
                if byte_val c' =? 93 then Some (JArray [], s2)
                else
                  match scan_elements fuel' (String c' s2) with
                  | Some (l, rest) => Some (JArray l, rest)
                  | None => None
                  end
            | EmptyString => None
            end
          else if b =? 123 then                             (* { *)
            match skip_space s1 with
            | String c' s2 =>
                if byte_val c' =? 125 then Some (JObject [], s2)
                else
                  match scan_members fuel' (String c' s2) with
                  | Some (m, rest) => Some (JObject m, rest)
                  | None => None
                  end
            | EmptyString => None
            end
          else if b =? 34 then
            match scan_string s1 with
            | Some (t, rest) => Some (JString t, rest)
            | None => None
            end
          else if (b =? 45) || is_digit c then
            match scan_number s with
            | Some (lit, rest) => Some (JNumber lit, rest)
            | None => None
            end
          else if b =? 116 then expect "rue" (JBool true) s1
          else if b =? 102 then expect "alse" (JBool false) s1
          else if b =? 110 then expect "ull" JNull s1
          else None
      end
  end
with scan_elements (fuel : nat) (s : string)
    : option (list jvalue * string) :=
  match fuel with
  | O => None
  | S fuel' =>
      match scan_value fuel' s with
      | Some (v, r) =>
          match skip_space r with
          | String c r' =>
              if byte_val c =? 44 then                      (* , *)
                match scan_elements fuel' (skip_space r') with
                | Some (l, rest) => Some (v :: l, rest)
                | None => None
                end
              else if byte_val c =? 93 then Some ([v], r')  (* ] *)
              else None
          | EmptyString => None
          end
      | None => None
      end
  end
with scan_members (fuel : nat) (s : string)
    : option (list (string * jvalue) * string) :=
  match fuel with
  | O => None
  | S fuel' =>
      match s with
      | String q s1 =>
          if byte_val q =? 34 then
            match scan_string s1 with
            | Some (k, r0) =>
                match skip_space r0 with
                | String c r1 =>
                    if byte_val c =? 58 then                (* : *)
                      match scan_value fuel' (skip_space r1) with
                      | Some (v, r) =>
                          match skip_space r with
                          | String c' r' =>
                              if byte_val c' =? 44 then
                                match scan_members fuel' (skip_space r') with
                                | Some (m, rest) => Some ((k, v) :: m, rest)
                                | None => None
                                end
                              else if byte_val c' =? 125 then
                                Some ([(k, v)], r')         (* } *)
                              else None
                          | EmptyString => None
                          end
                      | None => None
                      end
                    else None
                | EmptyString => None
                end
            | None => None
            end
          else None
      | EmptyString => None
      end
  end.

Inductive error : Type :=
| DecodeError      (* a syntax error, a type mismatch or an end of input
                      reported by Decoder.Decode *)
| MarshalError.    (* an error reported by json.Marshal *)

(** [json.NewDecoder(bytes.NewReader(b))], [UseNumber], and one [Decode]
    into a [[]interface{}]: the first JSON value of the input is read, what
    follows it is left unread; an array gives its elements, [null] gives the
    nil slice, every other value is a type mismatch.  A byte that follows a
    complete top-level value is reported by the scanner on the next call
    only, and [UnmarshalJSON] makes one call.  The scanner is that of the Go
    releases before 1.15, which put no bound on the nesting of arrays and
    objects. *)
Definition Decode (b : string) : error + list jvalue :=
  match scan_value (S (String.length b)) (skip_space b) with
  | Some (JArray l, _) => inr l
  | Some (JNull, _) => inr []
  | _ => inl DecodeError
  end.

(** A schedule under which every traversal meets [x] first. *)
Program Definition order_first (x : value) : RangeOrder :=
  {| range_of := λ _ s,
       if decide (x ∈ s) then x :: elements (s ∖ {[x]}) else elements s |}.
Next Obligation.
  intros x n s. simpl. destruct (decide (x ∈ s)) as [Hin|Hin]; [|reflexivity].
  rewrite <- elements_union_singleton by set_solver.
  replace ({[x]} ∪ s ∖ {[x]}) with s; [reflexivity|].
  apply set_eq. intros y. rewrite elem_of_union, elem_of_difference, elem_of_singleton.
  destruct (decide (y = x)); naive_solver.
Qed.

(** ** Store primitives *)

Section Program.
Context {ro : RangeOrder}.

(** Reading through a pointer to a map variable. *)
Definition load (p : loc) : M (gset value) := λ w,
  match objects w !! p with
  | Some s => Done s w
  | None => Panic "invalid memory address or nil pointer dereference" w
  end.

Definition store (p : loc) (s : gset value) : M unit := λ w,
  match objects w !! p with
  | Some _ => Done () (set_objects <[p := s]> w)
  | None => Panic "invalid memory address or nil pointer dereference" w
  end.

(** A new variable whose address is taken: it is placed at a location that
    is in use neither as a map variable nor as a lock. *)
Definition new_loc (w : World) : loc :=
  fresh (dom (objects w) ∪ dom (mutex w)).

Definition var (s : gset value) : M loc := λ w,
  Done (new_loc w) (set_objects <[new_loc w := s]> w).

(** [for elem := range *p]: the keys in the order of this traversal. *)
Definition range (p : loc) : M (list value) := λ w,
  match objects w !! p with
  | Some s => Done (range_of (tick w) s) (set_tick S w)
  | None => Panic "invalid memory address or nil pointer dereference" w
  end.

(** A loop body run on every item in turn. *)
Fixpoint for_each {A} (l : list A) (body : A → M unit) : M unit :=
  match l with
  | [] => mret ()
  | x :: l' => body x;; for_each l' body
  end.

(** * threadunsafe.go *)

Definition newThreadUnsafeSet : gset value := ∅.

Definition threadUnsafeSet_Add (set : loc) (key : value) : M bool :=
  s ← load set;
  if decide (key ∈ s) then mret false
  else store set ({[key]} ∪ s);; mret true.

Fixpoint threadUnsafeSet_Contains (set : loc) (keys : list value) : M bool :=
  match keys with
  | [] => mret true
  | key :: keys' =>
      s ← load set;
      if decide (key ∈ s) then threadUnsafeSet_Contains set keys'
      else mret false
  end.

Definition threadUnsafeSet_Cardinality (set : loc) : M Z :=
  s ← load set; mret (Z.of_nat (size s)).

Definition threadUnsafeSet_Length (set : loc) : M Z :=
  s ← load set; mret (Z.of_nat (size s)).

Definition threadUnsafeSet_Clear (set : loc) : M unit :=
  store set newThreadUnsafeSet.

Definition threadUnsafeSet_Remove (set : loc) (i : value) : M unit :=
  s ← load set; store set (s ∖ {[i]}).

Definition threadUnsafeSet_Pop (set : loc) : M value :=
  items ← range set;
  match items with
  | item :: _ => s ← load set; store set (s ∖ {[item]});; mret item
  | [] => mret Nil
  end.

Definition threadUnsafeSet_Clone (set : loc) : M Set_ :=
  clonedSet ← var newThreadUnsafeSet;
  elems ← range set;
  for_each elems (λ elem, threadUnsafeSet_Add clonedSet elem;; mret ());;
  mret (PtrUnsafe clonedSet).

Definition threadUnsafeSet_ToSlice (set : loc) : M (list value) :=
  _ ← threadUnsafeSet_Cardinality set;
  range set.

(** [Iter] hands the keys one by one to the consumer over an unbuffered
    channel; a consumer that drains the channel sees them in the order of the
    producer's traversal. *)
Definition threadUnsafeSet_Iter (set : loc) : M (list value) :=
  range set.

(** ** sync.RWMutex

    [RLock] and [Lock] are logged once granted; [RUnlock] and [Unlock] are
    logged when called.  Unlocking a lock that is not held is a runtime throw
    ("fatal error"), which no [defer] or [recover] intercepts. *)

Definition RLock (p : loc) : M unit := λ w,
  match mutex w !! p with
  | Some m =>
      if writer m then Blocked w
      else Done () (log (EvRLock p)
                      (set_mutex <[p := mkRWMutex (S (readers m)) false]> w))
  | None => Panic "invalid memory address or nil pointer dereference" w
  end.

Definition RUnlock (p : loc) : M unit := λ w,
  match mutex w !! p with
  | Some m =>
      match readers m with
      | S n => Done () (log (EvRUnlock p)
                          (set_mutex <[p := mkRWMutex n (writer m)]> w))
      | O => Fatal "sync: RUnlock of unlocked RWMutex" (log (EvRUnlock p) w)
      end
  | None => Panic "invalid memory address or nil pointer dereference" w
  end.

Definition Lock (p : loc) : M unit := λ w,
  match mutex w !! p with
  | Some m =>
      if writer m then Blocked w
      else match readers m with
           | O => Done () (log (EvLock p)
                             (set_mutex <[p := mkRWMutex 0 true]> w))
           | S _ => Blocked w
           end
  | None => Panic "invalid memory address or nil pointer dereference" w
  end.

Definition Unlock (p : loc) : M unit := λ w,
  match mutex w !! p with
  | Some m =>
      if writer m
      then Done () (log (EvUnlock p)
                      (set_mutex <[p := mkRWMutex (readers m) false]> w))
      else Fatal "sync: Unlock of unlocked RWMutex" (log (EvUnlock p) w)
  | None => Panic "invalid memory address or nil pointer dereference" w
  end.

(** [&threadSafeSet{objects: m}]: a new struct with the given table and a
    zero (unlocked) mutex. *)
Definition new_threadSafeSet (m : gset value) : M loc := λ w,
  Done (new_loc w)
       (set_mutex <[new_loc w := mkRWMutex 0 false]>
          (set_objects <[new_loc w := m]> w)).

(** Type assertions on interface values. *)
Definition assert_threadUnsafeSet (other : Set_) : M loc :=
  match other with
  | PtrUnsafe o => mret o
  | PtrSafe _ =>
      panic "interface conversion: mapset.Set is *mapset.threadSafeSet, not *mapset.threadUnsafeSet"
  end.

Definition assert_threadSafeSet (other : Set_) : M loc :=
  match other with
  | PtrSafe o => mret o
  | PtrUnsafe _ =>
      panic "interface conversion: mapset.Set is *mapset.threadUnsafeSet, not *mapset.threadSafeSet"
  end.

(** * threadsafe.go, first part: the methods the interface calls of
      threadunsafe.go dispatch to *)

Definition threadSafeSet_Add (set : loc) (i : value) : M bool :=
  Lock set;;
  defer (Unlock set) (threadUnsafeSet_Add set i).

Definition threadSafeSet_Contains (set : loc) (i : list value) : M bool :=
  RLock set;;
  defer (RUnlock set) (threadUnsafeSet_Contains set i).

Definition threadSafeSet_Cardinality (set : loc) : M Z :=
  RLock set;;
  defer (RUnlock set) (s ← load set; mret (Z.of_nat (size s))).

Definition threadSafeSet_Length (set : loc) : M Z :=
  RLock set;;
  defer (RUnlock set) (s ← load set; mret (Z.of_nat (size s))).

Definition threadSafeSet_Clear (set : loc) : M unit :=
  Lock set;;
  defer (Unlock set) (store set newThreadUnsafeSet).

Definition threadSafeSet_Remove (set : loc) (i : value) : M unit :=
  Lock set;;
  defer (Unlock set) (s ← load set; store set (s ∖ {[i]})).

Definition threadSafeSet_Pop (set : loc) : M value :=
  Lock set;;
  defer (Unlock set) (threadUnsafeSet_Pop set).

(** The producer goroutine of the guarded [Iter] holds the read lock for the
    whole traversal; with a consumer that drains the channel this is the
    sequence below. *)
Definition threadSafeSet_Iter (set : loc) : M (list value) :=
  RLock set;;
  elems ← range set;
  RUnlock set;;
  mret elems.

(** ** Calls through the [Set] interface *)

Definition Set_Add (s : Set_) (i : value) : M bool :=
  match s with
  | PtrUnsafe p => threadUnsafeSet_Add p i
  | PtrSafe p => threadSafeSet_Add p i
  end.

Definition Set_Contains (s : Set_) (i : list value) : M bool :=
  match s with
  | PtrUnsafe p => threadUnsafeSet_Contains p i
  | PtrSafe p => threadSafeSet_Contains p i
  end.

Definition Set_Cardinality (s : Set_) : M Z :=
  match s with
  | PtrUnsafe p => threadUnsafeSet_Cardinality p
  | PtrSafe p => threadSafeSet_Cardinality p
  end.

Definition Set_Iter (s : Set_) : M (list value) :=
  match s with
  | PtrUnsafe p => threadUnsafeSet_Iter p
  | PtrSafe p => threadSafeSet_Iter p
  end.

Definition Set_Pop (s : Set_) : M value :=
  match s with
  | PtrUnsafe p => threadUnsafeSet_Pop p
  | PtrSafe p => threadSafeSet_Pop p
  end.

(** * threadunsafe.go, the binary operations *)

(** The loop of [IsSubset] and [Equal]: false at the first element that
    [other] does not contain. *)
Fixpoint all_contained (other : Set_) (elems : list value) : M bool :=
  match elems with
  | [] => mret true
  | elem :: elems' =>
      c ← Set_Contains other [elem];
      if (c : bool) then all_contained other elems' else mret false
  end.

Definition threadUnsafeSet_IsSubset (set : loc) (other : Set_) : M bool :=
  n ← threadUnsafeSet_Cardinality set;
  m ← Set_Cardinality other;
  if decide (n > m) then mret false
  else elems ← range set; all_contained other elems.

Definition threadUnsafeSet_Equal (set : loc) (other : Set_) : M bool :=
  n ← threadUnsafeSet_Cardinality set;
  m ← Set_Cardinality other;
  if decide (n ≠ m) then mret false
  else elems ← range set; all_contained other elems.

Definition threadUnsafeSet_Union (set : loc) (other : Set_) : M Set_ :=
  o ← assert_threadUnsafeSet other;
  union ← var newThreadUnsafeSet;
  elems ← range set;
  for_each elems (λ elem, threadUnsafeSet_Add union elem;; mret ());;
  elems' ← range o;
  for_each elems' (λ elem, threadUnsafeSet_Add union elem;; mret ());;
  mret (PtrUnsafe union).

Definition threadUnsafeSet_Intersect (set : loc) (other : Set_) : M Set_ :=
  o ← assert_threadUnsafeSet other;
  intersection ← var newThreadUnsafeSet;
  n ← threadUnsafeSet_Cardinality set;
  m ← Set_Cardinality other;
  (if decide (n < m) then
     elems ← range set;
     for_each elems (λ elem,
       c ← Set_Contains other [elem];
       if (c : bool) then threadUnsafeSet_Add intersection elem;; mret () else mret ())
   else
     elems ← range o;
     for_each elems (λ elem,
       c ← threadUnsafeSet_Contains set [elem];
       if (c : bool) then threadUnsafeSet_Add intersection elem;; mret () else mret ()));;
  mret (PtrUnsafe intersection).

Definition threadUnsafeSet_Difference (set : loc) (other : Set_) : M Set_ :=
  difference ← var newThreadUnsafeSet;
  elems ← range set;
  for_each elems (λ elem,
    c ← Set_Contains other [elem];
    if (c : bool) then mret () else threadUnsafeSet_Add difference elem;; mret ());;
  mret (PtrUnsafe difference).

(** Modelled from the spec: [NewThreadUnsafeSet], the exported constructor of
    set.go, which is not among the sources; "a set is created empty via a
    constructor", and its callers assert the result to be a
    [*threadUnsafeSet]. *)
Definition NewThreadUnsafeSet : M Set_ :=
  set ← var newThreadUnsafeSet; mret (PtrUnsafe set).

Definition threadUnsafeSet_CartesianProduct (set : loc) (other : Set_)
    : M Set_ :=
  o ← assert_threadUnsafeSet other;
  cartProduct ← NewThreadUnsafeSet;
  elems ← range set;
  for_each elems (λ i,
    elems' ← range o;
    for_each elems' (λ j,
      Set_Add cartProduct (OrderedPair i j);; mret ()));;
  mret cartProduct.

(** * threadsafe.go, the binary operations

    [&o.objects] is the location of the guarded set itself, read as a pointer
    to its table. *)

Definition threadSafeSet_IsSubset (set : loc) (other : Set_) : M bool :=
  o ← assert_threadSafeSet other;
  RLock set;;
  defer (RUnlock set) (
    RLock o;;
    defer (RUnlock o) (
      threadUnsafeSet_IsSubset set (PtrUnsafe o))).

Definition threadSafeSet_Equal (set : loc) (other : Set_) : M bool :=
  o ← assert_threadSafeSet other;
  RLock set;;
  defer (RUnlock set) (
    RLock o;;
    defer (RUnlock o) (
      threadUnsafeSet_Equal set (PtrUnsafe o))).

Definition threadSafeSet_Union (set : loc) (other : Set_) : M Set_ :=
  o ← assert_threadSafeSet other;
  RLock set;;
  defer (RUnlock set) (
    RLock o;;
    defer (RUnlock o) (
      r ← threadUnsafeSet_Union set (PtrUnsafe o);
      union ← assert_threadUnsafeSet r;
      m ← load union;
      q ← new_threadSafeSet m;
      mret (PtrSafe q))).

Definition threadSafeSet_Intersect (set : loc) (other : Set_) : M Set_ :=
  o ← assert_threadSafeSet other;
  RLock set;;
  defer (RUnlock set) (
    RLock o;;
    defer (RUnlock o) (
      r ← threadUnsafeSet_Intersect set (PtrUnsafe o);
      unsafeIntersection ← assert_threadUnsafeSet r;
      m ← load unsafeIntersection;
      q ← new_threadSafeSet m;
      mret (PtrSafe q))).

Definition threadSafeSet_Difference (set : loc) (other : Set_) : M Set_ :=
  o ← assert_threadSafeSet other;
  RLock set;;
  defer (RUnlock set) (
    RLock o;;
    defer (RUnlock o) (
      r ← threadUnsafeSet_Difference set (PtrUnsafe o);
      diff ← assert_threadUnsafeSet r;
      m ← load diff;
      q ← new_threadSafeSet m;
      mret (PtrSafe q))).

(** The second deferred call unlocks [set] again, not [o]. *)
Definition threadSafeSet_CartesianProduct (set : loc) (other : Set_)
    : M Set_ :=
  o ← assert_threadSafeSet other;
  RLock set;;
  defer (RUnlock set) (
    RLock o;;
    defer (RUnlock set) (
      r ← threadUnsafeSet_CartesianProduct set (PtrUnsafe o);
      ucp ← assert_threadUnsafeSet r;
      m ← load ucp;
      q ← new_threadSafeSet m;
      mret (PtrSafe q))).

(** ** More calls through the interface *)

Definition Set_IsSubset (s : Set_) (other : Set_) : M bool :=
  match s with
  | PtrUnsafe p => threadUnsafeSet_IsSubset p other
  | PtrSafe p => threadSafeSet_IsSubset p other
  end.

Definition Set_Equal (s : Set_) (other : Set_) : M bool :=
  match s with
  | PtrUnsafe p => threadUnsafeSet_Equal p other
  | PtrSafe p => threadSafeSet_Equal p other
  end.

Definition Set_Union (s : Set_) (other : Set_) : M Set_ :=
  match s with
  | PtrUnsafe p => threadUnsafeSet_Union p other
  | PtrSafe p => threadSafeSet_Union p other
  end.

Definition Set_Difference (s : Set_) (other : Set_) : M Set_ :=
  match s with
  | PtrUnsafe p => threadUnsafeSet_Difference p other
  | PtrSafe p => threadSafeSet_Difference p other
  end.

Definition Set_Intersect (s : Set_) (other : Set_) : M Set_ :=
  match s with
  | PtrUnsafe p => threadUnsafeSet_Intersect p other
  | PtrSafe p => threadSafeSet_Intersect p other
  end.

Definition Set_CartesianProduct (s : Set_) (other : Set_) : M Set_ :=
  match s with
  | PtrUnsafe p => threadUnsafeSet_CartesianProduct p other
  | PtrSafe p => threadSafeSet_CartesianProduct p other
  end.

(** * threadunsafe.go, the operations built from the others *)

Definition threadUnsafeSet_IsProperSubset (set : loc) (other : Set_)
    : M bool :=
  sub ← threadUnsafeSet_IsSubset set other;
  if (sub : bool)
  then eq ← threadUnsafeSet_Equal set other; mret (negb eq)
  else mret false.

Definition threadUnsafeSet_IsSuperset (set : loc) (other : Set_) : M bool :=
  Set_IsSubset other (PtrUnsafe set).

Definition threadUnsafeSet_IsProperSuperset (set : loc) (other : Set_)
    : M bool :=
  sup ← threadUnsafeSet_IsSuperset set other;
  if (sup : bool)
  then eq ← threadUnsafeSet_Equal set other; mret (negb eq)
  else mret false.

Definition threadUnsafeSet_SymmetricDifference (set : loc) (other : Set_)
    : M Set_ :=
  sdo ← threadUnsafeSet_Difference set other;
  ods ← Set_Difference other (PtrUnsafe set);
  Set_Union sdo ods.

(** [reflect.TypeOf(er).Name()]: the name of the dynamic type; empty for a
    pointer type, and a nil dereference for the nil interface, whose type is
    nil. *)
Definition type_name (er : value) : M string :=
  match er with
  | Nil => panic "invalid memory address or nil pointer dereference"
  | Bool _ => mret "bool"
  | Int _ => mret "int"
  | Str _ => mret "string"
  | Number _ => mret "Number"
  | OrderedPair _ _ => mret "OrderedPair"
  | Ptr _ => mret ""
  end.

(** The type assertion of an element to a pointer to [threadUnsafeSet]. *)
Definition assert_elem_threadUnsafeSet (er : value) : M loc :=
  match er with
  | Ptr (PtrUnsafe k) => mret k
  | _ => panic "interface conversion: interface {} is not *mapset.threadUnsafeSet"
  end.

(** The body of the outer loop of [PowerSet]: the new value of [powSet]. *)
Definition PowerSet_step (powSet : Set_) (item : value) : M Set_ :=
  u ← var newThreadUnsafeSet;
  j ← Set_Iter powSet;
  for_each j (λ er,
    p ← var newThreadUnsafeSet;
    name ← type_name er;
    (if decide (name = "") then
       k ← assert_elem_threadUnsafeSet er;
       eks ← range k;
       for_each eks (λ ek, threadUnsafeSet_Add p ek;; mret ())
     else
       threadUnsafeSet_Add p er;; mret ());;
    threadUnsafeSet_Add p item;;
    threadUnsafeSet_Add u (Ptr (PtrUnsafe p));;
    mret ());;
  Set_Union powSet (PtrUnsafe u).

Fixpoint PowerSet_loop (powSet : Set_) (items : list value) : M Set_ :=
  match items with
  | [] => mret powSet
  | item :: items' =>
      powSet' ← PowerSet_step powSet item;
      PowerSet_loop powSet' items'
  end.

Definition threadUnsafeSet_PowerSet (set : loc) : M Set_ :=
  powSet ← NewThreadUnsafeSet;
  nullset ← var newThreadUnsafeSet;
  Set_Add powSet (Ptr (PtrUnsafe nullset));;
  items ← range set;
  PowerSet_loop powSet items.

(** * threadsafe.go, the rest *)

Definition threadSafeSet_IsProperSubset (set : loc) (other : Set_)
    : M bool :=
  o ← assert_threadSafeSet other;
  RLock set;;
  defer (RUnlock set) (
    RLock o;;
    defer (RUnlock o) (
      threadUnsafeSet_IsProperSubset set (PtrUnsafe o))).

Definition Set_IsProperSubset (s : Set_) (other : Set_) : M bool :=
  match s with
  | PtrUnsafe p => threadUnsafeSet_IsProperSubset p other
  | PtrSafe p => threadSafeSet_IsProperSubset p other
  end.

Definition threadSafeSet_IsSuperset (set : loc) (other : Set_) : M bool :=
  Set_IsSubset other (PtrSafe set).

Definition threadSafeSet_IsProperSuperset (set : loc) (other : Set_)
    : M bool :=
  Set_IsProperSubset other (PtrSafe set).

Definition threadSafeSet_SymmetricDifference (set : loc) (other : Set_)
    : M Set_ :=
  o ← assert_threadSafeSet other;
  RLock set;;
  defer (RUnlock set) (
    RLock o;;
    defer (RUnlock o) (
      r ← threadUnsafeSet_SymmetricDifference set (PtrUnsafe o);
      diff ← assert_threadUnsafeSet r;
      m ← load diff;
      q ← new_threadSafeSet m;
      mret (PtrSafe q))).

Definition Set_SymmetricDifference (s : Set_) (other : Set_) : M Set_ :=
  match s with
  | PtrUnsafe p => threadUnsafeSet_SymmetricDifference p other
  | PtrSafe p => threadSafeSet_SymmetricDifference p other
  end.

Definition threadSafeSet_Clone (set : loc) : M Set_ :=
  RLock set;;
  defer (RUnlock set) (
    r ← threadUnsafeSet_Clone set;
    clone ← assert_threadUnsafeSet r;
    m ← load clone;
    q ← new_threadSafeSet m;
    mret (PtrSafe q)).

Definition threadSafeSet_PowerSet (set : loc) : M Set_ :=
  RLock set;;
  r ← threadUnsafeSet_PowerSet set;
  unsafePowerSet ← assert_threadUnsafeSet r;
  RUnlock set;;
  tss ← new_threadSafeSet newThreadUnsafeSet;
  subsets ← threadUnsafeSet_Iter unsafePowerSet;
  for_each subsets (λ subset,
    unsafeSubset ← assert_elem_threadUnsafeSet subset;
    m ← load unsafeSubset;
    q ← new_threadSafeSet m;
    threadSafeSet_Add tss (Ptr (PtrSafe q));;
    mret ());;
  mret (PtrSafe tss).

Definition Set_PowerSet (s : Set_) : M Set_ :=
  match s with
  | PtrUnsafe p => threadUnsafeSet_PowerSet p
  | PtrSafe p => threadSafeSet_PowerSet p
  end.

(** * The JSON methods of threadunsafe.go and threadsafe.go *)

(** [json.Marshal] of an element.  A pointer to a set is a [json.Marshaler]:
    its [MarshalJSON] is called, here through [marshaler]; the text it
    returns is valid compact JSON and is taken over unchanged. *)
Fixpoint json_Marshal (marshaler : Set_ → M (error + string)) (v : value)
    : M (error + string) :=
  match v with
  | Nil => mret (inr "null")
  | Bool b => mret (inr (if b then "true" else "false"))
  | Int n => mret (inr (FormatInt n))
  | Str s => mret (inr (quote s))
  | Number s =>
      if decide (s = EmptyString) then mret (inr "0")
      else if isValidNumber s then mret (inr s)
      else mret (inl MarshalError)
  | OrderedPair First Second =>
      r1 ← json_Marshal marshaler First;
      match r1 with
      | inl err => mret (inl err)
      | inr b1 =>
          r2 ← json_Marshal marshaler Second;
          match r2 with
          | inl err => mret (inl err)
          | inr b2 =>
              mret (inr ("{" ++ quote "First" ++ ":" ++ b1 ++ ","
                           ++ quote "Second" ++ ":" ++ b2 ++ "}"))
          end
      end
  | Ptr r => marshaler r
  end.

(** [strings.Join]. *)
Fixpoint Join (items : list string) (sep : string) : string :=
  match items with
  | [] => EmptyString
  | [x] => x
  | x :: items' => x ++ sep ++ Join items' sep
  end.

(** The loop of [MarshalJSON]: the encoded items, or the first error. *)
Fixpoint marshal_items (marshaler : Set_ → M (error + string))
    (elems : list value) (items : list string) : M (error + list string) :=
  match elems with
  | [] => mret (inr items)
  | elem :: elems' =>
      r ← json_Marshal marshaler elem;
      match r with
      | inl err => mret (inl err)
      | inr b => marshal_items marshaler elems' (items ++ [b])
      end
  end.

Definition threadUnsafeSet_MarshalJSON
    (marshaler : Set_ → M (error + string)) (set : loc)
    : M (error + string) :=
  _ ← threadUnsafeSet_Cardinality set;
  elems ← range set;
  r ← marshal_items marshaler elems [];
  match r with
  | inl err => mret (inl err)
  | inr items => mret (inr ("[" ++ Join items "," ++ "]"))
  end.

Definition threadSafeSet_MarshalJSON
    (marshaler : Set_ → M (error + string)) (set : loc)
    : M (error + string) :=
  RLock set;;
  defer (RUnlock set) (threadUnsafeSet_MarshalJSON marshaler set).

(** The [MarshalJSON] that [json.Marshal] finds on a set-valued element.
    [depth] bounds the nesting of calls; a set that contains itself recurses
    until the stack is exhausted. *)
Fixpoint Set_MarshalJSON (depth : nat) (s : Set_) : M (error + string) :=
  match depth with
  | O => λ w, Fatal "stack overflow" w
  | S depth' =>
      match s with
      | PtrUnsafe p => threadUnsafeSet_MarshalJSON (Set_MarshalJSON depth') p
      | PtrSafe p => threadSafeSet_MarshalJSON (Set_MarshalJSON depth') p
      end
  end.

(** The element added for a decoded entry [t] that is neither a slice nor a
    map. *)
Definition scalar (v : jvalue) : value :=
  match v with
  | JNull => Nil
  | JBool b => Bool b
  | JNumber s => Number s
  | JString s => Str s
  | JArray _ | JObject _ => Nil
  end.

Definition threadUnsafeSet_UnmarshalJSON (set : loc) (b : string)
    : M (option error) :=
  match Decode b with
  | inl err => mret (Some err)
  | inr i =>
      for_each i (λ v,
        match v with
        | JArray _ | JObject _ => mret ()
        | t => threadUnsafeSet_Add set (scalar t);; mret ()
        end);;
      mret None
  end.

Definition threadSafeSet_UnmarshalJSON (set : loc) (p : string)
    : M (option error) :=
  RLock set;;
  defer (RUnlock set) (threadUnsafeSet_UnmarshalJSON set p).

Definition Set_UnmarshalJSON (s : Set_) (b : string) : M (option error) :=
  match s with
  | PtrUnsafe p => threadUnsafeSet_UnmarshalJSON p b
  | PtrSafe p => threadSafeSet_UnmarshalJSON p b
  end.

End Program.

(** * Vocabulary of the statements *)

(** The location of the table behind an interface value. *)
Definition table (r : Set_) : loc :=
  match r with PtrUnsafe p | PtrSafe p => p end.

(** In world [w] the set [r] exists, has exactly the elements [s], and, if
    it is guarded, nobody holds its lock. *)
Definition holds (w : World) (r : Set_) (s : gset value) : Prop :=
  objects w !! table r = Some s ∧
  match r with
  | PtrUnsafe _ => True
  | PtrSafe p => mutex w !! p = Some (mkRWMutex 0 false)
  end.

(** The lock of the guarded set at [p] exists and is not write-locked. *)
Definition readable (w : World) (p : loc) : Prop :=
  ∃ m, mutex w !! p = Some m ∧ writer m = false.

(** The world after a granted [RLock p]. *)
Definition rlock (p : loc) (w : World) : World :=
  match mutex w !! p with
  | Some m => log (EvRLock p)
                (set_mutex <[p := mkRWMutex (S (readers m)) false]> w)
  | None => w
  end.

Definition same_variant (a b : Set_) : Prop :=
  match a, b with
  | PtrUnsafe _, PtrUnsafe _ | PtrSafe _, PtrSafe _ => True
  | _, _ => False
  end.

(** [w'] is [w] with one more set, [r], which holds exactly [R]; if [r] is
    guarded its lock is new and free.  Nothing that exists in [w] has
    changed. *)
Definition allocates (w : World) (r : Set_) (R : gset value) (w' : World)
    : Prop :=
  objects w !! table r = None ∧ mutex w !! table r = None ∧
  objects w' !! table r = Some R ∧ objects w ⊆ objects w' ∧
  match r with
  | PtrUnsafe _ => mutex w' = mutex w
  | PtrSafe q => mutex w' = <[q := mkRWMutex 0 false]> (mutex w)
  end.

(** The set of ordered pairs of [A] and [B]. *)
Definition pairs (A B : gset value) : gset value :=
  set_bind (λ i, set_map (C := gset value) (OrderedPair i) B) A.

(** The number of times the lock of [p] is held at the end of the lock
    history [tr], counting from its start. *)
Fixpoint held (tr : list event) (p : loc) : Z :=
  match tr with
  | [] => 0
  | EvRLock q :: tr' | EvLock q :: tr' =>
      (if decide (q = p) then 1 else 0) + held tr' p
  | EvRUnlock q :: tr' | EvUnlock q :: tr' =>
      (if decide (q = p) then -1 else 0) + held tr' p
  end.

(** At no point of the history [tr] are the locks of [a] and [b] both
    held. *)
Definition never_both_held (tr : list event) (a b : loc) : Prop :=
  ∀ pre, pre `prefix_of` tr → ¬ (0 < held pre a ∧ 0 < held pre b).

(** What the guarded operations that return a set do between locking and
    unlocking: the unguarded operation on the operands' own tables, and a
    new guarded set around the table it returns. *)
Definition wrap `{RangeOrder} (op : loc → Set_ → M Set_) (set o : loc)
    : M Set_ :=
  r ← op set (PtrUnsafe o);
  union ← assert_threadUnsafeSet r;
  m ← load union;
  q ← new_threadSafeSet m;
  mret (PtrSafe q).

(** The ten binary operations of a guarded set. *)
Inductive binary : Type :=
| BUnion | BIntersect | BDifference | BSymmetricDifference
| BCartesianProduct
| BEqual | BIsSubset | BIsProperSubset | BIsSuperset | BIsProperSuperset.

(** A call of a binary operation on the guarded set [set], result dropped. *)
Definition guarded_call `{RangeOrder} (op : binary) (set : loc)
    (other : Set_) : M unit :=
  match op with
  | BUnion => threadSafeSet_Union set other;; mret ()
  | BIntersect => threadSafeSet_Intersect set other;; mret ()
  | BDifference => threadSafeSet_Difference set other;; mret ()
  | BSymmetricDifference => threadSafeSet_SymmetricDifference set other;; mret ()
  | BCartesianProduct => threadSafeSet_CartesianProduct set other;; mret ()
  | BEqual => threadSafeSet_Equal set other;; mret ()
  | BIsSubset => threadSafeSet_IsSubset set other;; mret ()
  | BIsProperSubset => threadSafeSet_IsProperSubset set other;; mret ()
  | BIsSuperset => threadSafeSet_IsSuperset set other;; mret ()
  | BIsProperSuperset => threadSafeSet_IsProperSuperset set other;; mret ()
  end.

(** The order in which a call on [set] with operand [o] takes the two
    locks. *)
Definition lock_order (op : binary) (set o : loc) : loc * loc :=
  match op with
  | BIsSuperset | BIsProperSuperset => (o, set)
  | _ => (set, o)
  end.

(** The combination logic of a call, on the sets [x] and [y] in lock
    order. *)
Definition combination `{RangeOrder} (op : binary) (x y : loc) : M unit :=
  match op with
  | BUnion => wrap threadUnsafeSet_Union x y;; mret ()
  | BIntersect => wrap threadUnsafeSet_Intersect x y;; mret ()
  | BDifference => wrap threadUnsafeSet_Difference x y;; mret ()
  | BSymmetricDifference => wrap threadUnsafeSet_SymmetricDifference x y;; mret ()
  | BCartesianProduct => wrap threadUnsafeSet_CartesianProduct x y;; mret ()
  | BEqual => threadUnsafeSet_Equal x (PtrUnsafe y);; mret ()
  | BIsSubset | BIsSuperset => threadUnsafeSet_IsSubset x (PtrUnsafe y);; mret ()
  | BIsProperSubset | BIsProperSuperset =>
      threadUnsafeSet_IsProperSubset x (PtrUnsafe y);; mret ()
  end.

(** The table an element points to, if the element is a set. *)
Definition member_table (w : World) (v : value) : option (gset value) :=
  match v with
  | Ptr s => objects w !! table s
  | _ => None
  end.

(** The family of sets that the elements of the set [r] point to. *)
Definition family (w : World) (r : Set_) : gset (gset value) :=
  match objects w !! table r with
  | Some s => set_omap (member_table w) s
  | None => ∅
  end.

(** The power set algorithm in the words of the specification: start with
    the family that holds only the empty set; for each element [e], add [e]
    to every subset in the accumulator and union the subsets so obtained
    into the accumulator. *)
Definition add_to_each (e : value) (acc : gset (gset value))
    : gset (gset value) :=
  set_map (λ X, {[e]} ∪ X) acc.

Definition PowerSet_spec (items : list value) : gset (gset value) :=
  foldl (λ acc e, acc ∪ add_to_each e acc) {[∅]} items.

(** ** Vocabulary of the JSON statements *)

(** The element that a decoded entry adds, if it adds one. *)
Definition entry (v : jvalue) : option value :=
  match v with
  | JArray _ | JObject _ => None
  | t => Some (scalar t)
  end.

(** The elements that the decoded entries [i] add. *)
Definition decoded_scalars (i : list jvalue) : gset value :=
  list_to_set (omap entry i).

(** The elements of an array input that are well formed and come before
    the first malformed fragment, in the words of the specification: "the
    already successfully parsed elements". *)
Fixpoint elements_before_fault (fuel : nat) (s : string) : list jvalue :=
  match fuel with
  | O => []
  | S fuel' =>
      match scan_value fuel' s with
      | Some (v, r) =>
          match skip_space r with
          | String c r' =>
              if byte_val c =? 44
              then v :: elements_before_fault fuel' (skip_space r')
              else [v]
          | EmptyString => [v]
          end
      | None => []
      end
  end.

Definition parsed_before_fault (b : string) : list jvalue :=
  match skip_space b with
  | String c s1 =>
      if byte_val c =? 91
      then elements_before_fault (String.length b) (skip_space s1)
      else []
  | EmptyString => []
  end.

(** The text that comes back for the string [s]: [s] with every byte that
    is not part of a valid UTF-8 encoding replaced by U+FFFD. *)
Fixpoint coerce (s : string) : string :=
  match s with
  | EmptyString => EmptyString
  | String c0 s1 =>
      if byte_val c0 <? 0x80 then String c0 (coerce s1)
      else
        match DecodeRune s, s1 with
        | (r, 2%nat), String _ s2 => EncodeRune r ++ coerce s2
        | (r, 3%nat), String _ (String _ s3) => EncodeRune r ++ coerce s3
        | (r, 4%nat), String _ (String _ (String _ s4)) =>
            EncodeRune r ++ coerce s4
        | _, _ => EncodeRune RuneError ++ coerce s1
        end
  end.

(** What an element comes back as after [MarshalJSON] and [UnmarshalJSON]:
    nothing, if it is encoded as an object or an array. *)
Definition round_trip (v : value) : option value :=
  match v with
  | Nil => Some Nil
  | Bool b => Some (Bool b)
  | Int n => Some (Number (FormatInt n))
  | Str s => Some (Str (coerce s))
  | Number s => Some (Number (if decide (s = EmptyString) then "0" else s))
  | OrderedPair _ _ => None
  | Ptr _ => None
  end.

(** [json.Marshal] accepts the element: every [json.Number] in it is empty
    or a number literal, and every set in it is accepted by [enc_set]. *)
Fixpoint encodable_at (enc_set : Set_ → Prop) (v : value) : Prop :=
  match v with
  | Nil | Bool _ | Int _ | Str _ => True
  | Number s => s = EmptyString ∨ isValidNumber s = true
  | OrderedPair First Second =>
      encodable_at enc_set First ∧ encodable_at enc_set Second
  | Ptr r => enc_set r
  end.

(** The set [r] exists, is not write-locked if it is guarded, and nests sets
    at most [depth] deep, all of them with elements that [json.Marshal]
    accepts. *)
Fixpoint encodable_set (depth : nat) (objs : gmap loc (gset value))
    (mtx : gmap loc RWMutex) (r : Set_) : Prop :=
  match depth with
  | O => False
  | S depth' =>
      ∃ s, objs !! table r = Some s
           ∧ match r with
             | PtrUnsafe _ => True
             | PtrSafe p => ∃ m, mtx !! p = Some m ∧ writer m = false
             end
           ∧ ∀ v, v ∈ s → encodable_at (encodable_set depth' objs mtx) v
  end.

(** Compact JSON text of a tree, as the encoder writes it. *)
Fixpoint print (t : jvalue) : string :=
  match t with
  | JNull => "null"
  | JBool b => if b then "true" else "false"
  | JNumber s => s
  | JString s => quote s
  | JArray l => "[" ++ Join (map print l) "," ++ "]"
  | JObject m =>
      "{" ++ Join (map (λ kv, quote (fst kv) ++ ":" ++ print (snd kv)) m) ","
          ++ "}"
  end.

(** Every number in the tree is a number literal. *)
Fixpoint wf (t : jvalue) : Prop :=
  match t with
  | JNumber s => isValidNumber s = true
  | JArray l => foldr (λ t' P, wf t' ∧ P) True l
  | JObject m => foldr (λ kv P, wf (snd kv) ∧ P) True m
  | _ => True
  end.

(** The tree that decoding the text of [t] gives. *)
Fixpoint decoded (t : jvalue) : jvalue :=
  match t with
  | JString s => JString (coerce s)
  | JArray l => JArray (map decoded l)
  | JObject m => JObject (map (λ kv, (coerce (fst kv), decoded (snd kv))) m)
  | t => t
  end.

(** A delimiter, or the end of the text, follows. *)
Definition delimited (rest : string) : Prop :=
  match rest with
  | EmptyString => True
  | String c _ => byte_val c = 44 ∨ byte_val c = 93 ∨ byte_val c = 125
  end.

(** The five binary operations of the set algebra. *)
Inductive binop : Type :=
| Union | Intersect | Difference | SymmetricDifference | CartesianProduct.

Definition Set_binop (op : binop) `{RangeOrder} : Set_ → Set_ → M Set_ :=
  match op with
  | Union => Set_Union
  | Intersect => Set_Intersect
  | Difference => Set_Difference
  | SymmetricDifference => Set_SymmetricDifference
  | CartesianProduct => Set_CartesianProduct
  end.

Global Instance binop_eq_dec : EqDecision binop.
Proof. solve_decision. Defined.

(** The one case in which a call of a binary operation does not return:
    the guarded [CartesianProduct] on two different sets, whose second
    deferred call unlocks the receiver instead of the operand. *)
Definition lock_slip (op : binop) (a b : Set_) : Prop :=
  op = CartesianProduct ∧
  match a with
  | PtrSafe p => p ≠ table b
  | PtrUnsafe _ => False
  end.

Global Instance lock_slip_dec op a b : Decision (lock_slip op a b).
Proof. unfold lock_slip. destruct a; apply _. Defined.

(** What each operation is meant to compute. *)
Definition denote (op : binop) (A B : gset value) : gset value :=
  match op with
  | Union => A ∪ B
  | Intersect => A ∩ B
  | Difference => A ∖ B
  | SymmetricDifference => (A ∖ B) ∪ (B ∖ A)
  | CartesianProduct => pairs A B
  end.

(** [w'] is [w] with more tables: every table of [w] is still there with
    the same elements, and locks and lock history are those of [w]. *)
Definition extends (w w' : World) : Prop :=
  objects w ⊆ objects w' ∧ mutex w' = mutex w ∧ trace w' = trace w.

(** A world with an unguarded set at 1 and a guarded set at 2, both holding
    1 and "a", and two empty sets, unguarded at 3 and guarded at 4. *)
Definition sample_world : World :=
  mkWorld
    (<[1%positive := {[Int 1; Str "a"]}]>
       (<[2%positive := {[Int 1; Str "a"]}]>
          (<[3%positive := ∅]> (<[4%positive := ∅]> ∅))))
    (<[2%positive := mkRWMutex 0 false]>
       (<[4%positive := mkRWMutex 0 false]> ∅))
    0 [].

(** * Vocabulary of the proofs *)

Section Loops.
Context {ro : RangeOrder}.

(** The shape of a guarded binary operation: lock [x], lock [y], combine,
    and two deferred unlocks, of [d] and then of [x]. *)
Definition shape {A} (x y d : loc) (body : M A) : M unit :=
  (RLock x;; defer (RUnlock x) (RLock y;; defer (RUnlock d) body));; mret ().

(** Every element of [T] is a pointer to an unguarded set that exists. *)
Definition points (w : World) (T : gset value) : Prop :=
  ∀ v, v ∈ T → ∃ p, v = Ptr (PtrUnsafe p) ∧ is_Some (objects w !! p).

(** The body of the inner loop of [PowerSet]. *)
Definition step_body (u : loc) (item : value) (er : value) : M unit :=
  p ← var newThreadUnsafeSet;
  name ← type_name er;
  (if decide (name = "") then
     k ← assert_elem_threadUnsafeSet er;
     eks ← range k;
     for_each eks (λ ek, threadUnsafeSet_Add p ek;; mret ())
   else
     threadUnsafeSet_Add p er;; mret ());;
  threadUnsafeSet_Add p item;;
  threadUnsafeSet_Add u (Ptr (PtrUnsafe p));;
  mret ().

(** The accumulator of [PowerSet]: a table of [2^n] pointers to existing
    unguarded sets whose tables form the family [F]. *)
Definition Inv (w : World) (P : loc) (n : nat) (F : gset (gset value))
    : Prop :=
  ∃ T, objects w !! P = Some T ∧ points w T ∧ size T = (2 ^ n)%nat
       ∧ set_omap (member_table w) T = F.

(** The loop of the guarded [PowerSet] that wraps every subset. *)
Definition wrap_body (tss : loc) (subset : value) : M unit :=
  unsafeSubset ← assert_elem_threadUnsafeSet subset;
  m ← load unsafeSubset;
  q ← new_threadSafeSet m;
  threadSafeSet_Add tss (Ptr (PtrSafe q));;
  mret ().

End Loops.

(** What [scan_string] does with the rest once it has read a chunk. *)
Definition cons_to (pre : string) (r : option (string * string))
    : option (string * string) :=
  match r with
  | Some (t, rest) => Some (pre ++ t, rest)
  | None => None
  end.

(** The escape sequence of one byte below 0x80. *)
Definition escape1 (c0 : ascii) : string :=
  let b := byte_val c0 in
  if htmlSafe b then String c0 ""
  else if (b =? 92) || (b =? 34) then String BSL (String c0 "")
  else if b =? 8 then String BSL "b"
  else if b =? 12 then String BSL "f"
  else if b =? 10 then String BSL "n"
  else if b =? 13 then String BSL "r"
  else if b =? 9 then String BSL "t"
  else escape_u00 b.

(** The first byte of the text of a tree. *)
Definition value_head (c : ascii) : Prop :=
  isSpace c = false ∧ byte_val c ≠ 93 ∧ byte_val c ≠ 125.

(** The two lock tables agree on which locks exist and which are
    write-locked. *)
Definition lock_equiv (mtx mtx' : gmap loc RWMutex) : Prop :=
  ∀ p, writer <$> mtx !! p = writer <$> mtx' !! p.

(** The element and the tree written for it come back as the same thing. *)
Definition comes_back (v : value) (t : jvalue) : Prop :=
  wf t ∧ entry (decoded t) = round_trip v.

(** The worlds in which the elements are marshalled: the tables are those
    of [objs0], and the locks are those of [mtx0] up to their readers. *)
Definition stable (objs0 : gmap loc (gset value)) (mtx0 : gmap loc RWMutex)
    (w : World) : Prop :=
  objects w = objs0 ∧ lock_equiv (mutex w) mtx0.

(** The elements that come back as themselves: nil, the booleans, the
    strings that are valid UTF-8, and the non-empty [json.Number]s. *)
Definition plain (v : value) : Prop :=
  match v with
  | Nil | Bool _ => True
  | Str s => coerce s = s
  | Number s => s ≠ EmptyString
  | Int _ | OrderedPair _ _ | Ptr _ => False
  end.

(** The elements that come back from the elements [s]. *)
Definition returned (s : gset value) : gset value := set_omap round_trip s.

(** * threadunsafe.go and threadsafe.go, the remaining methods *)

Section Rest.
Context {ro : RangeOrder}.

(** The loop of [Each]: [break] when the callback returns true.  The keys
    are those of the table when the traversal starts, which is what Go
    produces as long as the callback leaves the other keys of this table
    alone. *)
Fixpoint each_loop (elems : list value) (callback : value → M bool)
    : M unit :=
  match elems with
  | [] => mret ()
  | elem :: elems' =>
      stop ← callback elem;
      if (stop : bool) then mret () else each_loop elems' callback
  end.

Definition threadUnsafeSet_Each (set : loc) (callback : value → M bool)
    : M unit :=
  elems ← range set;
  each_loop elems callback.

Definition threadSafeSet_Each (set : loc) (callback : value → M bool)
    : M unit :=
  RLock set;;
  defer (RUnlock set) (elems ← range set; each_loop elems callback).

(** The loop of [Strings]: the type switch has the one case [string], so an
    element of another type, [json.Number] included, is passed over. *)
Fixpoint strings_loop (elems : list value) (keys : list string)
    : list string :=
  match elems with
  | [] => keys
  | Str s :: elems' => strings_loop elems' (keys ++ [s])
  | _ :: elems' => strings_loop elems' keys
  end.

Definition threadUnsafeSet_Strings (set : loc) : M (list string) :=
  _ ← threadUnsafeSet_Length set;
  elems ← range set;
  mret (strings_loop elems []).

Definition threadSafeSet_Strings (set : loc) : M (list string) :=
  _ ← threadSafeSet_Length set;
  RLock set;;
  defer (RUnlock set) (elems ← range set; mret (strings_loop elems [])).

Definition threadSafeSet_ToSlice (set : loc) : M (list value) :=
  _ ← threadSafeSet_Cardinality set;
  RLock set;;
  defer (RUnlock set) (range set).

(** ** The remaining calls through the [Set] interface *)

Definition Set_Remove (s : Set_) (i : value) : M unit :=
  match s with
  | PtrUnsafe p => threadUnsafeSet_Remove p i
  | PtrSafe p => threadSafeSet_Remove p i
  end.

Definition Set_Clear (s : Set_) : M unit :=
  match s with
  | PtrUnsafe p => threadUnsafeSet_Clear p
  | PtrSafe p => threadSafeSet_Clear p
  end.

Definition Set_Length (s : Set_) : M Z :=
  match s with
  | PtrUnsafe p => threadUnsafeSet_Length p
  | PtrSafe p => threadSafeSet_Length p
  end.

Definition Set_Clone (s : Set_) : M Set_ :=
  match s with
  | PtrUnsafe p => threadUnsafeSet_Clone p
  | PtrSafe p => threadSafeSet_Clone p
  end.

Definition Set_ToSlice (s : Set_) : M (list value) :=
  match s with
  | PtrUnsafe p => threadUnsafeSet_ToSlice p
  | PtrSafe p => threadSafeSet_ToSlice p
  end.

Definition Set_Strings (s : Set_) : M (list string) :=
  match s with
  | PtrUnsafe p => threadUnsafeSet_Strings p
  | PtrSafe p => threadSafeSet_Strings p
  end.

Definition Set_Each (s : Set_) (callback : value → M bool) : M unit :=
  match s with
  | PtrUnsafe p => threadUnsafeSet_Each p callback
  | PtrSafe p => threadSafeSet_Each p callback
  end.

Definition Set_IsSuperset (s : Set_) (other : Set_) : M bool :=
  match s with
  | PtrUnsafe p => threadUnsafeSet_IsSuperset p other
  | PtrSafe p => threadSafeSet_IsSuperset p other
  end.

Definition Set_IsProperSuperset (s : Set_) (other : Set_) : M bool :=
  match s with
  | PtrUnsafe p => threadUnsafeSet_IsProperSuperset p other
  | PtrSafe p => threadSafeSet_IsProperSuperset p other
  end.

End Rest.

(** ** Vocabulary of the further statements *)

(** The set [r] exists with exactly the elements [s] and, if it is guarded,
    its lock is not write-locked; other goroutines may hold read locks. *)
Definition reads (w : World) (r : Set_) (s : gset value) : Prop :=
  objects w !! table r = Some s ∧
  match r with
  | PtrUnsafe _ => True
  | PtrSafe p => readable w p
  end.

(** The five tests on two sets. *)
Inductive test : Type :=
| TEqual | TIsSubset | TIsProperSubset | TIsSuperset | TIsProperSuperset.

Definition Set_test `{RangeOrder} (t : test) : Set_ → Set_ → M bool :=
  match t with
  | TEqual => Set_Equal
  | TIsSubset => Set_IsSubset
  | TIsProperSubset => Set_IsProperSubset
  | TIsSuperset => Set_IsSuperset
  | TIsProperSuperset => Set_IsProperSuperset
  end.

(** What each test is meant to decide. *)
Definition verdict (t : test) (A B : gset value) : bool :=
  match t with
  | TEqual => bool_decide (A = B)
  | TIsSubset => bool_decide (A ⊆ B)
  | TIsProperSubset => bool_decide (A ⊂ B)
  | TIsSuperset => bool_decide (B ⊆ A)
  | TIsProperSuperset => bool_decide (B ⊂ A)
  end.

(** The four operations that change a set. *)
Inductive mutator : Type :=
| MAdd (v : value) | MRemove (v : value) | MClear | MPop.

Definition Set_mutate `{RangeOrder} (mu : mutator) (r : Set_) : M unit :=
  match mu with
  | MAdd v => Set_Add r v;; mret ()
  | MRemove v => Set_Remove r v
  | MClear => Set_Clear r
  | MPop => Set_Pop r;; mret ()
  end.

(** The elements of [l] up to and including the first at which [stop]
    answers true. *)
Fixpoint until (stop : value → bool) (l : list value) : list value :=
  match l with
  | [] => []
  | x :: l' => if stop x then [x] else x :: until stop l'
  end.

(** The texts of the elements of type string. *)
Definition text (v : value) : option string :=
  match v with Str t => Some t | _ => None end.

(** The two ways to the symmetric difference, compared by [Equal]. *)
Definition symmetric_difference_by_parts `{RangeOrder} (a b : Set_)
    : M bool :=
  d1 ← Set_Difference a b;
  d2 ← Set_Difference b a;
  u ← Set_Union d1 d2;
  sd ← Set_SymmetricDifference a b;
  Set_Equal u sd.

(** [n] calls of [Pop], and what they returned. *)
Fixpoint pop_times `{RangeOrder} (n : nat) (r : Set_) : M (list value) :=
  match n with
  | O => mret []
  | S n' => x ← Set_Pop r; xs ← pop_times n' r; mret (x :: xs)
  end.

(** No set is nested in the element. *)
Fixpoint flat (v : value) : Prop :=
  match v with
  | Ptr _ => False
  | OrderedPair First Second => flat First ∧ flat Second
  | _ => True
  end.

(** A world with one unguarded set, at 1, that holds the integer 1 and a
    [json.Number] that is no number literal. *)
Definition world_with_bad_number : World :=
  mkWorld {[1%positive := {[Int 1; Number "1e"]}]} ∅ 0 [].

(** * Reasoning principles *)

(** Normalises projections of updated worlds. *)
Ltac wsimpl :=
  cbn [tick objects mutex trace set_objects set_tick set_mutex log] in *.

Lemma World_eq (a b : World) :
  objects a = objects b → mutex a = mutex b → tick a = tick b →
  trace a = trace b → a = b.
Proof. destruct a, b; simpl; intros; by subst. Qed.

Lemma bind_Done {A B} (m : M A) (k : A → M B) w a w' :
  m w = Done a w' → (m ≫= k) w = k a w'.
Proof. intros H. unfold mbind, M_bind, bind. by rewrite H. Qed.

Lemma bind_unfold {A B} (m : M A) (k : A → M B) w :
  (m ≫= k) w = match m w with
               | Done a w' => k a w'
               | Panic msg w' => Panic msg w'
               | Fatal msg w' => Fatal msg w'
               | Blocked w' => Blocked w'
               end.
Proof. reflexivity. Qed.

Lemma mret_unfold {A} (a : A) w : (mret a : M A) w = Done a w.
Proof. reflexivity. Qed.

(** Exposes the case analysis of a sequence of calls, outside loop bodies. *)
Ltac msimpl :=
  repeat first [rewrite bind_unfold | rewrite mret_unfold
               | progress cbv beta iota].

Lemma bind_ret {A B} (a : A) (k : A → M B) w : (mret a ≫= k) w = k a w.
Proof. reflexivity. Qed.

Lemma defer_Done {A} (d : M unit) (body : M A) w a w' w'' :
  body w = Done a w' → d w' = Done () w'' → defer d body w = Done a w''.
Proof. intros Hb Hd. unfold defer, bind, ret. by rewrite Hb, Hd. Qed.

Lemma load_Done w p s : objects w !! p = Some s → load p w = Done s w.
Proof. intros H. unfold load. by rewrite H. Qed.

Lemma store_Done w p s s' :
  objects w !! p = Some s → store p s' w = Done () (set_objects <[p := s']> w).
Proof. intros H. unfold store. by rewrite H. Qed.

Lemma var_Done w s :
  var s w = Done (new_loc w) (set_objects <[new_loc w := s]> w).
Proof. reflexivity. Qed.

Lemma new_threadSafeSet_Done w m :
  new_threadSafeSet m w
  = Done (new_loc w)
      (set_mutex <[new_loc w := mkRWMutex 0 false]>
         (set_objects <[new_loc w := m]> w)).
Proof. reflexivity. Qed.

Lemma set_objects_id w p s :
  objects w !! p = Some s → set_objects <[p := s]> w = w.
Proof. intros H. apply World_eq; simpl; auto. by apply insert_id. Qed.

Lemma set_objects_twice w p s s' :
  set_objects <[p := s']> (set_objects <[p := s]> w)
  = set_objects <[p := s']> w.
Proof. apply World_eq; simpl; auto. apply insert_insert_eq. Qed.

Lemma new_loc_fresh w : objects w !! new_loc w = None.
Proof.
  apply not_elem_of_dom. unfold new_loc.
  pose proof (is_fresh (dom (objects w) ∪ dom (mutex w))) as H. set_solver.
Qed.

Lemma new_loc_fresh_mutex w : mutex w !! new_loc w = None.
Proof.
  apply not_elem_of_dom. unfold new_loc.
  pose proof (is_fresh (dom (objects w) ∪ dom (mutex w))) as H. set_solver.
Qed.

Section Proofs.
Context {ro : RangeOrder}.

Lemma range_Done w p s :
  objects w !! p = Some s →
  range p w = Done (range_of (tick w) s) (set_tick S w).
Proof. intros H. unfold range. by rewrite H. Qed.

Lemma range_of_elem n s x : x ∈ range_of n s ↔ x ∈ s.
Proof. rewrite (range_of_perm n s). apply elem_of_elements. Qed.

Lemma range_of_NoDup n s : NoDup (range_of n s).
Proof. rewrite (range_of_perm n s). apply NoDup_elements. Qed.

Lemma range_of_to_set n s : list_to_set (range_of n s) = s.
Proof. apply set_eq. intros x. rewrite elem_of_list_to_set. apply range_of_elem. Qed.

Lemma range_of_length n s : length (range_of n s) = size s.
Proof. by rewrite (range_of_perm n s). Qed.

Lemma range_of_empty n : range_of n ∅ = [].
Proof. apply Permutation_nil_r. rewrite (range_of_perm n ∅). by rewrite elements_empty. Qed.

End Proofs.

Section Basic.
Context {ro : RangeOrder}.
(** ** threadUnsafeSet.Add and the loops that call it *)

Lemma Add_Done w set s key :
  objects w !! set = Some s →
  threadUnsafeSet_Add set key w
  = Done (bool_decide (key ∉ s)) (set_objects <[set := {[key]} ∪ s]> w).
Proof.
  intros H. unfold threadUnsafeSet_Add. msimpl.
  rewrite (load_Done _ _ _ H).
  destruct (decide (key ∈ s)) as [Hin|Hin].
  - rewrite bool_decide_eq_false_2 by tauto.
    rewrite (subseteq_union_1_L {[key]} s) by (by apply singleton_subseteq_l).
    by rewrite set_objects_id.
  - rewrite bool_decide_eq_true_2 by done. msimpl.
    by rewrite (store_Done _ _ _ _ H).
Qed.

Lemma for_each_Add w u acc l :
  objects w !! u = Some acc →
  for_each l (λ elem, threadUnsafeSet_Add u elem;; mret ()) w
  = Done () (set_objects <[u := acc ∪ list_to_set l]> w).
Proof.
  revert w acc. induction l as [|x l IH]; intros w acc H; cbn [for_each list_to_set foldr].
  - rewrite union_empty_r_L. by rewrite set_objects_id.
  - msimpl. rewrite (Add_Done _ _ _ x H). msimpl.
    rewrite (IH _ ({[x]} ∪ acc)) by (simpl; apply lookup_insert_eq).
    rewrite set_objects_twice. do 2 f_equal. f_equal. set_solver.
Qed.

Lemma Contains_Done w set s keys :
  objects w !! set = Some s →
  threadUnsafeSet_Contains set keys w
  = Done (bool_decide (Forall (λ k, k ∈ s) keys)) w.
Proof.
  intros H. induction keys as [|k keys IH]; cbn [threadUnsafeSet_Contains]; msimpl.
  - reflexivity.
  - rewrite (load_Done _ _ _ H).
    destruct (decide (k ∈ s)) as [Hin|Hin].
    + rewrite IH. f_equal. apply bool_decide_ext. rewrite Forall_cons. tauto.
    + f_equal. symmetry. apply bool_decide_eq_false_2. rewrite Forall_cons. tauto.
Qed.

Lemma Cardinality_Done w set s :
  objects w !! set = Some s →
  threadUnsafeSet_Cardinality set w = Done (Z.of_nat (size s)) w.
Proof.
  intros H. unfold threadUnsafeSet_Cardinality. msimpl.
  by rewrite (load_Done _ _ _ H).
Qed.

(** ** sync.RWMutex *)

Lemma RLock_Done w p m :
  mutex w !! p = Some m → writer m = false →
  RLock p w = Done () (log (EvRLock p)
                (set_mutex <[p := mkRWMutex (S (readers m)) false]> w)).
Proof. intros H Hw. unfold RLock. by rewrite H, Hw. Qed.

Lemma RUnlock_Done w p m n :
  mutex w !! p = Some m → readers m = S n →
  RUnlock p w = Done () (log (EvRUnlock p)
                  (set_mutex <[p := mkRWMutex n (writer m)]> w)).
Proof. intros H Hr. unfold RUnlock. by rewrite H, Hr. Qed.

Lemma Lock_Done w p :
  mutex w !! p = Some (mkRWMutex 0 false) →
  Lock p w = Done () (log (EvLock p) (set_mutex <[p := mkRWMutex 0 true]> w)).
Proof. intros H. unfold Lock. by rewrite H. Qed.

Lemma Unlock_Done w p m :
  mutex w !! p = Some m → writer m = true →
  Unlock p w = Done () (log (EvUnlock p)
                  (set_mutex <[p := mkRWMutex (readers m) false]> w)).
Proof. intros H Hw. unfold Unlock. by rewrite H, Hw. Qed.

(** A write-locked section around a body that leaves the locks alone. *)
Lemma Lock_section {A} (body : M A) w set a w' :
  mutex w !! set = Some (mkRWMutex 0 false) →
  body (log (EvLock set) (set_mutex <[set := mkRWMutex 0 true]> w)) = Done a w' →
  mutex w' = <[set := mkRWMutex 0 true]> (mutex w) →
  ∃ w'', (Lock set;; defer (Unlock set) body) w = Done a w''
         ∧ objects w'' = objects w' ∧ mutex w'' = mutex w
         ∧ tick w'' = tick w' ∧ trace w'' = (trace w' ++ [EvUnlock set])%list.
Proof.
  intros Hm Hb Hm'. msimpl. rewrite (Lock_Done _ _ Hm). msimpl.
  unfold defer. rewrite Hb. unfold bind.
  erewrite Unlock_Done; [|rewrite Hm'; apply lookup_insert_eq|done].
  eexists. split; [reflexivity|]. simpl. repeat split.
  rewrite Hm', insert_insert_eq. by apply insert_id.
Qed.

(** A read-locked section, likewise. *)
Lemma RLock_section {A} (body : M A) w set m a w' :
  mutex w !! set = Some m → writer m = false →
  body (log (EvRLock set)
          (set_mutex <[set := mkRWMutex (S (readers m)) false]> w)) = Done a w' →
  mutex w' = <[set := mkRWMutex (S (readers m)) false]> (mutex w) →
  ∃ w'', (RLock set;; defer (RUnlock set) body) w = Done a w''
         ∧ objects w'' = objects w' ∧ mutex w'' = mutex w
         ∧ tick w'' = tick w' ∧ trace w'' = (trace w' ++ [EvRUnlock set])%list.
Proof.
  intros Hm Hw Hb Hm'. msimpl. rewrite (RLock_Done _ _ _ Hm Hw). msimpl.
  unfold defer. rewrite Hb. unfold bind.
  erewrite RUnlock_Done; [|rewrite Hm'; apply lookup_insert_eq|done].
  eexists. split; [reflexivity|]. simpl. repeat split.
  rewrite Hm', insert_insert_eq. apply insert_id. rewrite Hm.
  destruct m; simpl in *; by subst.
Qed.

(** ** Add *)

Lemma threadSafeSet_Add_Done w set s v :
  objects w !! set = Some s →
  mutex w !! set = Some (mkRWMutex 0 false) →
  ∃ w', threadSafeSet_Add set v w = Done (bool_decide (v ∉ s)) w'
        ∧ objects w' = <[set := {[v]} ∪ s]> (objects w)
        ∧ mutex w' = mutex w ∧ tick w' = tick w
        ∧ trace w' = (trace w ++ [EvLock set; EvUnlock set])%list.
Proof.
  intros Hs Hm. unfold threadSafeSet_Add.
  edestruct (Lock_section (threadUnsafeSet_Add set v) w set) as (w'' & -> & Ho & Hmx & Ht & Htr);
    [done|by apply Add_Done|done|].
  eexists. split; [reflexivity|]. rewrite Ho, Hmx, Ht, Htr. simpl.
  repeat split. by rewrite <- app_assoc.
Qed.

Lemma threadSafeSet_Contains_Done w set s m keys :
  objects w !! set = Some s →
  mutex w !! set = Some m → writer m = false →
  ∃ w', threadSafeSet_Contains set keys w
        = Done (bool_decide (Forall (λ k, k ∈ s) keys)) w'
        ∧ objects w' = objects w ∧ mutex w' = mutex w ∧ tick w' = tick w
        ∧ trace w' = (trace w ++ [EvRLock set; EvRUnlock set])%list.
Proof.
  intros Hs Hm Hw. unfold threadSafeSet_Contains.
  edestruct (RLock_section (threadUnsafeSet_Contains set keys) w set)
    as (w'' & -> & Ho & Hmx & Ht & Htr);
    [done|done|by apply Contains_Done|done|].
  eexists. split; [reflexivity|]. rewrite Ho, Hmx, Ht, Htr. simpl.
  repeat split. by rewrite <- app_assoc.
Qed.

Lemma threadSafeSet_Cardinality_Done w set s m :
  objects w !! set = Some s →
  mutex w !! set = Some m → writer m = false →
  ∃ w', threadSafeSet_Cardinality set w = Done (Z.of_nat (size s)) w'
        ∧ objects w' = objects w ∧ mutex w' = mutex w ∧ tick w' = tick w
        ∧ trace w' = (trace w ++ [EvRLock set; EvRUnlock set])%list.
Proof.
  intros Hs Hm Hw. unfold threadSafeSet_Cardinality.
  edestruct (RLock_section (s ← load set; mret (Z.of_nat (size s))) w set)
    as (w'' & -> & Ho & Hmx & Ht & Htr);
    [done|done|msimpl; by rewrite (load_Done _ _ s)|done|].
  eexists. split; [reflexivity|]. rewrite Ho, Hmx, Ht, Htr. simpl.
  repeat split. by rewrite <- app_assoc.
Qed.

(** ** Pop *)

Lemma Pop_Done w set s :
  objects w !! set = Some s →
  threadUnsafeSet_Pop set w =
  match range_of (tick w) s with
  | item :: _ => Done item (set_objects <[set := s ∖ {[item]}]> (set_tick S w))
  | [] => Done Nil (set_tick S w)
  end.
Proof.
  intros H. unfold threadUnsafeSet_Pop. msimpl. rewrite (range_Done _ _ _ H).
  msimpl. destruct (range_of (tick w) s) as [|item l]; [done|].
  msimpl. rewrite (load_Done _ _ s) by done. msimpl.
  by rewrite (store_Done _ _ s) by done.
Qed.

Lemma Pop_nonempty w set s :
  objects w !! set = Some s → s ≠ ∅ →
  ∃ item, item ∈ s ∧
    threadUnsafeSet_Pop set w
    = Done item (set_objects <[set := s ∖ {[item]}]> (set_tick S w)).
Proof.
  intros H Hne. rewrite (Pop_Done _ _ _ H).
  destruct (range_of (tick w) s) as [|item l] eqn:E.
  - exfalso. apply Hne. rewrite <- (range_of_to_set (tick w) s). by rewrite E.
  - exists item. split; [|done]. apply (range_of_elem (tick w)). rewrite E. left.
Qed.

Lemma Pop_empty w set :
  objects w !! set = Some ∅ →
  threadUnsafeSet_Pop set w = Done Nil (set_tick S w).
Proof. intros H. rewrite (Pop_Done _ _ _ H). by rewrite range_of_empty. Qed.

End Basic.

Lemma Pop_first w set s x :
  objects w !! set = Some s → x ∈ s →
  threadUnsafeSet_Pop (ro := order_first x) set w
  = Done x (set_objects <[set := s ∖ {[x]}]> (set_tick S w)).
Proof.
  intros H Hx. rewrite (Pop_Done (ro := order_first x) _ _ _ H). simpl.
  by rewrite decide_True.
Qed.

(** ** The binary operations of threadunsafe.go *)

Section Binary.
Context {ro : RangeOrder}.

Lemma extends_refl w : extends w w.
Proof. by repeat split. Qed.

Lemma extends_trans w1 w2 w3 : extends w1 w2 → extends w2 w3 → extends w1 w3.
Proof.
  intros (Ho & Hm & Ht) (Ho' & Hm' & Ht'). split; [by etrans|].
  split; congruence.
Qed.

Lemma extends_lookup w w' p s :
  extends w w' → objects w !! p = Some s → objects w' !! p = Some s.
Proof. intros (Ho & _) H. by eapply lookup_weaken. Qed.

Lemma extends_alloc w w' q s :
  objects w !! q = None → objects w' = <[q := s]> (objects w) →
  mutex w' = mutex w → trace w' = trace w → extends w w'.
Proof. intros Hq Ho Hm Ht. split; [|done]. rewrite Ho. by apply insert_subseteq. Qed.

Lemma for_each_Add_contained w u acc o B l :
  objects w !! u = Some acc → objects w !! o = Some B → u ≠ o →
  for_each l (λ elem,
    c ← threadUnsafeSet_Contains o [elem];
    if (c : bool) then threadUnsafeSet_Add u elem;; mret () else mret ()) w
  = Done () (set_objects <[u := acc ∪ (list_to_set l ∩ B)]> w).
Proof.
  intros Hu Ho Hne. revert w acc Hu Ho.
  induction l as [|x l IH]; intros w acc Hu Ho; cbn [for_each list_to_set foldr].
  - replace (acc ∪ _) with acc by set_solver. by rewrite set_objects_id.
  - msimpl. rewrite (Contains_Done _ _ _ _ Ho). msimpl.
    destruct (decide (x ∈ B)) as [Hx|Hx].
    + rewrite bool_decide_eq_true_2 by (by constructor).
      msimpl. rewrite (Add_Done _ _ _ x Hu). msimpl.
      rewrite (IH _ ({[x]} ∪ acc));
        [|simpl; apply lookup_insert_eq|simpl; by rewrite lookup_insert_ne].
      rewrite set_objects_twice. do 2 f_equal. f_equal. set_solver.
    + rewrite bool_decide_eq_false_2 by (by inversion 1). msimpl.
      rewrite (IH _ acc) by done. do 2 f_equal. f_equal. set_solver.
Qed.

Lemma for_each_Add_missing w u acc o B l :
  objects w !! u = Some acc → objects w !! o = Some B → u ≠ o →
  for_each l (λ elem,
    c ← Set_Contains (PtrUnsafe o) [elem];
    if (c : bool) then mret () else threadUnsafeSet_Add u elem;; mret ()) w
  = Done () (set_objects <[u := acc ∪ (list_to_set l ∖ B)]> w).
Proof.
  intros Hu Ho Hne. revert w acc Hu Ho.
  induction l as [|x l IH]; intros w acc Hu Ho; cbn [for_each list_to_set foldr].
  - replace (acc ∪ _) with acc by set_solver. by rewrite set_objects_id.
  - msimpl. unfold Set_Contains at 1. rewrite (Contains_Done _ _ _ _ Ho). msimpl.
    destruct (decide (x ∈ B)) as [Hx|Hx].
    + rewrite bool_decide_eq_true_2 by (by constructor). msimpl.
      rewrite (IH _ acc) by done. do 2 f_equal. f_equal. set_solver.
    + rewrite bool_decide_eq_false_2 by (by inversion 1).
      msimpl. rewrite (Add_Done _ _ _ x Hu). msimpl.
      rewrite (IH _ ({[x]} ∪ acc));
        [|simpl; apply lookup_insert_eq|simpl; by rewrite lookup_insert_ne].
      rewrite set_objects_twice. do 2 f_equal. f_equal. set_solver.
Qed.

Lemma Union_Done w set o A B :
  objects w !! set = Some A → objects w !! o = Some B →
  ∃ w', threadUnsafeSet_Union set (PtrUnsafe o) w
        = Done (PtrUnsafe (new_loc w)) w'
        ∧ objects w' = <[new_loc w := A ∪ B]> (objects w)
        ∧ mutex w' = mutex w ∧ trace w' = trace w.
Proof.
  intros HA HB. pose proof (new_loc_fresh w) as Hq.
  assert (new_loc w ≠ set) by congruence.
  assert (new_loc w ≠ o) by congruence.
  unfold threadUnsafeSet_Union, assert_threadUnsafeSet, var. msimpl.
  erewrite range_Done by (simpl; rewrite lookup_insert_ne by done; exact HA).
  msimpl. erewrite for_each_Add by (simpl; apply lookup_insert_eq). msimpl.
  erewrite range_Done by (simpl; rewrite lookup_insert_ne by done;
                          rewrite lookup_insert_ne by done; exact HB).
  msimpl. erewrite for_each_Add by (simpl; apply lookup_insert_eq). msimpl.
  eexists. split; [reflexivity|]. simpl. repeat split.
  rewrite !insert_insert_eq. f_equal. rewrite !range_of_to_set. set_solver.
Qed.

Lemma Intersect_Done w set o A B :
  objects w !! set = Some A → objects w !! o = Some B →
  ∃ w', threadUnsafeSet_Intersect set (PtrUnsafe o) w
        = Done (PtrUnsafe (new_loc w)) w'
        ∧ objects w' = <[new_loc w := A ∩ B]> (objects w)
        ∧ mutex w' = mutex w ∧ trace w' = trace w.
Proof.
  intros HA HB. pose proof (new_loc_fresh w) as Hq.
  assert (new_loc w ≠ set) by congruence.
  assert (new_loc w ≠ o) by congruence.
  unfold threadUnsafeSet_Intersect, assert_threadUnsafeSet, var. msimpl.
  unfold Set_Cardinality, Set_Contains.
  erewrite Cardinality_Done by (simpl; rewrite lookup_insert_ne by done; exact HA).
  msimpl.
  erewrite Cardinality_Done by (simpl; rewrite lookup_insert_ne by done; exact HB).
  msimpl.
  destruct (decide (Z.of_nat (size A) < Z.of_nat (size B))); msimpl.
  - erewrite range_Done by (simpl; rewrite lookup_insert_ne by done; exact HA).
    msimpl.
    erewrite for_each_Add_contained;
      [| simpl; apply lookup_insert_eq
       | simpl; rewrite lookup_insert_ne by done; exact HB | done].
    msimpl. eexists. split; [reflexivity|]. simpl. repeat split.
    rewrite !insert_insert_eq. f_equal. rewrite !range_of_to_set. set_solver.
  - erewrite range_Done by (simpl; rewrite lookup_insert_ne by done; exact HB).
    msimpl.
    erewrite for_each_Add_contained;
      [| simpl; apply lookup_insert_eq
       | simpl; rewrite lookup_insert_ne by done; exact HA | done].
    msimpl. eexists. split; [reflexivity|]. simpl. repeat split.
    rewrite !insert_insert_eq. f_equal. rewrite !range_of_to_set. set_solver.
Qed.

Lemma Difference_Done w set o A B :
  objects w !! set = Some A → objects w !! o = Some B →
  ∃ w', threadUnsafeSet_Difference set (PtrUnsafe o) w
        = Done (PtrUnsafe (new_loc w)) w'
        ∧ objects w' = <[new_loc w := A ∖ B]> (objects w)
        ∧ mutex w' = mutex w ∧ trace w' = trace w.
Proof.
  intros HA HB. pose proof (new_loc_fresh w) as Hq.
  assert (new_loc w ≠ set) by congruence.
  assert (new_loc w ≠ o) by congruence.
  unfold threadUnsafeSet_Difference, var. msimpl.
  erewrite range_Done by (simpl; rewrite lookup_insert_ne by done; exact HA).
  msimpl.
  erewrite for_each_Add_missing;
    [| simpl; apply lookup_insert_eq
     | simpl; rewrite lookup_insert_ne by done; exact HB | done].
  msimpl. eexists. split; [reflexivity|]. simpl. repeat split.
  rewrite !insert_insert_eq. f_equal. rewrite !range_of_to_set. set_solver.
Qed.

Lemma elem_of_pairs (A B : gset value) v :
  v ∈ pairs A B ↔ ∃ i j, v = OrderedPair i j ∧ i ∈ A ∧ j ∈ B.
Proof.
  unfold pairs. rewrite elem_of_set_bind. split.
  - intros (i & Hi & Hv). apply elem_of_map in Hv as (j & -> & Hj). eauto.
  - intros (i & j & -> & Hi & Hj). exists i. split; [done|].
    apply elem_of_map. eauto.
Qed.

Lemma for_each_Add_map (f : value → value) w u acc l :
  objects w !! u = Some acc →
  for_each l (λ j, threadUnsafeSet_Add u (f j);; mret ()) w
  = Done () (set_objects <[u := acc ∪ list_to_set (f <$> l)]> w).
Proof.
  revert w acc. induction l as [|x l IH]; intros w acc H;
    cbn [for_each fmap list_fmap list_to_set foldr].
  - rewrite union_empty_r_L. by rewrite set_objects_id.
  - msimpl. rewrite (Add_Done _ _ _ (f x) H). msimpl.
    rewrite (IH _ ({[f x]} ∪ acc)) by (simpl; apply lookup_insert_eq).
    rewrite set_objects_twice. do 2 f_equal. f_equal. set_solver.
Qed.

Lemma CartesianProduct_loop w c acc o B l :
  objects w !! c = Some acc → objects w !! o = Some B → c ≠ o →
  ∃ w', for_each l (λ i,
          elems' ← range o;
          for_each elems' (λ j,
            Set_Add (PtrUnsafe c) (OrderedPair i j);; mret ())) w
        = Done () w'
        ∧ objects w' = <[c := acc ∪ pairs (list_to_set l) B]> (objects w)
        ∧ mutex w' = mutex w ∧ trace w' = trace w.
Proof.
  intros Hc Ho Hne. revert w acc Hc Ho.
  induction l as [|x l IH]; intros w acc Hc Ho; cbn [for_each list_to_set foldr].
  - exists w. split; [done|]. repeat split.
    replace (acc ∪ _) with acc; [by rewrite insert_id|].
    apply set_eq. intros v. rewrite elem_of_union, elem_of_pairs. set_solver.
  - msimpl. rewrite (range_Done _ _ _ Ho). msimpl. unfold Set_Add.
    erewrite (for_each_Add_map (OrderedPair x)) by exact Hc. msimpl.
    edestruct (IH (set_objects <[c := acc ∪ list_to_set (OrderedPair x <$> range_of (tick w) B)]>
                     (set_tick S w))) as (w' & E & Hob & Hm & Ht);
      [simpl; apply lookup_insert_eq|simpl; by rewrite lookup_insert_ne|].
    unfold Set_Add in E. rewrite E. exists w'. split; [done|].
    rewrite Hob, Hm, Ht. simpl. repeat split.
    rewrite insert_insert_eq. f_equal.
    apply set_eq. intros v.
    rewrite !elem_of_union, !elem_of_pairs, elem_of_list_to_set, list_elem_of_fmap.
    setoid_rewrite elem_of_union. setoid_rewrite elem_of_singleton.
    setoid_rewrite range_of_elem. naive_solver.
Qed.

Lemma CartesianProduct_Done w set o A B :
  objects w !! set = Some A → objects w !! o = Some B →
  ∃ w', threadUnsafeSet_CartesianProduct set (PtrUnsafe o) w
        = Done (PtrUnsafe (new_loc w)) w'
        ∧ objects w' = <[new_loc w := pairs A B]> (objects w)
        ∧ mutex w' = mutex w ∧ trace w' = trace w.
Proof.
  intros HA HB. pose proof (new_loc_fresh w) as Hq.
  assert (new_loc w ≠ set) by congruence.
  assert (new_loc w ≠ o) by congruence.
  unfold threadUnsafeSet_CartesianProduct, assert_threadUnsafeSet,
    NewThreadUnsafeSet, var. msimpl.
  erewrite range_Done by (simpl; rewrite lookup_insert_ne by done; exact HA).
  msimpl.
  edestruct (CartesianProduct_loop
               (set_tick S (set_objects <[new_loc w := newThreadUnsafeSet]> w))
               (new_loc w) ∅ o B (range_of (tick w) A))
    as (w' & E & Hob & Hm & Ht);
    [simpl; apply lookup_insert_eq|simpl; by rewrite lookup_insert_ne|done|].
  wsimpl. rewrite E. msimpl. exists w'. split; [done|]. rewrite Hob, Hm, Ht. simpl.
  repeat split. rewrite insert_insert_eq, range_of_to_set. f_equal. set_solver.
Qed.

Lemma SymmetricDifference_Done w set o A B :
  objects w !! set = Some A → objects w !! o = Some B →
  ∃ q w', threadUnsafeSet_SymmetricDifference set (PtrUnsafe o) w
          = Done (PtrUnsafe q) w'
        ∧ objects w !! q = None ∧ mutex w !! q = None
        ∧ objects w' !! q = Some ((A ∖ B) ∪ (B ∖ A))
        ∧ extends w w'.
Proof.
  intros HA HB. unfold threadUnsafeSet_SymmetricDifference. msimpl.
  destruct (Difference_Done w set o A B HA HB) as (w1 & E1 & Ho1 & Hm1 & Ht1).
  rewrite E1. msimpl. unfold Set_Difference.
  pose proof (new_loc_fresh w) as Hq1.
  assert (Hx1 : extends w w1) by (by eapply extends_alloc).
  destruct (Difference_Done w1 o set B A) as (w2 & E2 & Ho2 & Hm2 & Ht2);
    [by eapply extends_lookup..|].
  rewrite E2. msimpl. unfold Set_Union.
  pose proof (new_loc_fresh w1) as Hq2.
  assert (Hx2 : extends w1 w2) by (by eapply extends_alloc).
  destruct (Union_Done w2 (new_loc w) (new_loc w1) (A ∖ B) (B ∖ A))
    as (w3 & E3 & Ho3 & Hm3 & Ht3).
  { eapply extends_lookup; [done|]. rewrite Ho1. apply lookup_insert_eq. }
  { rewrite Ho2. apply lookup_insert_eq. }
  rewrite E3. pose proof (new_loc_fresh w2) as Hq3.
  pose proof (new_loc_fresh_mutex w2) as Hq3'.
  assert (Hx3 : extends w2 w3) by (by eapply extends_alloc).
  assert (Hx : extends w w2) by (by eapply extends_trans).
  exists (new_loc w2), w3. split; [done|].
  split. { destruct (objects w !! new_loc w2) eqn:E; [|done].
           eapply extends_lookup in E; [|exact Hx]. congruence. }
  split. { by rewrite <- Hm1, <- Hm2. }
  split. { rewrite Ho3. apply lookup_insert_eq. }
  by eapply extends_trans.
Qed.

(** *** The tests *)

Lemma all_contained_Done w o B l :
  objects w !! o = Some B →
  all_contained (PtrUnsafe o) l w = Done (bool_decide (Forall (λ x, x ∈ B) l)) w.
Proof.
  intros Ho. induction l as [|x l IH]; cbn [all_contained].
  - reflexivity.
  - msimpl. unfold Set_Contains at 1. rewrite (Contains_Done _ _ _ _ Ho). msimpl.
    destruct (decide (x ∈ B)) as [Hx|Hx].
    + rewrite bool_decide_eq_true_2 by (by constructor). msimpl.
      rewrite IH. f_equal. apply bool_decide_ext. rewrite Forall_cons. tauto.
    + rewrite bool_decide_eq_false_2 by (by inversion 1). msimpl.
      f_equal. symmetry. apply bool_decide_eq_false_2. rewrite Forall_cons. tauto.
Qed.

Lemma Forall_range_of n (A B : gset value) :
  Forall (λ x, x ∈ B) (range_of n A) ↔ A ⊆ B.
Proof. rewrite Forall_forall. setoid_rewrite range_of_elem. set_solver. Qed.

Lemma IsSubset_Done w set o A B :
  objects w !! set = Some A → objects w !! o = Some B →
  ∃ w', threadUnsafeSet_IsSubset set (PtrUnsafe o) w
        = Done (bool_decide (A ⊆ B)) w'
        ∧ objects w' = objects w ∧ mutex w' = mutex w ∧ trace w' = trace w.
Proof.
  intros HA HB. unfold threadUnsafeSet_IsSubset, Set_Cardinality. msimpl.
  rewrite (Cardinality_Done _ _ _ HA). msimpl.
  rewrite (Cardinality_Done _ _ _ HB). msimpl.
  destruct (decide (Z.of_nat (size A) > Z.of_nat (size B))) as [Hgt|Hle]; msimpl.
  - exists w. split; [|done]. f_equal. symmetry. apply bool_decide_eq_false_2.
    intros Hsub. apply subseteq_size in Hsub. lia.
  - rewrite (range_Done _ _ _ HA). msimpl.
    erewrite all_contained_Done by exact HB.
    eexists. split; [f_equal; apply bool_decide_ext, Forall_range_of|done].
Qed.

Lemma Equal_Done w set o A B :
  objects w !! set = Some A → objects w !! o = Some B →
  ∃ w', threadUnsafeSet_Equal set (PtrUnsafe o) w
        = Done (bool_decide (A = B)) w'
        ∧ objects w' = objects w ∧ mutex w' = mutex w ∧ trace w' = trace w.
Proof.
  intros HA HB. unfold threadUnsafeSet_Equal, Set_Cardinality. msimpl.
  rewrite (Cardinality_Done _ _ _ HA). msimpl.
  rewrite (Cardinality_Done _ _ _ HB). msimpl.
  destruct (decide (Z.of_nat (size A) ≠ Z.of_nat (size B))) as [Hne|Heq]; msimpl.
  - exists w. split; [|done]. f_equal. symmetry. apply bool_decide_eq_false_2.
    intros ->. lia.
  - rewrite (range_Done _ _ _ HA). msimpl.
    erewrite all_contained_Done by exact HB.
    eexists. split; [f_equal; apply bool_decide_ext|done].
    rewrite Forall_range_of. split.
    + intros Hsub. apply set_subseteq_size_eq; [done|]. lia.
    + by intros ->.
Qed.

Lemma IsProperSubset_Done w set o A B :
  objects w !! set = Some A → objects w !! o = Some B →
  ∃ w', threadUnsafeSet_IsProperSubset set (PtrUnsafe o) w
        = Done (bool_decide (A ⊂ B)) w'
        ∧ objects w' = objects w ∧ mutex w' = mutex w ∧ trace w' = trace w.
Proof.
  intros HA HB. unfold threadUnsafeSet_IsProperSubset. msimpl.
  destruct (IsSubset_Done w set o A B HA HB) as (w1 & -> & Ho1 & Hm1 & Ht1).
  msimpl. destruct (decide (A ⊆ B)) as [Hsub|Hsub].
  - rewrite bool_decide_eq_true_2 by done. msimpl.
    destruct (Equal_Done w1 set o A B) as (w2 & -> & Ho2 & Hm2 & Ht2);
      [by rewrite Ho1..|].
    msimpl. exists w2. split; [|split; [|split]; congruence].
    f_equal. rewrite <- bool_decide_not. apply bool_decide_ext.
    split; [intros Hne; split; [done|]; intros Hsub'; apply Hne; set_solver
           |intros [_ Hn] ->; by apply Hn].
  - rewrite bool_decide_eq_false_2 by done. msimpl.
    exists w1. split; [|done]. f_equal. symmetry. apply bool_decide_eq_false_2.
    by intros [? _].
Qed.

(** *** The five operations, uniformly *)

Lemma unsafe_binop_Done op w set o A B :
  objects w !! set = Some A → objects w !! o = Some B →
  ∃ q w', Set_binop op (PtrUnsafe set) (PtrUnsafe o) w = Done (PtrUnsafe q) w'
          ∧ allocates w (PtrUnsafe q) (denote op A B) w'
          ∧ trace w' = trace w.
Proof.
  intros HA HB. pose proof (new_loc_fresh w) as Hq.
  pose proof (new_loc_fresh_mutex w) as Hqm.
  assert (Hgen : ∀ w' R, objects w' = <[new_loc w := R]> (objects w) →
                         mutex w' = mutex w →
                         allocates w (PtrUnsafe (new_loc w)) R w').
  { intros w' R Ho Hm. split; [done|]. split; [done|]. simpl. rewrite Ho.
    split; [apply lookup_insert_eq|]. split; [by apply insert_subseteq|done]. }
  destruct op; cbn [Set_binop denote Set_Union Set_Intersect Set_Difference
                      Set_SymmetricDifference Set_CartesianProduct].
  - destruct (Union_Done w set o A B HA HB) as (w' & E & Ho & Hm & Ht).
    exists (new_loc w), w'. split; [done|]. split; [by apply Hgen|done].
  - destruct (Intersect_Done w set o A B HA HB) as (w' & E & Ho & Hm & Ht).
    exists (new_loc w), w'. split; [done|]. split; [by apply Hgen|done].
  - destruct (Difference_Done w set o A B HA HB) as (w' & E & Ho & Hm & Ht).
    exists (new_loc w), w'. split; [done|]. split; [by apply Hgen|done].
  - destruct (SymmetricDifference_Done w set o A B HA HB)
      as (q & w' & E & Hq' & Hqm' & HR & Hsub & Hm & Ht).
    exists q, w'. split; [done|]. split; [|done]. by repeat split.
  - destruct (CartesianProduct_Done w set o A B HA HB) as (w' & E & Ho & Hm & Ht).
    exists (new_loc w), w'. split; [done|]. split; [by apply Hgen|done].
Qed.

End Binary.

(** ** The guarded binary operations *)

Section Guarded.
Context {ro : RangeOrder}.

Lemma RLock_rlock w p : readable w p → RLock p w = Done () (rlock p w).
Proof.
  intros (m & Hm & Hw). unfold rlock. rewrite Hm. by apply RLock_Done.
Qed.

Lemma rlock_objects w p : objects (rlock p w) = objects w.
Proof. unfold rlock. by destruct (mutex w !! p). Qed.

Lemma rlock_tick w p : tick (rlock p w) = tick w.
Proof. unfold rlock. by destruct (mutex w !! p). Qed.

Lemma rlock_trace w p :
  readable w p → trace (rlock p w) = (trace w ++ [EvRLock p])%list.
Proof. intros (m & Hm & Hw). unfold rlock. by rewrite Hm. Qed.

Lemma rlock_mutex_ne w p q : p ≠ q → mutex (rlock p w) !! q = mutex w !! q.
Proof.
  intros Hne. unfold rlock. destruct (mutex w !! p); [|done].
  simpl. by rewrite lookup_insert_ne.
Qed.

Lemma rlock_mutex_eq w p m :
  mutex w !! p = Some m →
  mutex (rlock p w) !! p = Some (mkRWMutex (S (readers m)) false).
Proof. intros Hm. unfold rlock. rewrite Hm. simpl. apply lookup_insert_eq. Qed.

Lemma rlock_readable w p q : readable w q → readable (rlock p w) q.
Proof.
  intros (m & Hm & Hw). destruct (decide (p = q)) as [->|Hne].
  - eexists. split; [by apply rlock_mutex_eq|done].
  - exists m. by rewrite rlock_mutex_ne.
Qed.

Lemma rlock_is_Some w p q :
  is_Some (mutex w !! q) → is_Some (mutex (rlock p w) !! q).
Proof.
  intros [m Hm]. destruct (decide (p = q)) as [->|Hne].
  - erewrite rlock_mutex_eq; eauto.
  - rewrite rlock_mutex_ne; eauto.
Qed.

Lemma rlock_dom w p q : mutex w !! q = None → mutex (rlock p w) !! q = None.
Proof.
  intros Hq. destruct (decide (p = q)) as [->|Hne].
  - unfold rlock. by rewrite Hq.
  - by rewrite rlock_mutex_ne.
Qed.

(** A read-locked section whose body keeps the lock of [set] as it is. *)
Lemma RLock_around {A} (body : M A) w set a w' :
  readable w set →
  body (rlock set w) = Done a w' →
  mutex w' !! set = mutex (rlock set w) !! set →
  ∃ w'', (RLock set;; defer (RUnlock set) body) w = Done a w''
         ∧ objects w'' = objects w' ∧ tick w'' = tick w'
         ∧ trace w'' = (trace w' ++ [EvRUnlock set])%list
         ∧ mutex w'' !! set = mutex w !! set
         ∧ (∀ p, p ≠ set → mutex w'' !! p = mutex w' !! p).
Proof.
  intros Hr Hb Hm'. pose proof Hr as (m & Hm & Hw).
  msimpl. rewrite (RLock_rlock _ _ Hr). msimpl.
  unfold defer. rewrite Hb. unfold bind.
  rewrite (rlock_mutex_eq _ _ _ Hm) in Hm'.
  erewrite RUnlock_Done; [|exact Hm'|done].
  eexists. split; [reflexivity|]. simpl. repeat split.
  - rewrite lookup_insert_eq, Hm. destruct m; simpl in *; by subst.
  - intros p Hp. by rewrite lookup_insert_ne.
Qed.

(** The two nested read-locked sections of a binary operation. *)
Lemma RLock_around2 {A} (body : M A) w set o a w' :
  readable w set → readable w o →
  body (rlock o (rlock set w)) = Done a w' →
  (∀ p, is_Some (mutex w !! p) →
        mutex w' !! p = mutex (rlock o (rlock set w)) !! p) →
  ∃ w'', (RLock set;; defer (RUnlock set)
            (RLock o;; defer (RUnlock o) body)) w = Done a w''
         ∧ objects w'' = objects w' ∧ tick w'' = tick w'
         ∧ trace w'' = (trace w' ++ [EvRUnlock o; EvRUnlock set])%list
         ∧ (∀ p, is_Some (mutex w !! p) → mutex w'' !! p = mutex w !! p)
         ∧ (∀ p, mutex w !! p = None → mutex w'' !! p = mutex w' !! p).
Proof.
  intros Hs Ho Hb Hm'.
  assert (Hs' : is_Some (mutex w !! set)) by (destruct Hs as (? & -> & _); eauto).
  assert (Ho' : is_Some (mutex w !! o)) by (destruct Ho as (? & -> & _); eauto).
  destruct (RLock_around body (rlock set w) o a w') as (w1 & E1 & Ho1 & Ht1 & Htr1 & Hmo & Hmf);
    [by apply rlock_readable|done|by apply Hm'|].
  destruct (RLock_around (RLock o;; defer (RUnlock o) body) w set a w1)
    as (w2 & E2 & Ho2 & Ht2 & Htr2 & Hms & Hmf2); [done|done| |].
  { destruct (decide (set = o)) as [->|Hne]; [done|].
    rewrite Hmf by done. rewrite Hm' by done. by rewrite rlock_mutex_ne. }
  exists w2. split; [done|]. rewrite Ho2, Ht2, Htr2, Ho1, Ht1, Htr1.
  split; [done|]. split; [done|]. split; [by rewrite <- app_assoc|]. split.
  - intros p Hp. destruct (decide (p = set)) as [->|Hne]; [done|].
    rewrite Hmf2 by done. destruct (decide (p = o)) as [->|Hne'].
    + rewrite Hmo. by rewrite rlock_mutex_ne.
    + rewrite Hmf by done. rewrite Hm' by done. by rewrite !rlock_mutex_ne.
  - intros p Hp.
    assert (p ≠ set) by (intros ->; rewrite Hp in Hs'; by destruct Hs').
    assert (p ≠ o) by (intros ->; rewrite Hp in Ho'; by destruct Ho').
    rewrite Hmf2 by done. by rewrite Hmf.
Qed.

Lemma wrap_Done (op : loc → Set_ → M Set_) w set o R :
  (∃ q w1, op set (PtrUnsafe o) w = Done (PtrUnsafe q) w1
           ∧ allocates w (PtrUnsafe q) R w1 ∧ trace w1 = trace w) →
  ∃ q w', wrap op set o w = Done (PtrSafe q) w'
          ∧ objects w !! q = None ∧ mutex w !! q = None
          ∧ objects w' !! q = Some R ∧ objects w ⊆ objects w'
          ∧ mutex w' = <[q := mkRWMutex 0 false]> (mutex w)
          ∧ trace w' = trace w.
Proof.
  intros (q1 & w1 & E & (Hq1 & Hq1m & HR & Hsub & Hm1) & Ht1).
  simpl in Hq1, Hq1m, HR, Hm1.
  unfold wrap. msimpl. rewrite E. msimpl. unfold assert_threadUnsafeSet. msimpl.
  rewrite (load_Done _ _ _ HR). msimpl. unfold new_threadSafeSet. msimpl.
  pose proof (new_loc_fresh w1) as Hf. pose proof (new_loc_fresh_mutex w1) as Hfm.
  exists (new_loc w1). eexists. split; [reflexivity|]. simpl.
  split. { destruct (objects w !! new_loc w1) eqn:E'; [|done].
           eapply lookup_weaken in E'; [|exact Hsub]. congruence. }
  split. { by rewrite <- Hm1. }
  split. { apply lookup_insert_eq. }
  split. { etrans; [exact Hsub|]. by apply insert_subseteq. }
  split; [by rewrite Hm1|done].
Qed.

Lemma guarded_Done (op : loc → Set_ → M Set_) w set o R :
  readable w set → readable w o →
  (∃ q w1, op set (PtrUnsafe o) (rlock o (rlock set w)) = Done (PtrUnsafe q) w1
           ∧ allocates (rlock o (rlock set w)) (PtrUnsafe q) R w1
           ∧ trace w1 = trace (rlock o (rlock set w))) →
  ∃ q w', (RLock set;; defer (RUnlock set)
             (RLock o;; defer (RUnlock o) (wrap op set o))) w
          = Done (PtrSafe q) w'
          ∧ allocates w (PtrSafe q) R w'
          ∧ trace w' = (trace w ++ [EvRLock set; EvRLock o;
                                    EvRUnlock o; EvRUnlock set])%list.
Proof.
  intros Hs Ho Hop.
  destruct (wrap_Done op _ set o R Hop) as (q & w1 & E & Hq & Hqm & HR & Hsub & Hm & Ht).
  rewrite !rlock_objects in Hq, Hsub.
  assert (Hqm0 : mutex w !! q = None).
  { destruct (mutex w !! q) as [m|] eqn:E'; [|done].
    assert (is_Some (mutex (rlock o (rlock set w)) !! q)) as [? Hx].
    { do 2 apply rlock_is_Some. by rewrite E'. }
    congruence. }
  destruct (RLock_around2 (wrap op set o) w set o (PtrSafe q) w1)
    as (w2 & E2 & Ho2 & _ & Htr2 & Hmold & Hmnew); [done|done|done| |].
  { intros p Hp. rewrite Hm. rewrite lookup_insert_ne; [done|].
    intros ->. rewrite Hqm0 in Hp. by destruct Hp. }
  exists q, w2. split; [done|]. split.
  - split; [done|]. split; [done|]. rewrite Ho2. split; [done|]. split; [done|].
    apply map_eq. intros p. destruct (decide (p = q)) as [->|Hne].
    + rewrite lookup_insert_eq. rewrite Hmnew by done. rewrite Hm.
      apply lookup_insert_eq.
    + rewrite lookup_insert_ne by done.
      destruct (mutex w !! p) eqn:E'.
      * rewrite Hmold; [done|by rewrite E'].
      * rewrite Hmnew by done. rewrite Hm, lookup_insert_ne by done.
        by do 2 apply rlock_dom.
  - rewrite Htr2, Ht. rewrite rlock_trace by (by apply rlock_readable).
    rewrite rlock_trace by done. by rewrite <- !app_assoc.
Qed.

Lemma guarded_binop_Done op w set o A B :
  op ≠ CartesianProduct ∨ set = o →
  objects w !! set = Some A → objects w !! o = Some B →
  readable w set → readable w o →
  ∃ q w', Set_binop op (PtrSafe set) (PtrSafe o) w = Done (PtrSafe q) w'
          ∧ allocates w (PtrSafe q) (denote op A B) w'
          ∧ trace w' = (trace w ++ [EvRLock set; EvRLock o;
                                    EvRUnlock o; EvRUnlock set])%list.
Proof.
  intros Hop HA HB Hs Ho.
  assert (Hun : ∃ q w1, Set_binop op (PtrUnsafe set) (PtrUnsafe o)
                          (rlock o (rlock set w)) = Done (PtrUnsafe q) w1
                  ∧ allocates (rlock o (rlock set w)) (PtrUnsafe q) (denote op A B) w1
                  ∧ trace w1 = trace (rlock o (rlock set w))).
  { apply unsafe_binop_Done; by rewrite !rlock_objects. }
  destruct op.
  - exact (guarded_Done threadUnsafeSet_Union w set o _ Hs Ho Hun).
  - exact (guarded_Done threadUnsafeSet_Intersect w set o _ Hs Ho Hun).
  - exact (guarded_Done threadUnsafeSet_Difference w set o _ Hs Ho Hun).
  - exact (guarded_Done threadUnsafeSet_SymmetricDifference w set o _ Hs Ho Hun).
  - destruct Hop as [?| ->]; [done|].
    exact (guarded_Done threadUnsafeSet_CartesianProduct w o o _ Hs Ho Hun).
Qed.

(** [CartesianProduct] on two different guarded sets: both deferred calls
    unlock the receiver.  With no other reader on the receiver the second
    one is a runtime throw, and the read lock of the operand stays taken. *)
Lemma guarded_CartesianProduct_distinct w set o A B m :
  set ≠ o →
  objects w !! set = Some A → objects w !! o = Some B →
  mutex w !! set = Some (mkRWMutex 0 false) →
  mutex w !! o = Some m → writer m = false →
  ∃ q w', threadSafeSet_CartesianProduct set (PtrSafe o) w
          = Fatal "sync: RUnlock of unlocked RWMutex" w'
          ∧ objects w !! q = None ∧ mutex w !! q = None
          ∧ objects w' !! q = Some (pairs A B) ∧ objects w ⊆ objects w'
          ∧ mutex w' = <[q := mkRWMutex 0 false]>
                         (<[o := mkRWMutex (S (readers m)) false]> (mutex w))
          ∧ trace w' = (trace w ++ [EvRLock set; EvRLock o;
                                    EvRUnlock set; EvRUnlock set])%list.
Proof.
  intros Hne HA HB Hms Hmo Hwo.
  assert (Hs : readable w set) by (eexists; eauto).
  assert (Ho : readable w o) by (eexists; eauto).
  assert (Hun : ∃ q w1, threadUnsafeSet_CartesianProduct set (PtrUnsafe o)
                          (rlock o (rlock set w)) = Done (PtrUnsafe q) w1
                  ∧ allocates (rlock o (rlock set w)) (PtrUnsafe q) (pairs A B) w1
                  ∧ trace w1 = trace (rlock o (rlock set w))).
  { apply (unsafe_binop_Done CartesianProduct); by rewrite !rlock_objects. }
  destruct (wrap_Done threadUnsafeSet_CartesianProduct _ set o _ Hun)
    as (q & w1 & E & Hq & Hqm & HR & Hsub & Hm & Ht).
  rewrite !rlock_objects in Hq, Hsub.
  assert (Hqm0 : mutex w !! q = None).
  { destruct (mutex w !! q) as [m'|] eqn:E'; [|done].
    assert (is_Some (mutex (rlock o (rlock set w)) !! q)) as [? Hx].
    { do 2 apply rlock_is_Some. by rewrite E'. }
    congruence. }
  assert (q ≠ set) by congruence. assert (q ≠ o) by congruence.
  assert (Hmm : mutex (rlock o (rlock set w))
                = <[o := mkRWMutex (S (readers m)) false]>
                    (<[set := mkRWMutex 1 false]> (mutex w))).
  { unfold rlock at 2. rewrite Hms. unfold rlock. simpl.
    rewrite lookup_insert_ne by done. by rewrite Hmo. }
  exists q. unfold threadSafeSet_CartesianProduct, assert_threadSafeSet. msimpl.
  rewrite (RLock_rlock _ _ Hs). msimpl. unfold defer at 1. msimpl.
  rewrite (RLock_rlock _ _ (rlock_readable _ set _ Ho)). msimpl.
  unfold defer at 1. fold (wrap threadUnsafeSet_CartesianProduct set o).
  rewrite E. unfold bind at 1.
  erewrite RUnlock_Done;
    [|rewrite Hm, Hmm; rewrite lookup_insert_ne by done;
      rewrite lookup_insert_ne by done; apply lookup_insert_eq|reflexivity].
  unfold ret, bind. unfold RUnlock. simpl. rewrite lookup_insert_eq. simpl.
  eexists. split; [reflexivity|]. simpl.
  split; [done|]. split; [done|]. split; [done|]. split; [done|]. split.
  - rewrite Hm, Hmm. apply map_eq. intros p.
    destruct (decide (p = set)) as [->|?].
    { rewrite lookup_insert_eq. rewrite lookup_insert_ne by done.
      rewrite lookup_insert_ne by done. by rewrite Hms. }
    rewrite lookup_insert_ne by done.
    destruct (decide (p = q)) as [->|?]; [by rewrite !lookup_insert_eq|].
    rewrite !(lookup_insert_ne _ q) by done.
    destruct (decide (p = o)) as [->|?]; [by rewrite !lookup_insert_eq|].
    by rewrite !lookup_insert_ne by done.
  - rewrite Ht. rewrite rlock_trace by (by apply rlock_readable).
    rewrite rlock_trace by done. by rewrite <- !app_assoc.
Qed.

(** The guarded tests. *)
Lemma guarded_query_Done {A} (body : M A) w set o a :
  readable w set → readable w o →
  (∃ w1, body (rlock o (rlock set w)) = Done a w1
         ∧ objects w1 = objects w ∧ mutex w1 = mutex (rlock o (rlock set w))
         ∧ trace w1 = trace (rlock o (rlock set w))) →
  ∃ w', (RLock set;; defer (RUnlock set)
           (RLock o;; defer (RUnlock o) body)) w = Done a w'
        ∧ objects w' = objects w ∧ mutex w' = mutex w
        ∧ trace w' = (trace w ++ [EvRLock set; EvRLock o;
                                  EvRUnlock o; EvRUnlock set])%list.
Proof.
  intros Hs Ho (w1 & E & Ho1 & Hm1 & Ht1).
  destruct (RLock_around2 body w set o a w1)
    as (w2 & E2 & Ho2 & _ & Htr2 & Hmold & Hmnew);
    [done|done|done|by intros p _; rewrite Hm1|].
  exists w2. split; [done|]. split; [congruence|]. split.
  - apply map_eq. intros p. destruct (mutex w !! p) eqn:E'.
    + rewrite Hmold; [done|by rewrite E'].
    + rewrite Hmnew by done. rewrite Hm1. by do 2 apply rlock_dom.
  - rewrite Htr2, Ht1. rewrite rlock_trace by (by apply rlock_readable).
    rewrite rlock_trace by done. by rewrite <- !app_assoc.
Qed.

End Guarded.

(** ** The claims about Add and Pop *)

Lemma holds_after w w' r s s' :
  holds w r s →
  objects w' = <[table r := s']> (objects w) → mutex w' = mutex w →
  holds w' r s'.
Proof.
  intros [Hs Hm] Ho Hmx. split.
  - rewrite Ho. apply lookup_insert_eq.
  - destruct r; [done|]. by rewrite Hmx.
Qed.

(** C8. For a set holding exactly [s], unguarded or guarded, [Add(v)]
    returns true exactly when [v] was not in [s]; afterwards the set holds
    [s] with [v] added, [Contains(v)] answers true, and when [v] was already
    present no table in the store has changed. *)
Theorem Add_reports_new_membership (w : World) (r : Set_) (s : gset value)
    (v : value) :
  holds w r s →
  ∃ w', Set_Add r v w = Done (bool_decide (v ∉ s)) w'
        ∧ (bool_decide (v ∉ s) = true ↔ v ∉ s)
        ∧ holds w' r ({[v]} ∪ s)
        ∧ objects w' = <[table r := {[v]} ∪ s]> (objects w)
        ∧ (∃ w'', Set_Contains r [v] w' = Done true w'')
        ∧ (v ∈ s → bool_decide (v ∉ s) = false ∧ objects w' = objects w).
Proof.
  intros Hh. pose proof Hh as [Hs Hm].
  assert (Hpres : v ∈ s → bool_decide (v ∉ s) = false
                          ∧ <[table r := {[v]} ∪ s]> (objects w) = objects w).
  { intros Hin. split; [apply bool_decide_eq_false_2; tauto|].
    rewrite (subseteq_union_1_L {[v]} s) by (by apply singleton_subseteq_l).
    by apply insert_id. }
  assert (Hall : Forall (λ k, k ∈ {[v]} ∪ s) [v]).
  { constructor; [set_solver|constructor]. }
  destruct r as [p|p]; cbn [Set_Add Set_Contains table] in *.
  - exists (set_objects <[p := {[v]} ∪ s]> w). split; [by apply Add_Done|].
    split; [apply bool_decide_eq_true|].
    split; [by eapply holds_after|]. split; [done|]. split; [|done].
    eexists. erewrite Contains_Done by (simpl; apply lookup_insert_eq).
    by rewrite bool_decide_eq_true_2.
  - destruct (threadSafeSet_Add_Done w p s v Hs Hm) as (w' & E & Ho & Hmx & _).
    exists w'. split; [done|]. split; [apply bool_decide_eq_true|].
    split; [by eapply holds_after|]. split; [done|]. split.
    + edestruct (threadSafeSet_Contains_Done w' p ({[v]} ∪ s) (mkRWMutex 0 false) [v])
        as (w'' & E' & _); [rewrite Ho; apply lookup_insert_eq|by rewrite Hmx|done|].
      exists w''. rewrite E'. by rewrite bool_decide_eq_true_2.
    + intros Hin. rewrite Ho. by apply Hpres.
Qed.

Lemma Add_reports_new_membership_witness :
  holds sample_world (PtrSafe 2) {[Int 1; Str "a"]} ∧
  ∃ w', Set_Add (PtrSafe 2) (Int 7) sample_world
        = Done (bool_decide (Int 7 ∉ ({[Int 1; Str "a"]} : gset value))) w'
        ∧ (bool_decide (Int 7 ∉ ({[Int 1; Str "a"]} : gset value)) = true
           ↔ Int 7 ∉ ({[Int 1; Str "a"]} : gset value))
        ∧ holds w' (PtrSafe 2) ({[Int 7]} ∪ {[Int 1; Str "a"]})
        ∧ objects w' = <[2%positive := {[Int 7]} ∪ {[Int 1; Str "a"]}]> (objects sample_world)
        ∧ (∃ w'', Set_Contains (PtrSafe 2) [Int 7] w' = Done true w'')
        ∧ (Int 7 ∈ ({[Int 1; Str "a"]} : gset value) →
           bool_decide (Int 7 ∉ ({[Int 1; Str "a"]} : gset value)) = false
           ∧ objects w' = objects sample_world).
Proof.
  split; [split; reflexivity|].
  refine (Add_reports_new_membership sample_world (PtrSafe 2)
            {[Int 1; Str "a"]} (Int 7) _).
  split; reflexivity.
Defined.

Lemma size_remove_elem (s : gset value) (x : value) :
  x ∈ s → Z.of_nat (size (s ∖ {[x]})) = Z.of_nat (size s) - 1.
Proof.
  intros Hx. rewrite size_difference by (by apply singleton_subseteq_l).
  rewrite size_singleton.
  assert (size s ≠ 0%nat) by (apply size_non_empty_iff; set_solver).
  lia.
Qed.

Lemma threadSafeSet_Pop_Done {ro : RangeOrder} w set s item w1 :
  objects w !! set = Some s →
  mutex w !! set = Some (mkRWMutex 0 false) →
  threadUnsafeSet_Pop set w = Done item w1 →
  ∃ w', threadSafeSet_Pop set w = Done item w'
        ∧ objects w' = objects w1 ∧ mutex w' = mutex w.
Proof.
  intros Hs Hm E. unfold threadSafeSet_Pop.
  rewrite (Pop_Done _ _ _ Hs) in E.
  edestruct (Lock_section (threadUnsafeSet_Pop set) w set item
               (log (EvLock set) (set_mutex <[set := mkRWMutex 0 true]> w1)))
    as (w'' & -> & Ho & Hmx & _); [done| | |].
  - rewrite (Pop_Done _ _ s) by done. simpl.
    destruct (range_of (tick w) s); inversion E; by subst.
  - simpl. destruct (range_of (tick w) s); inversion E; by subst.
  - eexists. split; [reflexivity|]. by rewrite Ho, Hmx.
Qed.

(** C9. [Pop] on a set holding exactly [s], unguarded or guarded, under any
    traversal order: if [s] is empty it returns nil, the set stays empty and
    no table changes; otherwise it returns some element of [s], the set then
    holds [s] without that element, and the cardinality is one less.  The
    call always returns.  Which element comes out is up to the traversal
    order: every element of [s] is returned under some order. *)
Theorem Pop_removes_one_element (ro : RangeOrder) (w : World) (r : Set_)
    (s : gset value) :
  holds w r s →
  (∃ item w', Set_Pop r w = Done item w'
     ∧ (s = ∅ → item = Nil ∧ holds w' r ∅ ∧ objects w' = objects w)
     ∧ (s ≠ ∅ → item ∈ s ∧ holds w' r (s ∖ {[item]})
                ∧ objects w' = <[table r := s ∖ {[item]}]> (objects w)
                ∧ Z.of_nat (size (s ∖ {[item]})) = Z.of_nat (size s) - 1))
  ∧ (∀ x, x ∈ s → ∃ w', Set_Pop (ro := order_first x) r w = Done x w').
Proof.
  intros Hh. pose proof Hh as [Hs Hm]. split.
  - assert (∃ item, threadUnsafeSet_Pop (table r) w
                    = Done item (if decide (s = ∅) then set_tick S w
                                 else set_objects <[table r := s ∖ {[item]}]> (set_tick S w))
                    ∧ if decide (s = ∅) then item = Nil else item ∈ s)
      as (item & E & Hitem).
    { destruct (decide (s = ∅)) as [->|Hne].
      - exists Nil. by rewrite Pop_empty.
      - destruct (Pop_nonempty w _ s Hs Hne) as (item & Hin & E). by exists item. }
    assert (∃ w', Set_Pop r w = Done item w'
                  ∧ objects w' = (if decide (s = ∅) then objects w
                                  else <[table r := s ∖ {[item]}]> (objects w))
                  ∧ mutex w' = mutex w) as (w' & E' & Ho & Hmx).
    { destruct r as [p|p]; cbn [Set_Pop table] in *.
      - eexists. split; [exact E|]. by destruct (decide (s = ∅)).
      - destruct (threadSafeSet_Pop_Done w p s item _ Hs Hm E) as (w' & E' & Ho & Hmx).
        exists w'. split; [done|]. rewrite Ho. by destruct (decide (s = ∅)). }
    exists item, w'. split; [done|]. split.
    + intros ->. rewrite decide_True in Hitem by done. rewrite decide_True in Ho by done.
      split; [done|]. split; [|done]. split; [by rewrite Ho|].
      destruct r; [done|]. by rewrite Hmx.
    + intros Hne. rewrite decide_False in Hitem by done. rewrite decide_False in Ho by done.
      split; [done|]. split; [by eapply holds_after|]. split; [done|].
      by apply size_remove_elem.
  - intros x Hx. pose proof (Pop_first w _ s x Hs Hx) as E.
    destruct r as [p|p]; cbn [Set_Pop table] in *.
    + eexists. exact E.
    + destruct (threadSafeSet_Pop_Done (ro := order_first x) w p s x _ Hs Hm E)
        as (w' & E' & _). by exists w'.
Qed.

Lemma Pop_removes_one_element_witness :
  holds sample_world (PtrUnsafe 1) {[Int 1; Str "a"]} ∧
  ∃ w', Set_Pop (ro := order_first (Str "a")) (PtrUnsafe 1) sample_world
        = Done (Str "a") w'.
Proof.
  split; [split; reflexivity|].
  refine (proj2 (Pop_removes_one_element order_elements sample_world
                   (PtrUnsafe 1) {[Int 1; Str "a"]} _) (Str "a") _).
  - split; reflexivity.
  - set_solver.
Defined.

(** ** The claims about the binary operations *)

Lemma holds_readable w p s : holds w (PtrSafe p) s → readable w p.
Proof. intros [_ Hm]. eexists. eauto. Qed.

Lemma Set_Cardinality_Done w r s :
  holds w r s → ∃ w', Set_Cardinality r w = Done (Z.of_nat (size s)) w'.
Proof.
  intros [Hs Hm]. destruct r as [p|p]; cbn [Set_Cardinality table] in *.
  - exists w. by apply Cardinality_Done.
  - edestruct (threadSafeSet_Cardinality_Done w p s) as (w' & E & _); eauto.
Qed.

Lemma allocates_holds w r R w' : allocates w r R w' → holds w' r R.
Proof.
  intros (_ & _ & HR & _ & Hm). split; [done|]. destruct r; [done|].
  rewrite Hm. apply lookup_insert_eq.
Qed.

(** Every binary operation on two sets of one variant, except in the case
    [lock_slip], returns a new set of that variant with the intended
    elements, and changes nothing that existed. *)
Lemma Set_binop_Done (ro : RangeOrder) op w a b A B :
  same_variant a b → holds w a A → holds w b B → ¬ lock_slip op a b →
  ∃ r w', Set_binop op a b w = Done r w'
          ∧ same_variant a r ∧ allocates w r (denote op A B) w'.
Proof.
  intros Hv [HA HmA] [HB HmB] Hslip.
  destruct a as [p|p], b as [o|o]; try done; cbn [table] in *.
  - destruct (unsafe_binop_Done op w p o A B HA HB) as (q & w' & E & Hal & _).
    by exists (PtrUnsafe q), w'.
  - edestruct (guarded_binop_Done op w p o A B) as (q & w' & E & Hal & _);
      [|done|done|eexists; eauto|eexists; eauto|].
    { destruct (decide (op = CartesianProduct)) as [->|?]; [|by left].
      right. destruct (decide (p = o)); [done|]. exfalso. by apply Hslip. }
    by exists (PtrSafe q), w'.
Qed.

Lemma size_inclusion_exclusion (A B : gset value) :
  Z.of_nat (size (A ∪ B))
  = Z.of_nat (size A) + Z.of_nat (size B) - Z.of_nat (size (A ∩ B)).
Proof.
  rewrite size_union_alt, size_difference_alt.
  assert (size (B ∩ A) ≤ size B)%nat by (apply subseteq_size; set_solver).
  replace (A ∩ B) with (B ∩ A) by set_solver. lia.
Qed.

(** C5. For two sets of one variant holding [A] and [B], [Union] and
    [Intersect] return sets whose cardinalities, as [Cardinality] reports
    them, satisfy |A ∪ B| = |A| + |B| - |A ∩ B|. *)
Theorem union_cardinality_inclusion_exclusion (ro : RangeOrder) (w : World)
    (a b : Set_) (A B : gset value) :
  same_variant a b → holds w a A → holds w b B →
  ∃ u w1 i w2 cu ci ca cb,
    Set_Union a b w = Done u w1 ∧ holds w1 u (A ∪ B)
    ∧ Set_Intersect a b w = Done i w2 ∧ holds w2 i (A ∩ B)
    ∧ (∃ w', Set_Cardinality u w1 = Done cu w')
    ∧ (∃ w', Set_Cardinality i w2 = Done ci w')
    ∧ (∃ w', Set_Cardinality a w = Done ca w')
    ∧ (∃ w', Set_Cardinality b w = Done cb w')
    ∧ cu = ca + cb - ci.
Proof.
  intros Hv HA HB.
  destruct (Set_binop_Done ro Union w a b A B Hv HA HB) as (u & w1 & Eu & _ & Hu);
    [by intros [? _]|].
  destruct (Set_binop_Done ro Intersect w a b A B Hv HA HB) as (i & w2 & Ei & _ & Hi);
    [by intros [? _]|].
  apply allocates_holds in Hu, Hi. cbn [denote] in *.
  exists u, w1, i, w2, (Z.of_nat (size (A ∪ B))), (Z.of_nat (size (A ∩ B))),
    (Z.of_nat (size A)), (Z.of_nat (size B)).
  split; [exact Eu|]. split; [exact Hu|]. split; [exact Ei|]. split; [exact Hi|].
  split; [by apply Set_Cardinality_Done|]. split; [by apply Set_Cardinality_Done|].
  split; [by apply Set_Cardinality_Done|]. split; [by apply Set_Cardinality_Done|].
  apply size_inclusion_exclusion.
Qed.

Lemma union_cardinality_inclusion_exclusion_witness :
  same_variant (PtrSafe 2) (PtrSafe 4)
  ∧ holds sample_world (PtrSafe 2) {[Int 1; Str "a"]}
  ∧ holds sample_world (PtrSafe 4) ∅
  ∧ ∃ u w1, Set_Union (ro := order_elements) (PtrSafe 2) (PtrSafe 4) sample_world
            = Done u w1.
Proof.
  split; [exact I|]. split; [split; reflexivity|]. split; [split; reflexivity|].
  destruct (union_cardinality_inclusion_exclusion order_elements sample_world
              (PtrSafe 2) (PtrSafe 4) {[Int 1; Str "a"]} ∅ I
              (conj eq_refl eq_refl) (conj eq_refl eq_refl))
    as (u & w1 & _ & _ & _ & _ & _ & _ & E & _).
  exists u, w1. exact E.
Defined.

(** C7. Each of Union, Intersect, Difference, SymmetricDifference and
    CartesianProduct, called on two sets of one variant holding [A] and [B],
    leaves every table that existed before the call as it was, so both
    operands still hold [A] and [B], and allocates a set of the operands'
    variant at a location not in use before, hence different from both
    operands, holding the intended result.  The call returns that set in
    every case but one: the guarded CartesianProduct on two different sets,
    the case [lock_slip], ends in the runtime throw of the second release of
    the receiver's lock and returns nothing. *)
Theorem binary_operations_are_pure (ro : RangeOrder) (op : binop) (w : World)
    (a b : Set_) (A B : gset value) :
  same_variant a b → holds w a A → holds w b B →
  objects w ⊆ objects (final (Set_binop op a b w))
  ∧ objects (final (Set_binop op a b w)) !! table a = Some A
  ∧ objects (final (Set_binop op a b w)) !! table b = Some B
  ∧ (lock_slip op a b →
     Set_binop op a b w
     = Fatal "sync: RUnlock of unlocked RWMutex" (final (Set_binop op a b w)))
  ∧ ∃ r, same_variant a r
         ∧ objects w !! table r = None ∧ mutex w !! table r = None
         ∧ table r ≠ table a ∧ table r ≠ table b
         ∧ objects (final (Set_binop op a b w)) !! table r
           = Some (denote op A B)
         ∧ (¬ lock_slip op a b →
            Set_binop op a b w = Done r (final (Set_binop op a b w))).
Proof.
  intros Hv HA HB.
  assert (Hmain : (lock_slip op a b →
            Set_binop op a b w
            = Fatal "sync: RUnlock of unlocked RWMutex"
                (final (Set_binop op a b w)))
            ∧ ∃ r, objects w ⊆ objects (final (Set_binop op a b w))
            ∧ same_variant a r
            ∧ objects w !! table r = None ∧ mutex w !! table r = None
            ∧ objects (final (Set_binop op a b w)) !! table r
              = Some (denote op A B)
            ∧ (¬ lock_slip op a b →
               Set_binop op a b w = Done r (final (Set_binop op a b w)))).
  { destruct (decide (lock_slip op a b)) as [Hslip|Hslip].
    - destruct Hslip as [-> Hslip]. destruct a as [p|p]; [done|].
      destruct b as [o|o]; [done|]. destruct HA as [HA HmA]. destruct HB as [HB HmB].
      cbn [table] in *.
      destruct (guarded_CartesianProduct_distinct w p o A B _ Hslip HA HB HmA HmB eq_refl)
        as (q & w' & E & Hq & Hqm & HR & Hsub & _).
      cbn [Set_binop Set_CartesianProduct]. rewrite E. cbn [final].
      split; [done|].
      exists (PtrSafe q). cbn [denote table]. repeat split; try done.
      intros Hn. exfalso. by apply Hn.
    - destruct (Set_binop_Done ro op w a b A B Hv HA HB Hslip)
        as (r & w' & E & Hvr & Hq & Hqm & HR & Hsub & _).
      split; [done|].
      exists r. rewrite E. cbn [final]. by repeat split. }
  destruct Hmain as (Hfatal & r & Hsub & Hvr & Hq & Hqm & HR & Hret).
  destruct HA as [HA _], HB as [HB _].
  split; [done|]. split; [by eapply lookup_weaken|].
  split; [by eapply lookup_weaken|]. split; [done|].
  exists r. repeat split; try done; congruence.
Qed.

Lemma binary_operations_are_pure_witness :
  same_variant (PtrSafe 2) (PtrSafe 4)
  ∧ holds sample_world (PtrSafe 2) {[Int 1; Str "a"]}
  ∧ holds sample_world (PtrSafe 4) ∅
  ∧ objects (final (Set_binop (H := order_elements) CartesianProduct
                      (PtrSafe 2) (PtrSafe 4) sample_world)) !! 2%positive
    = Some {[Int 1; Str "a"]}
  ∧ Set_binop (H := order_elements) CartesianProduct (PtrSafe 2) (PtrSafe 4)
      sample_world
    = Fatal "sync: RUnlock of unlocked RWMutex"
        (final (Set_binop (H := order_elements) CartesianProduct
                  (PtrSafe 2) (PtrSafe 4) sample_world)).
Proof.
  split; [exact I|]. split; [split; reflexivity|]. split; [split; reflexivity|].
  destruct (binary_operations_are_pure order_elements CartesianProduct
              sample_world (PtrSafe 2) (PtrSafe 4) {[Int 1; Str "a"]} ∅ I
              (conj eq_refl eq_refl) (conj eq_refl eq_refl))
    as (_ & Ha & _ & Hfatal & _).
  split; [exact Ha|]. apply Hfatal. split; [reflexivity|discriminate].
Defined.

(** C3, at the inputs where it fails.  [CartesianProduct] on two different
    guarded sets whose locks nobody holds: the receiver's read lock is
    released twice, the second release being a runtime throw, and the
    operand's read lock, acquired once, is never released. *)
Theorem CartesianProduct_unlocks_receiver_twice (ro : RangeOrder) (w : World)
    (set o : loc) (A B : gset value) :
  set ≠ o → holds w (PtrSafe set) A → holds w (PtrSafe o) B →
  ∃ w', threadSafeSet_CartesianProduct set (PtrSafe o) w
        = Fatal "sync: RUnlock of unlocked RWMutex" w'
        ∧ mutex w' !! o = Some (mkRWMutex 1 false)
        ∧ mutex w' !! set = Some (mkRWMutex 0 false)
        ∧ trace w' = (trace w ++ [EvRLock set; EvRLock o;
                                  EvRUnlock set; EvRUnlock set])%list.
Proof.
  intros Hne [HA HmA] [HB HmB]. cbn [table] in *.
  destruct (guarded_CartesianProduct_distinct w set o A B _ Hne HA HB HmA HmB eq_refl)
    as (q & w' & E & Hq & Hqm & HR & Hsub & Hm & Ht).
  exists w'. split; [done|]. rewrite Hm.
  assert (q ≠ set) by congruence. assert (q ≠ o) by congruence.
  split; [|split; [|done]].
  - rewrite lookup_insert_ne by done. apply lookup_insert_eq.
  - rewrite lookup_insert_ne by done. by rewrite lookup_insert_ne.
Qed.

Lemma CartesianProduct_unlocks_receiver_twice_witness :
  (2 ≠ 4)%positive
  ∧ holds sample_world (PtrSafe 2) {[Int 1; Str "a"]}
  ∧ holds sample_world (PtrSafe 4) ∅
  ∧ ∃ w', threadSafeSet_CartesianProduct (ro := order_elements) 2 (PtrSafe 4)
            sample_world
          = Fatal "sync: RUnlock of unlocked RWMutex" w'
          ∧ mutex w' !! 4%positive = Some (mkRWMutex 1 false)
          ∧ mutex w' !! 2%positive = Some (mkRWMutex 0 false)
          ∧ trace w' = [EvRLock 2; EvRLock 4; EvRUnlock 2; EvRUnlock 2].
Proof.
  split; [discriminate|]. split; [split; reflexivity|].
  split; [split; reflexivity|].
  refine (CartesianProduct_unlocks_receiver_twice order_elements sample_world
            2 4 {[Int 1; Str "a"]} ∅ _ _ _).
  - discriminate.
  - split; reflexivity.
  - split; reflexivity.
Defined.

(** ** The locking discipline of the guarded binary operations *)

Section Locking.
Context {ro : RangeOrder}.

Lemma RUnlock_frame p w :
  objects (final (RUnlock p w)) = objects w
  ∧ trace w `prefix_of` trace (final (RUnlock p w)).
Proof.
  unfold RUnlock. destruct (mutex w !! p) as [m|]; [|done].
  destruct (readers m); simpl; (split; [done|by eexists]).
Qed.

Lemma defer_RUnlock_frame {A} (body : M A) p w :
  objects (final (defer (RUnlock p) body w)) = objects (final (body w))
  ∧ trace (final (body w)) `prefix_of` trace (final (defer (RUnlock p) body w)).
Proof.
  unfold defer. destruct (body w) as [a w1|msg w1|msg w1|w1]; simpl; try done.
  - destruct (RUnlock_frame p w1) as [Ho Ht]. unfold bind, ret.
    by destruct (RUnlock p w1) as [[] w2|msg w2|msg w2|w2].
  - destruct (RUnlock_frame p w1) as [Ho Ht]. unfold bind, panic.
    by destruct (RUnlock p w1) as [[] w2|msg' w2|msg' w2|w2].
Qed.

Lemma drop_result_final {A} (m : M A) w :
  final ((m;; mret ()) w) = final (m w).
Proof. msimpl. by destruct (m w). Qed.

Lemma shape_frame {A} (body : M A) w x y d a w3 :
  readable w x → readable w y →
  body (rlock y (rlock x w)) = Done a w3 →
  objects (final (shape x y d body w)) = objects w3
  ∧ trace w3 `prefix_of` trace (final (shape x y d body w)).
Proof.
  intros Hx Hy Hb. unfold shape. rewrite drop_result_final.
  rewrite bind_unfold, (RLock_rlock _ _ Hx).
  destruct (defer_RUnlock_frame
              (RLock y;; defer (RUnlock d) body) x (rlock x w)) as [Ho1 Ht1].
  rewrite Ho1. rewrite bind_unfold in Ht1 |- *.
  rewrite (RLock_rlock _ _ (rlock_readable _ x _ Hy)) in Ht1 |- *.
  destruct (defer_RUnlock_frame body d (rlock y (rlock x w))) as [Ho2 Ht2].
  rewrite Hb in Ho2, Ht2. simpl in Ho2, Ht2. split; [done|by etrans].
Qed.

Lemma shape_Done {A} (body : M A) w x y a w3 :
  readable w x → readable w y →
  body (rlock y (rlock x w)) = Done a w3 →
  trace w3 = trace (rlock y (rlock x w)) →
  (∀ p, is_Some (mutex w !! p) →
        mutex w3 !! p = mutex (rlock y (rlock x w)) !! p) →
  ∃ w', shape x y y body w = Done () w'
        ∧ trace w' = (trace w ++ [EvRLock x; EvRLock y;
                                  EvRUnlock y; EvRUnlock x])%list
        ∧ (∀ p, is_Some (mutex w !! p) → mutex w' !! p = mutex w !! p).
Proof.
  intros Hx Hy Hb Ht Hm.
  destruct (RLock_around2 body w x y a w3 Hx Hy Hb Hm)
    as (w' & E & _ & _ & Htr & Hmold & _).
  exists w'. unfold shape. rewrite bind_unfold, E. msimpl. split; [done|].
  split; [|done]. rewrite Htr, Ht.
  rewrite rlock_trace by (by apply rlock_readable).
  rewrite rlock_trace by done. by rewrite <- !app_assoc.
Qed.

Lemma locked_world w x y :
  readable w x → readable w y →
  (RLock x;; RLock y) w = Done () (rlock y (rlock x w))
  ∧ trace (rlock y (rlock x w)) = (trace w ++ [EvRLock x; EvRLock y])%list
  ∧ objects (rlock y (rlock x w)) = objects w
  ∧ ∀ p, p = x ∨ p = y →
         ∃ m, mutex (rlock y (rlock x w)) !! p = Some m ∧ (0 < readers m)%nat.
Proof.
  intros Hx Hy. split.
  { msimpl. rewrite (RLock_rlock _ _ Hx). msimpl.
    by rewrite (RLock_rlock _ _ (rlock_readable _ x _ Hy)). }
  split.
  { rewrite rlock_trace by (by apply rlock_readable).
    rewrite rlock_trace by done. by rewrite <- app_assoc. }
  split; [by rewrite !rlock_objects|].
  destruct Hx as (mx & Hmx & _).
  destruct (rlock_readable w x y Hy) as (my & Hmy & _).
  intros p [->| ->].
  - destruct (decide (y = x)) as [->|Hne].
    + eexists. split; [by apply rlock_mutex_eq|simpl; lia].
    + eexists. rewrite rlock_mutex_ne by done.
      split; [by apply rlock_mutex_eq|simpl; lia].
  - eexists. split; [by apply rlock_mutex_eq|simpl; lia].
Qed.

(** The combination logic of every operation returns, changes no lock that
    existed and performs no lock operation, whatever the lock state. *)
Lemma combination_Done op w x y A B :
  objects w !! x = Some A → objects w !! y = Some B →
  ∃ w3, combination op x y w = Done () w3
        ∧ trace w3 = trace w
        ∧ (∀ p, is_Some (mutex w !! p) → mutex w3 !! p = mutex w !! p).
Proof.
  intros HA HB.
  assert (Hwrap : ∀ bop (f : loc → Set_ → M Set_),
            (∀ w', f x (PtrUnsafe y) w' = Set_binop bop (PtrUnsafe x) (PtrUnsafe y) w') →
            ∃ w3, (wrap f x y;; mret ()) w = Done () w3 ∧ trace w3 = trace w
                  ∧ (∀ p, is_Some (mutex w !! p) → mutex w3 !! p = mutex w !! p)).
  { intros bop f Hf.
    destruct (wrap_Done f w x y (denote bop A B)) as (q & w3 & E & _ & Hqm & _ & _ & Hm & Ht).
    { rewrite Hf. by apply unsafe_binop_Done. }
    exists w3. msimpl. rewrite E. msimpl. split; [done|]. split; [done|].
    intros p Hp. rewrite Hm. apply lookup_insert_ne. intros ->.
    rewrite Hqm in Hp. by destruct Hp. }
  assert (Hquery : ∀ (f : M bool) b,
            (∃ w', f w = Done b w' ∧ objects w' = objects w
                   ∧ mutex w' = mutex w ∧ trace w' = trace w) →
            ∃ w3, (f;; mret ()) w = Done () w3 ∧ trace w3 = trace w
                  ∧ (∀ p, is_Some (mutex w !! p) → mutex w3 !! p = mutex w !! p)).
  { intros f b (w' & E & _ & Hm & Ht). exists w'. msimpl. rewrite E. msimpl.
    split; [done|]. split; [done|]. intros p _. by rewrite Hm. }
  destruct op; cbn [combination].
  - by apply (Hwrap Union).
  - by apply (Hwrap Intersect).
  - by apply (Hwrap Difference).
  - by apply (Hwrap SymmetricDifference).
  - by apply (Hwrap CartesianProduct).
  - eapply Hquery. by apply Equal_Done.
  - eapply Hquery. by apply IsSubset_Done.
  - eapply Hquery. by apply IsProperSubset_Done.
  - eapply Hquery. by apply IsSubset_Done.
  - eapply Hquery. by apply IsProperSubset_Done.
Qed.

Lemma locking_generic {A} (body : M A) (comb : M unit) w x y d :
  readable w x → readable w y →
  (∀ w', comb w' = (body;; mret ()) w') →
  (∃ w3, comb (rlock y (rlock x w)) = Done () w3
         ∧ trace w3 = trace (rlock y (rlock x w))
         ∧ (∀ p, is_Some (mutex w !! p) →
                 mutex w3 !! p = mutex (rlock y (rlock x w)) !! p)) →
  ∃ w3,
    (RLock x;; RLock y) w = Done () (rlock y (rlock x w))
    ∧ trace (rlock y (rlock x w)) = (trace w ++ [EvRLock x; EvRLock y])%list
    ∧ comb (rlock y (rlock x w)) = Done () w3
    ∧ trace w3 = trace (rlock y (rlock x w))
    ∧ (∀ p, p = x ∨ p = y →
            ∃ m, mutex (rlock y (rlock x w)) !! p = Some m
                 ∧ mutex w3 !! p = Some m ∧ (0 < readers m)%nat)
    ∧ trace (rlock y (rlock x w)) `prefix_of` trace (final (shape x y d body w))
    ∧ objects (final (shape x y d body w)) = objects w3
    ∧ (d = y →
       ∃ w', shape x y d body w = Done () w'
             ∧ trace w' = (trace w ++ [EvRLock x; EvRLock y;
                                       EvRUnlock y; EvRUnlock x])%list
             ∧ (∀ p, is_Some (mutex w !! p) → mutex w' !! p = mutex w !! p)).
Proof.
  intros Hx Hy Hcomb (w3 & E & Ht & Hm). exists w3.
  destruct (locked_world w x y Hx Hy) as (Hl & Hlt & _ & Hheld).
  assert (∃ a, body (rlock y (rlock x w)) = Done a w3) as [a Hb].
  { rewrite Hcomb in E. rewrite bind_unfold in E.
    destruct (body (rlock y (rlock x w))); inversion E; subst; eauto. }
  destruct (shape_frame body w x y d a w3 Hx Hy Hb) as [Hfo Hft].
  split; [done|]. split; [done|]. split; [done|]. split; [done|]. split.
  { intros p Hp. destruct (Hheld p Hp) as (m & Hmp & Hpos). exists m.
    split; [done|]. split; [|done]. rewrite Hm; [done|].
    destruct Hx as (mx & Hmx & _), Hy as (my & Hmy & _).
    destruct Hp as [->| ->]; eauto. }
  split; [by rewrite <- Ht|]. split; [done|].
  intros ->. by apply (shape_Done body w x y a w3).
Qed.

End Locking.




(** ** PowerSet *)

Section PowerSet.
Context {ro : RangeOrder}.

Lemma step_body_Done w u item k S U :
  objects w !! k = Some S → objects w !! u = Some U →
  ∃ w', step_body u item (Ptr (PtrUnsafe k)) w = Done () w'
        ∧ objects w' = <[u := {[Ptr (PtrUnsafe (new_loc w))]} ∪ U]>
                         (<[new_loc w := {[item]} ∪ S]> (objects w))
        ∧ mutex w' = mutex w ∧ trace w' = trace w.
Proof.
  intros Hk Hu. pose proof (new_loc_fresh w) as Hq.
  assert (new_loc w ≠ k) by congruence.
  assert (new_loc w ≠ u) by congruence.
  unfold step_body, var, type_name, assert_elem_threadUnsafeSet. msimpl.
  rewrite decide_True by done. msimpl.
  erewrite range_Done by (simpl; rewrite lookup_insert_ne by done; exact Hk).
  msimpl. erewrite for_each_Add by (simpl; apply lookup_insert_eq). msimpl.
  erewrite Add_Done by (simpl; apply lookup_insert_eq). msimpl.
  erewrite Add_Done
    by (simpl; rewrite !lookup_insert_ne by done; exact Hu).
  msimpl. eexists. split; [reflexivity|]. simpl. repeat split.
  rewrite !insert_insert_eq. rewrite range_of_to_set.
  replace ({[item]} ∪ (newThreadUnsafeSet ∪ S)) with ({[item]} ∪ S)
    by (unfold newThreadUnsafeSet; set_solver).
  done.
Qed.

Lemma inner_loop w u item l U :
  objects w !! u = Some U →
  Forall (λ v, ∃ p, v = Ptr (PtrUnsafe p) ∧ p ≠ u ∧ is_Some (objects w !! p)) l →
  ∃ w' N, for_each l (step_body u item) w = Done () w'
    ∧ objects w' !! u = Some (U ∪ N)
    ∧ (∀ p, p ≠ u → is_Some (objects w !! p) → objects w' !! p = objects w !! p)
    ∧ mutex w' = mutex w ∧ trace w' = trace w
    ∧ size N = length l
    ∧ (∀ v, v ∈ N → ∃ q, v = Ptr (PtrUnsafe q) ∧ objects w !! q = None
                         ∧ is_Some (objects w' !! q))
    ∧ set_omap (member_table w') N
      = list_to_set (C := gset (gset value))
          ((λ v, {[item]} ∪ default ∅ (member_table w v)) <$> l).
Proof.
  revert w U. induction l as [|v l IH]; intros w U Hu Hl.
  - exists w, ∅. cbn [for_each]. split; [done|].
    split; [by rewrite union_empty_r_L|]. split; [done|]. split; [done|].
    split; [done|]. split; [by rewrite size_empty|].
    split; [intros v Hv; set_solver|]. by rewrite set_omap_empty.
  - apply Forall_cons in Hl as [(k & -> & Hku & [S Hk]) Hl].
    destruct (step_body_Done w u item k S U Hk Hu) as (w1 & E1 & Ho1 & Hm1 & Ht1).
    pose proof (new_loc_fresh w) as Hq. set (p := new_loc w) in *.
    assert (p ≠ k) by congruence. assert (p ≠ u) by congruence.
    assert (Hold : ∀ p', p' ≠ u → is_Some (objects w !! p') →
                         objects w1 !! p' = objects w !! p').
    { intros p' Hp' [S' HS']. rewrite Ho1. rewrite lookup_insert_ne by done.
      rewrite lookup_insert_ne; [done|congruence]. }
    destruct (IH w1 ({[Ptr (PtrUnsafe p)]} ∪ U)) as
      (w' & N' & E & Hu' & Hframe & Hm & Ht & Hsize & Hnew & Hfam).
    { rewrite Ho1. apply lookup_insert_eq. }
    { eapply Forall_impl; [exact Hl|]. intros v (p' & -> & Hp'u & Hp').
      exists p'. split; [done|]. split; [done|]. by rewrite Hold. }
    assert (Hp1 : objects w1 !! p = Some ({[item]} ∪ S)).
    { rewrite Ho1. rewrite lookup_insert_ne by done. apply lookup_insert_eq. }
    exists w', ({[Ptr (PtrUnsafe p)]} ∪ N'). cbn [for_each]. msimpl.
    rewrite E1. msimpl. split; [done|].
    split. { rewrite Hu'. f_equal. set_solver. }
    split. { intros p' Hp'u Hp'. rewrite Hframe; [by apply Hold|done|].
             by rewrite Hold. }
    split; [congruence|]. split; [congruence|].
    assert (Hnotin : Ptr (PtrUnsafe p) ∉ N').
    { intros Hin. destruct (Hnew _ Hin) as (q & [= <-] & Hnone & _). congruence. }
    split. { rewrite size_union by set_solver. rewrite size_singleton, Hsize.
             simpl. done. }
    split.
    { intros v [->%elem_of_singleton|Hv]%elem_of_union.
      - exists p. split; [done|]. split; [done|].
        rewrite Hframe; [by rewrite Hp1|done|by rewrite Hp1].
      - destruct (Hnew v Hv) as (q & -> & Hnone & Hsome). exists q.
        split; [done|]. split; [|done].
        destruct (objects w !! q) as [S'|] eqn:E'; [|done].
        destruct (decide (q = u)) as [->|Hne]; [rewrite Ho1, lookup_insert_eq in Hnone; done|].
        rewrite Hold in Hnone; [congruence|done|by rewrite E']. }
    rewrite set_omap_union_L. cbn [fmap list_fmap list_to_set foldr].
    f_equal.
    + rewrite (set_omap_singleton_Some_L _ _ ({[item]} ∪ S)).
      * simpl. by rewrite Hk.
      * simpl. rewrite Hframe; [done|done|by rewrite Hp1].
    + rewrite Hfam. f_equal. apply Forall_fmap_ext.
      eapply Forall_impl; [exact Hl|]. intros v (p' & -> & Hp'u & Hp').
      simpl. by rewrite Hold.
Qed.

Lemma set_omap_ext_in {B} `{Countable B} (f g : value → option B) (X : gset value) :
  (∀ v, v ∈ X → f v = g v) → set_omap (D := gset B) f X = set_omap g X.
Proof.
  intros Hfg. apply set_eq. intros y. rewrite !elem_of_set_omap.
  split; intros (x & Hx & Hy); exists x; (split; [done|]);
    [by rewrite <- Hfg|by rewrite Hfg].
Qed.

Lemma PowerSet_step_Done w P item n F :
  Inv w P n F →
  ∃ P' w', PowerSet_step (PtrUnsafe P) item w = Done (PtrUnsafe P') w'
           ∧ Inv w' P' (S n) (F ∪ add_to_each item F)
           ∧ objects w ⊆ objects w' ∧ mutex w' = mutex w ∧ trace w' = trace w.
Proof.
  intros (T & HP & Hpts & Hsize & Hfam).
  pose proof (new_loc_fresh w) as Hu. set (u := new_loc w) in *.
  assert (HuP : u ≠ P) by congruence.
  set (w0 := set_tick S (set_objects <[u := newThreadUnsafeSet]> w)).
  assert (Hw0 : ∀ p, p ≠ u → objects w0 !! p = objects w !! p).
  { intros p Hp. simpl. by rewrite lookup_insert_ne. }
  assert (Hptr : ∀ v, v ∈ T → ∃ p, v = Ptr (PtrUnsafe p) ∧ p ≠ u
                         ∧ is_Some (objects w !! p)).
  { intros v Hv. destruct (Hpts v Hv) as (p & -> & [S' Hp]). exists p.
    split; [done|]. split; [congruence|eauto]. }
  destruct (inner_loop w0 u item (range_of (tick w) T) ∅)
    as (w1 & N & E1 & Hu1 & Hframe & Hm1 & Ht1 & HsizeN & Hnew & HfamN).
  { simpl. apply lookup_insert_eq. }
  { apply Forall_forall. intros v Hv%range_of_elem.
    destruct (Hptr v Hv) as (p & -> & Hpu & Hp). exists p.
    split; [done|]. split; [done|]. by rewrite Hw0. }
  rewrite union_empty_l_L in Hu1.
  assert (Hold : ∀ p, is_Some (objects w !! p) → objects w1 !! p = objects w !! p).
  { intros p [S' Hp]. assert (p ≠ u) by congruence.
    rewrite Hframe; [by apply Hw0|done|rewrite Hw0 by done; eauto]. }
  destruct (Union_Done w1 P u T N) as (w2 & E2 & Ho2 & Hm2 & Ht2);
    [rewrite Hold; eauto|done|].
  pose proof (new_loc_fresh w1) as HP'. set (P' := new_loc w1) in *.
  assert (Hw2 : ∀ p, is_Some (objects w1 !! p) → objects w2 !! p = objects w1 !! p).
  { intros p [S' Hp]. rewrite Ho2. apply lookup_insert_ne. congruence. }
  exists P', w2. split.
  { unfold PowerSet_step. msimpl. rewrite var_Done. msimpl.
    unfold Set_Iter, threadUnsafeSet_Iter.
    erewrite range_Done by (simpl; rewrite lookup_insert_ne by done; exact HP).
    msimpl. fold u. fold (step_body u item). wsimpl. fold w0. rewrite E1. msimpl.
    unfold Set_Union. exact E2. }
  split.
  { exists (T ∪ N). split; [rewrite Ho2; apply lookup_insert_eq|].
    assert (HmT : ∀ v, v ∈ T → member_table w2 v = member_table w v).
    { intros v Hv. destruct (Hptr v Hv) as (p & -> & Hpu & Hp). simpl.
      rewrite Hw2 by (rewrite Hold; eauto). by apply Hold. }
    assert (HmN : ∀ v, v ∈ N → member_table w2 v = member_table w1 v).
    { intros v Hv. destruct (Hnew v Hv) as (q & -> & _ & Hq). simpl.
      by apply Hw2. }
    split.
    { intros v [Hv|Hv]%elem_of_union.
      - destruct (Hptr v Hv) as (p & -> & Hpu & Hp). exists p. split; [done|].
        rewrite Hw2 by (rewrite Hold; eauto). rewrite Hold; eauto.
      - destruct (Hnew v Hv) as (q & -> & _ & Hq). exists q. split; [done|].
        by rewrite Hw2. }
    split.
    { rewrite size_union.
      - rewrite HsizeN, range_of_length, Hsize. simpl. lia.
      - intros v Hv1 Hv2. destruct (Hptr v Hv1) as (p & -> & Hpu & [S' Hp]).
        destruct (Hnew _ Hv2) as (q & [= <-] & Hnone & _).
        rewrite Hw0 in Hnone by done. congruence. }
    rewrite set_omap_union_L. f_equal.
    - rewrite (set_omap_ext_in _ (member_table w)) by done. exact Hfam.
    - rewrite (set_omap_ext_in _ (member_table w1)) by done. rewrite HfamN.
      rewrite <- Hfam. apply set_eq. intros X.
      rewrite elem_of_list_to_set, list_elem_of_fmap. unfold add_to_each.
      rewrite elem_of_map. setoid_rewrite elem_of_set_omap.
      setoid_rewrite range_of_elem. split.
      + intros (v & -> & Hv). destruct (Hptr v Hv) as (p & -> & Hpu & [S' Hp]).
        exists S'. simpl. rewrite lookup_insert_ne by done. rewrite Hp.
        split; [done|]. exists (Ptr (PtrUnsafe p)). by split.
      + intros (Y & -> & v & Hv & HY). exists v. split; [|done].
        destruct (Hptr v Hv) as (p & -> & Hpu & Hp). simpl in *.
        rewrite lookup_insert_ne by done. by rewrite HY. }
  split.
  { apply map_subseteq_spec. intros p S' Hp.
    rewrite Hw2 by (rewrite Hold; eauto). rewrite Hold; eauto. }
  split; [by rewrite Hm2, Hm1|]. by rewrite Ht2, Ht1.
Qed.

Lemma PowerSet_loop_Done w P items n F :
  Inv w P n F →
  ∃ P' w', PowerSet_loop (PtrUnsafe P) items w = Done (PtrUnsafe P') w'
           ∧ Inv w' P' (n + length items)
               (foldl (λ acc e, acc ∪ add_to_each e acc) F items)
           ∧ objects w ⊆ objects w' ∧ mutex w' = mutex w ∧ trace w' = trace w.
Proof.
  revert w P n F. induction items as [|item items IH]; intros w P n F HI.
  - exists P, w. cbn [PowerSet_loop foldl length]. rewrite Nat.add_0_r. done.
  - destruct (PowerSet_step_Done w P item n F HI) as (P1 & w1 & E1 & HI1 & Hs1 & Hm1 & Ht1).
    destruct (IH w1 P1 (S n) _ HI1) as (P' & w' & E & HI' & Hs & Hm & Ht).
    exists P', w'. cbn [PowerSet_loop foldl length]. msimpl. rewrite E1. msimpl.
    split; [done|]. rewrite Nat.add_succ_r. split; [done|].
    split; [by etrans|]. split; congruence.
Qed.

Lemma unsafe_PowerSet_Done w set A :
  objects w !! set = Some A →
  ∃ P w', threadUnsafeSet_PowerSet set w = Done (PtrUnsafe P) w'
          ∧ Inv w' P (size A) (PowerSet_spec (range_of (tick w) A))
          ∧ objects w ⊆ objects w' ∧ mutex w' = mutex w ∧ trace w' = trace w.
Proof.
  intros HA. pose proof (new_loc_fresh w) as HP. set (P := new_loc w) in *.
  set (w1 := set_objects <[P := newThreadUnsafeSet]> w).
  pose proof (new_loc_fresh w1) as Hn. set (n := new_loc w1) in *.
  assert (P ≠ set) by congruence.
  assert (HnP : n ≠ P) by (intros E; rewrite E in Hn; simpl in Hn;
                           by rewrite lookup_insert_eq in Hn).
  assert (n ≠ set).
  { intros E. rewrite E in Hn. simpl in Hn. rewrite lookup_insert_ne in Hn by done.
    congruence. }
  set (w3 := set_tick S (set_objects <[P := {[Ptr (PtrUnsafe n)]} ∪ newThreadUnsafeSet]>
                           (set_objects <[n := newThreadUnsafeSet]> w1))).
  destruct (PowerSet_loop_Done w3 P (range_of (tick w) A) 0 {[∅]})
    as (P' & w' & E & HI & Hs & Hm & Ht).
  { exists {[Ptr (PtrUnsafe n)]}. split.
    { simpl. rewrite lookup_insert_eq. f_equal. unfold newThreadUnsafeSet. set_solver. }
    split.
    { intros v ->%elem_of_singleton. exists n. split; [done|]. simpl.
      rewrite lookup_insert_ne by done. rewrite lookup_insert_eq. eauto. }
    split; [by rewrite size_singleton|].
    apply set_omap_singleton_Some_L. simpl.
    rewrite lookup_insert_ne by done. by rewrite lookup_insert_eq. }
  exists P', w'. split.
  { unfold threadUnsafeSet_PowerSet, NewThreadUnsafeSet. msimpl.
    rewrite var_Done. msimpl. fold P. fold w1. rewrite var_Done. msimpl.
    unfold Set_Add. fold n.
    erewrite Add_Done by (simpl; rewrite lookup_insert_ne by done; apply lookup_insert_eq).
    msimpl.
    erewrite range_Done
      by (simpl; rewrite !lookup_insert_ne by done; exact HA).
    msimpl. wsimpl. exact E. }
  rewrite range_of_length in HI. split; [exact HI|].
  split; [|done].
  etrans; [|exact Hs]. apply map_subseteq_spec. intros p S' Hp. simpl.
  assert (p ≠ P) by congruence.
  assert (p ≠ n).
  { intros ->. simpl in Hn. rewrite lookup_insert_ne in Hn by done. congruence. }
  by rewrite !lookup_insert_ne by done.
Qed.

Lemma wrap_body_Done w tss k S U :
  objects w !! k = Some S → objects w !! tss = Some U →
  mutex w !! tss = Some (mkRWMutex 0 false) →
  ∃ w', wrap_body tss (Ptr (PtrUnsafe k)) w = Done () w'
        ∧ objects w' = <[tss := {[Ptr (PtrSafe (new_loc w))]} ∪ U]>
                         (<[new_loc w := S]> (objects w))
        ∧ mutex w' = <[new_loc w := mkRWMutex 0 false]> (mutex w).
Proof.
  intros Hk Hu Hm. pose proof (new_loc_fresh w) as Hq.
  pose proof (new_loc_fresh_mutex w) as Hqm.
  assert (new_loc w ≠ tss) by congruence.
  unfold wrap_body, assert_elem_threadUnsafeSet. msimpl.
  rewrite (load_Done _ _ _ Hk). msimpl. unfold new_threadSafeSet. msimpl.
  edestruct (threadSafeSet_Add_Done
               (set_mutex <[new_loc w := mkRWMutex 0 false]>
                  (set_objects <[new_loc w := S]> w)) tss U
               (Ptr (PtrSafe (new_loc w))))
    as (w' & E & Ho & Hm' & _);
    [simpl; by rewrite lookup_insert_ne|simpl; by rewrite lookup_insert_ne|].
  rewrite E. msimpl. exists w'. split; [done|]. by rewrite Ho, Hm'.
Qed.

Lemma wrap_loop w tss l U :
  objects w !! tss = Some U →
  mutex w !! tss = Some (mkRWMutex 0 false) →
  Forall (λ v, ∃ p, v = Ptr (PtrUnsafe p) ∧ p ≠ tss ∧ is_Some (objects w !! p)) l →
  ∃ w' N, for_each l (wrap_body tss) w = Done () w'
    ∧ objects w' !! tss = Some (U ∪ N)
    ∧ (∀ p, p ≠ tss → is_Some (objects w !! p) → objects w' !! p = objects w !! p)
    ∧ (∀ p, is_Some (mutex w !! p) → mutex w' !! p = mutex w !! p)
    ∧ size N = length l
    ∧ (∀ v, v ∈ N → ∃ q, v = Ptr (PtrSafe q) ∧ objects w !! q = None
                         ∧ is_Some (objects w' !! q)
                         ∧ mutex w' !! q = Some (mkRWMutex 0 false))
    ∧ set_omap (member_table w') N
      = list_to_set (C := gset (gset value))
          ((λ v, default ∅ (member_table w v)) <$> l).
Proof.
  revert w U. induction l as [|v l IH]; intros w U Hu Hmt Hl.
  - exists w, ∅. cbn [for_each]. split; [done|].
    split; [by rewrite union_empty_r_L|]. split; [done|]. split; [done|].
    split; [by rewrite size_empty|].
    split; [intros v Hv; set_solver|]. by rewrite set_omap_empty.
  - apply Forall_cons in Hl as [(k & -> & Hku & [S Hk]) Hl].
    destruct (wrap_body_Done w tss k S U Hk Hu Hmt) as (w1 & E1 & Ho1 & Hm1).
    pose proof (new_loc_fresh w) as Hq. pose proof (new_loc_fresh_mutex w) as Hqm.
    set (q := new_loc w) in *.
    assert (q ≠ k) by congruence. assert (q ≠ tss) by congruence.
    assert (Hold : ∀ p', p' ≠ tss → is_Some (objects w !! p') →
                         objects w1 !! p' = objects w !! p').
    { intros p' Hp' [S' HS']. rewrite Ho1. rewrite lookup_insert_ne by done.
      rewrite lookup_insert_ne; [done|congruence]. }
    assert (Holdm : ∀ p', is_Some (mutex w !! p') → mutex w1 !! p' = mutex w !! p').
    { intros p' [m' Hm']. rewrite Hm1. rewrite lookup_insert_ne; [done|congruence]. }
    destruct (IH w1 ({[Ptr (PtrSafe q)]} ∪ U)) as
      (w' & N' & E & Hu' & Hframe & Hframem & Hsize & Hnew & Hfam).
    { rewrite Ho1. apply lookup_insert_eq. }
    { rewrite Holdm; [done|eauto]. }
    { eapply Forall_impl; [exact Hl|]. intros v (p' & -> & Hp'u & Hp').
      exists p'. split; [done|]. split; [done|]. by rewrite Hold. }
    assert (Hq1 : objects w1 !! q = Some S).
    { rewrite Ho1. rewrite lookup_insert_ne by done. apply lookup_insert_eq. }
    assert (Hqm1 : mutex w1 !! q = Some (mkRWMutex 0 false)).
    { rewrite Hm1. apply lookup_insert_eq. }
    exists w', ({[Ptr (PtrSafe q)]} ∪ N'). cbn [for_each]. msimpl.
    rewrite E1. msimpl. split; [done|].
    split. { rewrite Hu'. f_equal. set_solver. }
    split. { intros p' Hp'u Hp'. rewrite Hframe; [by apply Hold|done|].
             by rewrite Hold. }
    split. { intros p' Hp'. rewrite Hframem; [by apply Holdm|].
             by rewrite Holdm. }
    assert (Hnotin : Ptr (PtrSafe q) ∉ N').
    { intros Hin. destruct (Hnew _ Hin) as (q' & [= <-] & Hnone & _). congruence. }
    split. { rewrite size_union by set_solver. rewrite size_singleton, Hsize.
             simpl. done. }
    split.
    { intros v [->%elem_of_singleton|Hv]%elem_of_union.
      - exists q. split; [done|]. split; [done|].
        split; [rewrite Hframe; [by rewrite Hq1|done|by rewrite Hq1]|].
        rewrite Hframem; [done|by rewrite Hqm1].
      - destruct (Hnew v Hv) as (q' & -> & Hnone & Hsome & Hfree). exists q'.
        split; [done|]. split; [|done].
        destruct (objects w !! q') as [S'|] eqn:E'; [|done].
        destruct (decide (q' = tss)) as [->|Hne];
          [rewrite Ho1, lookup_insert_eq in Hnone; done|].
        rewrite Hold in Hnone; [congruence|done|by rewrite E']. }
    rewrite set_omap_union_L. cbn [fmap list_fmap list_to_set foldr].
    f_equal.
    + rewrite (set_omap_singleton_Some_L _ _ S).
      * simpl. by rewrite Hk.
      * simpl. rewrite Hframe; [done|done|by rewrite Hq1].
    + rewrite Hfam. f_equal. apply Forall_fmap_ext.
      eapply Forall_impl; [exact Hl|]. intros v (p' & -> & Hp'u & Hp').
      simpl. by rewrite Hold.
Qed.

Lemma safe_PowerSet_Done w set A :
  holds w (PtrSafe set) A →
  ∃ tss w' T, threadSafeSet_PowerSet set w = Done (PtrSafe tss) w'
    ∧ holds w' (PtrSafe tss) T
    ∧ size T = (2 ^ size A)%nat
    ∧ (∀ v, v ∈ T → ∃ q S, v = Ptr (PtrSafe q) ∧ holds w' (PtrSafe q) S)
    ∧ family w' (PtrSafe tss) = PowerSet_spec (range_of (tick w) A)
    ∧ objects w ⊆ objects w'.
Proof.
  intros [HA Hm]. cbn [table] in *.
  assert (Hr : readable w set) by (eexists; eauto).
  destruct (unsafe_PowerSet_Done (rlock set w) set A) as
    (P & w1 & E1 & (T & HP & Hpts & HsizeT & HfamT) & Hsub1 & Hm1 & Ht1);
    [by rewrite rlock_objects|].
  rewrite rlock_objects in Hsub1. rewrite rlock_tick in HfamT.
  set (w2 := log (EvRUnlock set) (set_mutex <[set := mkRWMutex 0 false]> w1)).
  assert (Hm2 : mutex w2 = mutex w).
  { simpl. rewrite Hm1. unfold rlock. rewrite Hm. simpl.
    rewrite insert_insert_eq. by apply insert_id. }
  pose proof (new_loc_fresh w2) as Htss. pose proof (new_loc_fresh_mutex w2) as Htssm.
  set (tss := new_loc w2) in *.
  set (w3 := set_tick S (set_mutex <[tss := mkRWMutex 0 false]>
                           (set_objects <[tss := newThreadUnsafeSet]> w2))).
  assert (HtssP : tss ≠ P) by (intros E; rewrite E in Htss; simpl in Htss; congruence).
  assert (Hw3 : ∀ p, p ≠ tss → objects w3 !! p = objects w1 !! p).
  { intros p Hp. simpl. by rewrite lookup_insert_ne. }
  assert (Hptr : ∀ v, v ∈ T → ∃ p, v = Ptr (PtrUnsafe p) ∧ p ≠ tss
                         ∧ is_Some (objects w1 !! p)).
  { intros v Hv. destruct (Hpts v Hv) as (p & -> & [S' Hp]). exists p.
    split; [done|]. split; [|eauto]. intros ->. simpl in Htss. congruence. }
  destruct (wrap_loop w3 tss (range_of (tick w1) T) ∅)
    as (w' & N & E & Hu & Hframe & Hframem & HsizeN & Hnew & HfamN).
  { simpl. apply lookup_insert_eq. }
  { simpl. apply lookup_insert_eq. }
  { apply Forall_forall. intros v Hv%range_of_elem.
    destruct (Hptr v Hv) as (p & -> & Hpu & Hp). exists p.
    split; [done|]. split; [done|]. by rewrite Hw3. }
  rewrite union_empty_l_L in Hu.
  exists tss, w', N. split.
  { unfold threadSafeSet_PowerSet. msimpl. rewrite (RLock_rlock _ _ Hr). msimpl.
    rewrite E1. msimpl. unfold assert_threadUnsafeSet. msimpl.
    erewrite RUnlock_Done;
      [|rewrite Hm1; by apply rlock_mutex_eq|reflexivity].
    msimpl. cbn [readers writer]. fold w2. rewrite new_threadSafeSet_Done.
    msimpl. fold tss. unfold threadUnsafeSet_Iter.
    erewrite range_Done by (simpl; rewrite lookup_insert_ne by done; exact HP).
    msimpl. fold (wrap_body tss).
    match goal with |- context [range_of ?t T] => change t with (tick w1) end.
    fold w3. rewrite E. by msimpl. }
  split.
  { split; [done|]. rewrite Hframem; [simpl; apply lookup_insert_eq|].
    simpl. rewrite lookup_insert_eq. eauto. }
  split. { by rewrite HsizeN, range_of_length. }
  split.
  { intros v Hv. destruct (Hnew v Hv) as (q & -> & _ & [S' HS'] & Hfree).
    exists q, S'. by repeat split. }
  split.
  { unfold family. cbn [table]. rewrite Hu, HfamN, <- HfamT.
    apply set_eq. intros X.
    rewrite elem_of_list_to_set, list_elem_of_fmap.
    setoid_rewrite elem_of_set_omap. setoid_rewrite range_of_elem. split.
    - intros (v & -> & Hv). exists v. split; [done|].
      destruct (Hptr v Hv) as (p & -> & Hpu & [S' Hp]). simpl.
      rewrite lookup_insert_ne by done. by rewrite Hp.
    - intros (v & Hv & HX). exists v. split; [|done].
      destruct (Hptr v Hv) as (p & -> & Hpu & Hp). simpl in *.
      rewrite lookup_insert_ne by done. by rewrite HX. }
  apply map_subseteq_spec. intros p S' Hp.
  assert (Hp1 : objects w1 !! p = Some S') by (by eapply lookup_weaken).
  assert (p ≠ tss) by (intros ->; simpl in Htss; congruence).
  rewrite Hframe; [by rewrite Hw3|done|rewrite Hw3 by done; eauto].
Qed.

End PowerSet.

Lemma elem_of_PowerSet_fold items (F : gset (gset value)) X :
  X ∈ foldl (λ acc e, acc ∪ add_to_each e acc) F items
  ↔ ∃ Y Z, Y ∈ F ∧ Z ⊆ list_to_set items ∧ X = Y ∪ Z.
Proof.
  revert F. induction items as [|e items IH]; intros F; cbn [foldl list_to_set foldr].
  - split.
    + intros HX. exists X, ∅. split; [done|]. split; [done|]. set_solver.
    + intros (Y & Z & HY & HZ & ->). replace (Y ∪ Z) with Y by set_solver. done.
  - rewrite IH. unfold add_to_each. split.
    + intros (Y & Z & HY & HZ & ->).
      apply elem_of_union in HY as [HY|HY].
      * exists Y, Z. split; [done|]. split; [set_solver|done].
      * apply elem_of_map in HY as (Y' & -> & HY').
        exists Y', ({[e]} ∪ Z). split; [done|]. split; [set_solver|set_solver].
    + intros (Y & Z & HY & HZ & ->).
      destruct (decide (e ∈ Z)) as [He|He].
      * exists ({[e]} ∪ Y), (Z ∖ {[e]}). split.
        { apply elem_of_union. right. apply elem_of_map. eauto. }
        split; [set_solver|].
        apply set_eq. intros x. rewrite !elem_of_union, elem_of_difference,
          elem_of_singleton. destruct (decide (x = e)); naive_solver.
      * exists Y, Z. split; [set_solver|]. split; [set_solver|done].
Qed.

Lemma elem_of_PowerSet_spec items X :
  X ∈ PowerSet_spec items ↔ X ⊆ list_to_set items.
Proof.
  unfold PowerSet_spec. rewrite elem_of_PowerSet_fold. split.
  - intros (Y & Z & ->%elem_of_singleton & HZ & ->). set_solver.
  - intros HX. exists ∅, X. split; [set_solver|]. split; [done|set_solver].
Qed.

(** C4. [PowerSet] on a set holding exactly [A], unguarded or guarded,
    returns a set of the same variant with exactly 2^|A| elements, each a
    pointer to a set of that variant.  The family of the tables they point to
    is the one the stated algorithm builds, run over the elements of [A] in
    the order of the traversal; it consists of exactly the subsets of [A], so
    it contains the empty set and [A] itself.  Nothing that existed before
    the call is changed. *)
Theorem PowerSet_has_all_subsets (ro : RangeOrder) (w : World) (r : Set_)
    (A : gset value) :
  holds w r A →
  ∃ ps w' T, Set_PowerSet r w = Done ps w'
    ∧ same_variant r ps ∧ holds w' ps T
    ∧ Z.of_nat (size T) = 2 ^ Z.of_nat (size A)
    ∧ (∀ v, v ∈ T → ∃ s S, v = Ptr s ∧ same_variant r s ∧ holds w' s S)
    ∧ family w' ps = PowerSet_spec (range_of (tick w) A)
    ∧ (∀ X, X ∈ family w' ps ↔ X ⊆ A)
    ∧ ∅ ∈ family w' ps ∧ A ∈ family w' ps
    ∧ objects w ⊆ objects w'.
Proof.
  intros Hh.
  assert (Hmain : ∃ ps w' T, Set_PowerSet r w = Done ps w'
            ∧ same_variant r ps ∧ holds w' ps T
            ∧ size T = (2 ^ size A)%nat
            ∧ (∀ v, v ∈ T → ∃ s S, v = Ptr s ∧ same_variant r s ∧ holds w' s S)
            ∧ family w' ps = PowerSet_spec (range_of (tick w) A)
            ∧ objects w ⊆ objects w').
  { destruct r as [p|p]; cbn [Set_PowerSet].
    - destruct Hh as [HA _]. cbn [table] in HA.
      destruct (unsafe_PowerSet_Done w p A HA)
        as (P & w' & E & (T & HP & Hpts & Hsize & Hfam) & Hsub & _).
      exists (PtrUnsafe P), w', T. split; [done|]. split; [done|].
      split; [by split|]. split; [done|]. split.
      { intros v Hv. destruct (Hpts v Hv) as (q & -> & [S' Hq]).
        exists (PtrUnsafe q), S'. by repeat split. }
      split; [|done]. unfold family. cbn [table]. by rewrite HP.
    - destruct (safe_PowerSet_Done w p A Hh)
        as (tss & w' & T & E & Hholds & Hsize & Hmem & Hfam & Hsub).
      exists (PtrSafe tss), w', T. split; [done|]. split; [done|].
      split; [done|]. split; [done|]. split; [|done].
      intros v Hv. destruct (Hmem v Hv) as (q & S' & -> & Hq).
      by exists (PtrSafe q), S'. }
  destruct Hmain as (ps & w' & T & E & Hv & Hholds & Hsize & Hmem & Hfam & Hsub).
  exists ps, w', T. split; [done|]. split; [done|]. split; [done|].
  split. { rewrite Hsize, Nat2Z.inj_pow. done. }
  split; [done|]. split; [done|].
  assert (Hall : ∀ X, X ∈ family w' ps ↔ X ⊆ A).
  { intros X. rewrite Hfam, elem_of_PowerSet_spec. by rewrite range_of_to_set. }
  split; [done|]. split; [by apply Hall|]. split; [by apply Hall|done].
Qed.

Lemma PowerSet_has_all_subsets_witness :
  holds sample_world (PtrSafe 2) {[Int 1; Str "a"]}
  ∧ ∃ ps w' T, Set_PowerSet (ro := order_elements) (PtrSafe 2) sample_world
               = Done ps w'
      ∧ holds w' ps T
      ∧ Z.of_nat (size T) = 2 ^ Z.of_nat (size ({[Int 1; Str "a"]} : gset value)).
Proof.
  split; [split; reflexivity|].
  destruct (PowerSet_has_all_subsets order_elements sample_world (PtrSafe 2)
              {[Int 1; Str "a"]} (conj eq_refl eq_refl))
    as (ps & w' & T & E & _ & Hh & Hsize & _).
  exists ps, w', T. split; [exact E|]. split; [exact Hh|exact Hsize].
Defined.

(** ** UnmarshalJSON *)

Lemma unmarshal_loop w set s i :
  objects w !! set = Some s →
  for_each i (λ v,
    match v with
    | JArray _ | JObject _ => mret ()
    | t => threadUnsafeSet_Add set (scalar t);; mret ()
    end) w
  = Done () (set_objects <[set := s ∪ decoded_scalars i]> w).
Proof.
  unfold decoded_scalars. revert w s.
  induction i as [|v i IH]; intros w s Hs; cbn [for_each omap list_omap].
  - cbn [list_to_set foldr]. rewrite union_empty_r_L. by rewrite set_objects_id.
  - destruct v; cbn [entry scalar list_to_set foldr]; msimpl;
      try (by apply IH);
      (rewrite (Add_Done _ _ _ _ Hs); msimpl;
       erewrite IH by (simpl; apply lookup_insert_eq);
       rewrite set_objects_twice; do 2 f_equal; f_equal; set_solver).
Qed.

Lemma UnmarshalJSON_Done w set s b :
  objects w !! set = Some s →
  threadUnsafeSet_UnmarshalJSON set b w
  = match Decode b with
    | inl err => Done (Some err) w
    | inr i => Done None (set_objects <[set := s ∪ decoded_scalars i]> w)
    end.
Proof.
  intros Hs. unfold threadUnsafeSet_UnmarshalJSON.
  destruct (Decode b) as [err|i]; [done|].
  msimpl. by rewrite (unmarshal_loop _ _ _ _ Hs).
Qed.

Lemma Set_UnmarshalJSON_Done w r s b :
  holds w r s →
  ∃ w', Set_UnmarshalJSON r b w
        = Done (match Decode b with inl err => Some err | inr _ => None end) w'
        ∧ objects w'
          = <[table r := match Decode b with
                         | inl _ => s
                         | inr i => s ∪ decoded_scalars i
                         end]> (objects w)
        ∧ mutex w' = mutex w.
Proof.
  intros [Hs Hm].
  assert (Hun : ∀ w0, objects w0 = objects w →
            ∃ w', threadUnsafeSet_UnmarshalJSON (table r) b w0
                  = Done (match Decode b with inl err => Some err | inr _ => None end) w'
                  ∧ objects w'
                    = <[table r := match Decode b with
                                   | inl _ => s
                                   | inr i => s ∪ decoded_scalars i
                                   end]> (objects w)
                  ∧ mutex w' = mutex w0 ∧ tick w' = tick w0 ∧ trace w' = trace w0).
  { intros w0 Ho. rewrite (UnmarshalJSON_Done w0 _ s) by (by rewrite Ho).
    destruct (Decode b) as [err|i]; eexists; (split; [reflexivity|]); simpl;
      rewrite Ho; [by rewrite insert_id|done]. }
  destruct r as [p|p]; cbn [Set_UnmarshalJSON table] in *.
  - destruct (Hun w eq_refl) as (w' & E & Ho & Hmx & _). by exists w'.
  - destruct (Hun (log (EvRLock p) (set_mutex <[p := mkRWMutex 1 false]> w)) eq_refl)
      as (w1 & E & Ho & Hmx & _).
    unfold threadSafeSet_UnmarshalJSON.
    edestruct (RLock_section (threadUnsafeSet_UnmarshalJSON p b) w p)
      as (w' & E' & Ho' & Hm' & _); [exact Hm|done|exact E|exact Hmx|].
    exists w'. split; [done|]. by rewrite Ho', Hm'.
Qed.

(** C10. [UnmarshalJSON] with a well-formed input, on a set that holds
    exactly [s], unguarded or guarded: the call returns no error and the set
    then holds [s] together with the scalar entries of the decoded array, so
    every element it had is still there. *)
Theorem UnmarshalJSON_merges_into_the_set (w : World) (r : Set_)
    (s : gset value) (b : string) (i : list jvalue) :
  holds w r s → Decode b = inr i →
  ∃ w', Set_UnmarshalJSON r b w = Done None w'
        ∧ holds w' r (s ∪ decoded_scalars i)
        ∧ objects w' = <[table r := s ∪ decoded_scalars i]> (objects w)
        ∧ (∀ v, v ∈ s → ∃ s', objects w' !! table r = Some s' ∧ v ∈ s').
Proof.
  intros Hh Hd. destruct (Set_UnmarshalJSON_Done w r s b Hh) as (w' & E & Ho & Hm).
  rewrite Hd in E, Ho. exists w'. split; [done|].
  split; [by eapply holds_after|]. split; [done|].
  intros v Hv. exists (s ∪ decoded_scalars i). rewrite Ho, lookup_insert_eq.
  split; [done|set_solver].
Qed.

Lemma UnmarshalJSON_merges_into_the_set_witness :
  holds sample_world (PtrSafe 2) {[Int 1; Str "a"]}
  ∧ Decode "[true, [2], 3]" = inr [JBool true; JArray [JNumber "2"]; JNumber "3"]
  ∧ ∃ w', Set_UnmarshalJSON (PtrSafe 2) "[true, [2], 3]" sample_world = Done None w'
          ∧ holds w' (PtrSafe 2)
              ({[Int 1; Str "a"]}
               ∪ decoded_scalars [JBool true; JArray [JNumber "2"]; JNumber "3"]).
Proof.
  split; [split; reflexivity|]. split; [reflexivity|].
  destruct (UnmarshalJSON_merges_into_the_set sample_world (PtrSafe 2)
              {[Int 1; Str "a"]} "[true, [2], 3]"
              [JBool true; JArray [JNumber "2"]; JNumber "3"]
              (conj eq_refl eq_refl) eq_refl) as (w' & E & Hh & _).
  exists w'. split; [exact E|exact Hh].
Defined.

(** C1, as the code has it.  When decoding fails, [UnmarshalJSON] returns
    the decode error as an ordinary error value and leaves every table as it
    was: the whole input is decoded before the first element is added, so no
    element of a malformed input reaches the set. *)
Theorem UnmarshalJSON_adds_nothing_on_error (w : World) (r : Set_)
    (s : gset value) (b : string) (err : error) :
  holds w r s → Decode b = inl err →
  ∃ w', Set_UnmarshalJSON r b w = Done (Some err) w'
        ∧ objects w' = objects w ∧ holds w' r s.
Proof.
  intros Hh Hd. destruct (Set_UnmarshalJSON_Done w r s b Hh) as (w' & E & Ho & Hm).
  rewrite Hd in E, Ho. destruct Hh as [Hs Hl].
  rewrite insert_id in Ho by done.
  exists w'. split; [done|]. split; [done|]. split; [by rewrite Ho|].
  destruct r; [done|]. by rewrite Hm.
Qed.

Lemma UnmarshalJSON_adds_nothing_on_error_witness :
  holds sample_world (PtrUnsafe 3) ∅
  ∧ Decode "[1,x]" = inl DecodeError
  ∧ ∃ w', Set_UnmarshalJSON (PtrUnsafe 3) "[1,x]" sample_world
          = Done (Some DecodeError) w'
          ∧ objects w' = objects sample_world.
Proof.
  split; [split; reflexivity|]. split; [reflexivity|].
  destruct (UnmarshalJSON_adds_nothing_on_error sample_world (PtrUnsafe 3) ∅
              "[1,x]" DecodeError (conj eq_refl I) eq_refl) as (w' & E & Ho & _).
  exists w'. split; [exact E|exact Ho].
Defined.

(** C1, as stated, fails: in the input [[1,x]] the element 1 is well formed
    and comes before the malformed fragment, and after the failed call on an
    empty set the set is still empty. *)
Lemma parsed_element_is_not_added :
  Decode "[1,x]" = inl DecodeError
  ∧ parsed_before_fault "[1,x]" = [JNumber "1"]
  ∧ ∃ w', threadUnsafeSet_UnmarshalJSON 3 "[1,x]" sample_world
          = Done (Some DecodeError) w'
          ∧ objects w' !! 3%positive = Some ∅
          ∧ ¬ (∀ v, v ∈ decoded_scalars (parsed_before_fault "[1,x]") →
                    ∃ s', objects w' !! 3%positive = Some s' ∧ v ∈ s').
Proof.
  split; [reflexivity|]. split; [reflexivity|].
  exists sample_world. split; [reflexivity|]. split; [reflexivity|].
  intros Hall. destruct (Hall (Number "1")) as (s' & Hs' & Hin).
  - vm_compute. set_solver.
  - assert (E : objects sample_world !! 3%positive = Some ∅) by reflexivity.
    rewrite E in Hs'. injection Hs' as <-. set_solver.
Qed.

(** ** Strings of bytes *)

Lemma append_cons c (s t : string) : String c s ++ t = String c (s ++ t).
Proof. reflexivity. Qed.

Lemma append_nil_l (t : string) : "" ++ t = t.
Proof. reflexivity. Qed.

Lemma append_nil_r (s : string) : s ++ "" = s.
Proof. induction s as [|c s IH]; [done|]. by rewrite append_cons, IH. Qed.

Lemma append_assoc (s1 s2 s3 : string) : (s1 ++ s2) ++ s3 = s1 ++ (s2 ++ s3).
Proof.
  induction s1 as [|c s1 IH]; [done|]. by rewrite !append_cons, IH.
Qed.

Lemma length_append (s1 s2 : string) :
  String.length (s1 ++ s2) = (String.length s1 + String.length s2)%nat.
Proof.
  induction s1 as [|c s1 IH]; [done|]. rewrite append_cons. simpl. by rewrite IH.
Qed.

Lemma byte_of_val c : byte_of (byte_val c) = c.
Proof. unfold byte_of, byte_val. rewrite N2Z.id. apply ascii_N_embedding. Qed.

Lemma byte_val_range c : 0 ≤ byte_val c < 256.
Proof.
  unfold byte_val. pose proof (N_ascii_bounded c). lia.
Qed.

Lemma byte_val_of n : 0 ≤ n < 256 → byte_val (byte_of n) = n.
Proof.
  intros Hn. unfold byte_of, byte_val. rewrite N_ascii_embedding by lia. lia.
Qed.

(** ** A quoted string is read back as its coerced text *)

Lemma escape_ascii c0 s1 :
  byte_val c0 < 0x80 → escape (String c0 s1) = escape1 c0 ++ escape s1.
Proof.
  intros Hb. cbn [escape]. unfold escape1.
  destruct (byte_val c0 <? 128) eqn:E; [|lia].
  repeat (match goal with |- context [if ?c then _ else _] => destruct c end;
          try reflexivity).
Qed.

Lemma scan_escape1 c0 t :
  byte_val c0 < 0x80 →
  scan_string (escape1 c0 ++ t) = cons_to (String c0 "") (scan_string t).
Proof.
  intros Hb.
  destruct c0 as [[] [] [] [] [] [] [] []];
    try (exfalso; vm_compute in Hb; discriminate); reflexivity.
Qed.

Lemma cons_to_app pre1 pre2 r :
  cons_to pre1 (cons_to pre2 r) = cons_to (pre1 ++ pre2) r.
Proof. destruct r as [[t rest]|]; [|done]. simpl. by rewrite append_assoc. Qed.

(** The multi-byte cases depend only on the bytes of the encoding. *)
Ltac decode_cases :=
  repeat match goal with
    | |- context [match ?s with EmptyString => _ | String _ _ => _ end] =>
        destruct s
    | |- context [if ?c then _ else _] => destruct c
    end;
  try done; try (by intros E).

Lemma DecodeRune_2 c0 c1 s2 r t :
  DecodeRune (String c0 (String c1 s2)) = (r, 2%nat) →
  DecodeRune (String c0 (String c1 t)) = (r, 2%nat).
Proof.
  unfold DecodeRune. destruct (byte_val c0 <? 128); [by intros E|].
  destruct (first_byte (byte_val c0)) as [[[[|[|[|[|[|n]]]]] lo] hi]|];
    try done; decode_cases.
Qed.

Lemma DecodeRune_3 c0 c1 c2 s3 r t :
  DecodeRune (String c0 (String c1 (String c2 s3))) = (r, 3%nat) →
  DecodeRune (String c0 (String c1 (String c2 t))) = (r, 3%nat).
Proof.
  unfold DecodeRune. destruct (byte_val c0 <? 128); [by intros E|].
  destruct (first_byte (byte_val c0)) as [[[[|[|[|[|[|n]]]]] lo] hi]|];
    try done; decode_cases.
Qed.

Lemma DecodeRune_4 c0 c1 c2 c3 s4 r t :
  DecodeRune (String c0 (String c1 (String c2 (String c3 s4)))) = (r, 4%nat) →
  DecodeRune (String c0 (String c1 (String c2 (String c3 t)))) = (r, 4%nat).
Proof.
  unfold DecodeRune. destruct (byte_val c0 <? 128); [by intros E|].
  destruct (first_byte (byte_val c0)) as [[[[|[|[|[|[|n]]]]] lo] hi]|];
    try done; decode_cases.
Qed.

(** [scan_string] on a byte from 0x80 on. *)
Lemma scan_string_high c s1 :
  0x80 ≤ byte_val c →
  scan_string (String c s1)
  = match DecodeRune (String c s1), s1 with
    | (rr, 2%nat), String _ s2 => cons_to (EncodeRune rr) (scan_string s2)
    | (rr, 3%nat), String _ (String _ s3) =>
        cons_to (EncodeRune rr) (scan_string s3)
    | (rr, 4%nat), String _ (String _ (String _ s4)) =>
        cons_to (EncodeRune rr) (scan_string s4)
    | (rr, _), _ => cons_to (EncodeRune rr) (scan_string s1)
    end.
Proof.
  intros Hb. cbn [scan_string].
  destruct (byte_val c =? 34) eqn:E1; [lia|].
  destruct (byte_val c =? 92) eqn:E2; [lia|].
  destruct (byte_val c <? 32) eqn:E3; [lia|].
  destruct (byte_val c <? 128) eqn:E4; [lia|]. reflexivity.
Qed.

(** [scan_string] on a [\uXXXX] escape of a rune that is not a
    surrogate. *)
Lemma scan_string_u h1 h2 h3 h4 rr t :
  hex4 h1 h2 h3 h4 = Some rr → IsSurrogate rr = false →
  scan_string (String BSL (String "u" (String h1 (String h2 (String h3
                 (String h4 t))))))
  = cons_to (EncodeRune rr) (scan_string t).
Proof.
  intros Hh Hs. cbn [scan_string].
  change (byte_val BSL =? 34) with false. change (byte_val BSL =? 92) with true.
  cbv beta iota.
  change (byte_val "u") with 117. cbn [Z.eqb Pos.eqb orb].
  rewrite Hh, Hs. reflexivity.
Qed.

Lemma DecodeRune_invalid_rune c0 s1 r n :
  DecodeRune (String c0 s1) = (r, n) →
  n ≠ 2%nat → n ≠ 3%nat → n ≠ 4%nat → 0x80 ≤ byte_val c0 →
  r = RuneError.
Proof.
  intros E H2 H3 H4 Hb. unfold DecodeRune in E.
  destruct (byte_val c0 <? 128) eqn:E0; [lia|].
  destruct (first_byte (byte_val c0)) as [[[[|[|[|[|[|k]]]]] lo] hi]|];
    repeat match type of E with
      | context [match ?s with EmptyString => _ | String _ _ => _ end] =>
          destruct s
      | context [if ?c then _ else _] => destruct c
      end;
    injection E as <- <-; done.
Qed.

Lemma coerce_ascii c0 s1 :
  byte_val c0 < 0x80 → coerce (String c0 s1) = String c0 (coerce s1).
Proof. intros Hb. cbn [coerce]. destruct (byte_val c0 <? 128) eqn:E; [done|lia]. Qed.

Lemma scan_escape s : ∀ rest,
  scan_string (escape s ++ String DQ rest) = Some (coerce s, rest).
Proof.
  remember (String.length s) as n eqn:Hn. revert s Hn.
  induction n as [n IH] using lt_wf_ind. intros s Hn rest.
  destruct s as [|c0 s1]; [reflexivity|].
  assert (IH1 : ∀ rest, scan_string (escape s1 ++ String DQ rest)
                        = Some (coerce s1, rest)).
  { intros rest'. apply (IH (String.length s1)); [simpl in Hn; lia|done]. }
  destruct (Z.lt_ge_cases (byte_val c0) 0x80) as [Hb|Hb].
  { rewrite escape_ascii, append_assoc, scan_escape1, IH1 by done.
    by rewrite coerce_ascii. }
  assert (Hfffd : ∀ t, scan_string (String BSL (String "u" (String "f" (String "f"
                         (String "f" (String "d" t))))))
                       = cons_to (EncodeRune RuneError) (scan_string t)).
  { intros t. by apply scan_string_u. }
  cbn [escape coerce]. destruct (byte_val c0 <? 128) eqn:E0; [lia|].
  destruct (DecodeRune (String c0 s1)) as [r k] eqn:ED.
  destruct k as [|[|[|[|[|k]]]]].
  - rewrite !append_cons, Hfffd, IH1. reflexivity.
  - destruct s1; rewrite !append_cons, Hfffd, IH1; reflexivity.
  - destruct s1 as [|c1 s2].
    + rewrite !append_cons, Hfffd, IH1. reflexivity.
    + rewrite !append_cons, scan_string_high by done.
      rewrite (DecodeRune_2 _ _ _ _ _ ED).
      rewrite (IH (String.length s2)); [done|simpl in Hn; lia|done].
  - destruct s1 as [|c1 [|c2 s3]].
    + rewrite !append_cons, Hfffd, IH1. reflexivity.
    + rewrite !append_cons, Hfffd, IH1. reflexivity.
    + assert (IH3 : scan_string (escape s3 ++ String DQ rest)
                    = Some (coerce s3, rest)).
      { apply (IH (String.length s3)); [simpl in Hn; lia|done]. }
      destruct ((r =? 8232) || (r =? 8233)) eqn:Els.
      * rewrite !append_cons.
        assert (r = 8232 ∨ r = 8233) as [-> | ->] by lia.
        -- rewrite (scan_string_u _ _ _ _ 8232) by done. by rewrite IH3.
        -- rewrite (scan_string_u _ _ _ _ 8233) by done. by rewrite IH3.
      * rewrite !append_cons, scan_string_high by done.
        rewrite (DecodeRune_3 _ _ _ _ _ _ ED). by rewrite IH3.
  - destruct s1 as [|c1 [|c2 [|c3 s4]]];
      try (rewrite !append_cons, Hfffd, IH1; reflexivity).
    rewrite !append_cons, scan_string_high by done.
    rewrite (DecodeRune_4 _ _ _ _ _ _ _ ED).
    rewrite (IH (String.length s4)); [done|simpl in Hn; lia|done].
  - destruct s1 as [|c1 [|c2 [|c3 s4]]];
      rewrite !append_cons, Hfffd, IH1; reflexivity.
Qed.

Lemma scan_quote s rest :
  scan_string (escape s ++ String DQ "" ++ rest) = Some (coerce s, rest).
Proof. apply scan_escape. Qed.

(** ** A number literal is read back as it is *)

Lemma delimited_not_digit c rest :
  delimited (String c rest) → is_digit c = false.
Proof. unfold delimited, is_digit, in_range. intros [->|[->| ->]]; reflexivity. Qed.

Lemma span_digits_app s rest d r :
  delimited rest → span_digits s = (d, r) → span_digits (s ++ rest) = (d, r ++ rest).
Proof.
  intros Hrest. revert d r. induction s as [|c s IH]; intros d r E.
  - injection E as <- <-. rewrite !append_nil_l. destruct rest as [|c rest]; [done|].
    cbn [span_digits]. by rewrite (delimited_not_digit _ _ Hrest).
  - rewrite append_cons. cbn [span_digits] in *. destruct (is_digit c).
    + destruct (span_digits s) as [d' r'] eqn:E'. injection E as <- <-.
      by rewrite (IH _ _ eq_refl).
    + by injection E as <- <-.
Qed.

Lemma span_digits_lit s d r : span_digits s = (d, r) → s = d ++ r.
Proof.
  revert d r. induction s as [|c s IH]; intros d r E; cbn [span_digits] in E.
  - by injection E as <- <-.
  - destruct (is_digit c).
    + destruct (span_digits s) as [d' r'] eqn:E'. injection E as <- <-.
      rewrite append_cons. f_equal. by apply IH.
    + by injection E as <- <-.
Qed.

Lemma digits1_app s rest d r :
  delimited rest → digits1 s = Some (d, r) → digits1 (s ++ rest) = Some (d, r ++ rest).
Proof.
  intros Hrest. unfold digits1. destruct (span_digits s) as [d' r'] eqn:E.
  rewrite (span_digits_app _ _ _ _ Hrest E). destruct d'; [done|].
  by intros [= <- <-].
Qed.

Lemma digits1_lit s d r : digits1 s = Some (d, r) → s = d ++ r.
Proof.
  unfold digits1. destruct (span_digits s) as [d' r'] eqn:E.
  apply span_digits_lit in E. destruct d'; [done|]. by intros [= <- <-].
Qed.

Lemma scan_int_app s rest d r :
  delimited rest → scan_int s = Some (d, r) → scan_int (s ++ rest) = Some (d, r ++ rest).
Proof.
  intros Hrest. destruct s as [|c s]; [done|]. rewrite append_cons.
  cbn [scan_int]. destruct (byte_val c =? 48); [by intros [= <- <-]|].
  destruct (is_digit c); [|done].
  destruct (span_digits s) as [d' r'] eqn:E.
  rewrite (span_digits_app _ _ _ _ Hrest E). by intros [= <- <-].
Qed.

Lemma scan_int_lit s d r : scan_int s = Some (d, r) → s = d ++ r.
Proof.
  destruct s as [|c s]; [done|]. cbn [scan_int].
  destruct (byte_val c =? 48); [by intros [= <- <-]|].
  destruct (is_digit c); [|done].
  destruct (span_digits s) as [d' r'] eqn:E. apply span_digits_lit in E.
  intros [= <- <-]. by rewrite append_cons, E.
Qed.

Lemma scan_frac_app s rest d r :
  delimited rest → scan_frac s = Some (d, r) → scan_frac (s ++ rest) = Some (d, r ++ rest).
Proof.
  intros Hrest. destruct s as [|c s].
  - intros [= <- <-]. rewrite !append_nil_l. destruct rest as [|c rest]; [done|].
    cbn [scan_frac]. destruct Hrest as [->|[->| ->]]; reflexivity.
  - rewrite append_cons. cbn [scan_frac]. destruct (byte_val c =? 46).
    + destruct (digits1 s) as [[d' r']|] eqn:E; [|done].
      rewrite (digits1_app _ _ _ _ Hrest E). by intros [= <- <-].
    + by intros [= <- <-].
Qed.

Lemma scan_frac_lit s d r : scan_frac s = Some (d, r) → s = d ++ r.
Proof.
  destruct s as [|c s]; [by intros [= <- <-]|]. cbn [scan_frac].
  destruct (byte_val c =? 46).
  - destruct (digits1 s) as [[d' r']|] eqn:E; [|done]. apply digits1_lit in E.
    intros [= <- <-]. by rewrite append_cons, E.
  - by intros [= <- <-].
Qed.

Lemma scan_exp_app s rest d r :
  delimited rest → scan_exp s = Some (d, r) → scan_exp (s ++ rest) = Some (d, r ++ rest).
Proof.
  intros Hrest. destruct s as [|c s].
  - intros [= <- <-]. rewrite !append_nil_l. destruct rest as [|c rest]; [done|].
    cbn [scan_exp]. destruct Hrest as [->|[->| ->]]; reflexivity.
  - rewrite append_cons. cbn [scan_exp].
    destruct ((byte_val c =? 101) || (byte_val c =? 69)); [|by intros [= <- <-]].
    destruct s as [|sg s]; [done|]. rewrite append_cons.
    destruct ((byte_val sg =? 43) || (byte_val sg =? 45)).
    + destruct (digits1 s) as [[d' r']|] eqn:E; [|done].
      rewrite (digits1_app _ _ _ _ Hrest E). by intros [= <- <-].
    + destruct (digits1 (String sg s)) as [[d' r']|] eqn:E; [|done].
      rewrite <- append_cons. rewrite (digits1_app _ _ _ _ Hrest E).
      by intros [= <- <-].
Qed.

Lemma scan_exp_lit s d r : scan_exp s = Some (d, r) → s = d ++ r.
Proof.
  destruct s as [|c s]; [by intros [= <- <-]|]. cbn [scan_exp].
  destruct ((byte_val c =? 101) || (byte_val c =? 69)); [|by intros [= <- <-]].
  destruct s as [|sg s]; [done|].
  destruct ((byte_val sg =? 43) || (byte_val sg =? 45)).
  - destruct (digits1 s) as [[d' r']|] eqn:E; [|done]. apply digits1_lit in E.
    intros [= <- <-]. by rewrite !append_cons, E.
  - destruct (digits1 (String sg s)) as [[d' r']|] eqn:E; [|done].
    apply digits1_lit in E. intros [= <- <-]. by rewrite append_cons, E.
Qed.

Lemma scan_number_app s rest lit r :
  delimited rest →
  scan_number s = Some (lit, r) → scan_number (s ++ rest) = Some (lit, r ++ rest).
Proof.
  intros Hrest. unfold scan_number.
  assert (Hgen : ∀ sign s0,
    match scan_int s0 with
    | Some (i, s1) =>
        match scan_frac s1 with
        | Some (f, s2) =>
            match scan_exp s2 with
            | Some (e, s3) => Some (sign ++ i ++ f ++ e, s3)
            | None => None
            end
        | None => None
        end
    | None => None
    end = Some (lit, r) →
    match scan_int (s0 ++ rest) with
    | Some (i, s1) =>
        match scan_frac s1 with
        | Some (f, s2) =>
            match scan_exp s2 with
            | Some (e, s3) => Some (sign ++ i ++ f ++ e, s3)
            | None => None
            end
        | None => None
        end
    | None => None
    end = Some (lit, r ++ rest)).
  { intros sign s0.
    destruct (scan_int s0) as [[i s1]|] eqn:Ei; [|done].
    rewrite (scan_int_app _ _ _ _ Hrest Ei).
    destruct (scan_frac s1) as [[f s2]|] eqn:Ef; [|done].
    rewrite (scan_frac_app _ _ _ _ Hrest Ef).
    destruct (scan_exp s2) as [[e s3]|] eqn:Ee; [|done].
    rewrite (scan_exp_app _ _ _ _ Hrest Ee). by intros [= <- <-]. }
  destruct s as [|c s].
  - intros E. exfalso. cbv in E. discriminate E.
  - rewrite append_cons. destruct (byte_val c =? 45).
    + apply Hgen.
    + rewrite <- append_cons. apply Hgen.
Qed.

Lemma scan_number_lit s lit r : scan_number s = Some (lit, r) → s = lit ++ r.
Proof.
  unfold scan_number.
  assert (Hgen : ∀ sign s0,
    match scan_int s0 with
    | Some (i, s1) =>
        match scan_frac s1 with
        | Some (f, s2) =>
            match scan_exp s2 with
            | Some (e, s3) => Some (sign ++ i ++ f ++ e, s3)
            | None => None
            end
        | None => None
        end
    | None => None
    end = Some (lit, r) → sign ++ s0 = lit ++ r).
  { intros sign s0.
    destruct (scan_int s0) as [[i s1]|] eqn:Ei; [|done].
    destruct (scan_frac s1) as [[f s2]|] eqn:Ef; [|done].
    destruct (scan_exp s2) as [[e s3]|] eqn:Ee; [|done].
    apply scan_int_lit in Ei. apply scan_frac_lit in Ef. apply scan_exp_lit in Ee.
    intros [= <- <-]. subst. by rewrite !append_assoc. }
  destruct s as [|c s].
  - intros E. exfalso. cbv in E. discriminate E.
  - destruct (byte_val c =? 45).
    + intros E. by apply (Hgen (String c "") s).
    + intros E. by apply (Hgen "" (String c s)).
Qed.

Lemma scan_valid_number s rest :
  isValidNumber s = true → delimited rest →
  scan_number (s ++ rest) = Some (s, rest).
Proof.
  unfold isValidNumber. intros Hv Hrest.
  destruct (scan_number s) as [[lit [|c r]]|] eqn:E; try done.
  pose proof (scan_number_lit _ _ _ E) as Hl. rewrite append_nil_r in Hl. subst lit.
  by rewrite (scan_number_app _ _ _ _ Hrest E).
Qed.

(** The first byte of a number literal. *)
Lemma scan_number_head s lit r :
  scan_number s = Some (lit, r) →
  ∃ c s', s = String c s' ∧ ((byte_val c =? 45) || is_digit c) = true.
Proof.
  unfold scan_number. destruct s as [|c s]; [done|]. intros E.
  exists c, s. split; [done|]. destruct (byte_val c =? 45); [done|].
  cbn [scan_int] in E. destruct (byte_val c =? 48) eqn:E0.
  - unfold is_digit, in_range. lia.
  - by destruct (is_digit c).
Qed.

(** ** [FormatInt] writes a number literal *)

Lemma span_digits_snoc ds d :
  span_digits ds = (ds, "") → is_digit d = true →
  span_digits (ds ++ String d "") = (ds ++ String d "", "").
Proof.
  intros Hds Hd. induction ds as [|c ds IH].
  - rewrite append_nil_l. cbn [span_digits]. by rewrite Hd.
  - rewrite append_cons. cbn [span_digits] in *. destruct (is_digit c); [|done].
    destruct (span_digits ds) as [d' r'] eqn:E. injection Hds as -> ->.
    by rewrite IH.
Qed.

Lemma format_digits_spec fuel : ∀ n acc,
  0 ≤ n < 10 ^ (Z.of_nat fuel + 1) →
  ∃ c ds, format_digits fuel n acc = String c (ds ++ acc)
          ∧ span_digits ds = (ds, "")
          ∧ (n = 0 → byte_val c = 48 ∧ ds = "")
          ∧ (0 < n → 49 ≤ byte_val c ≤ 57).
Proof.
  assert (Hsmall : ∀ n acc, 0 ≤ n < 10 →
            ∃ c ds, String (byte_of (48 + n mod 10)) acc = String c (ds ++ acc)
                    ∧ span_digits ds = (ds, "")
                    ∧ (n = 0 → byte_val c = 48 ∧ ds = "")
                    ∧ (0 < n → 49 ≤ byte_val c ≤ 57)).
  { intros n acc Hn. exists (byte_of (48 + n mod 10)), "".
    rewrite Z.mod_small by lia. rewrite byte_val_of by lia.
    split; [done|]. split; [done|]. split; [intros ->; done|lia]. }
  induction fuel as [|fuel IH]; intros n acc Hn.
  - cbn [format_digits]. apply Hsmall. simpl in Hn. lia.
  - cbn [format_digits]. destruct (n <? 10) eqn:E; [apply Hsmall; lia|].
    assert (Hq : 0 ≤ n / 10 < 10 ^ (Z.of_nat fuel + 1)).
    { split; [apply Z.div_pos; lia|]. apply Z.div_lt_upper_bound; [lia|].
      replace (Z.of_nat (S fuel) + 1) with (Z.succ (Z.of_nat fuel + 1)) in Hn by lia.
      rewrite Z.pow_succ_r in Hn by lia. lia. }
    destruct (IH (n / 10) (String (byte_of (48 + n mod 10)) acc) Hq)
      as (c & ds & Ef & Hds & _ & Hc).
    exists c, (ds ++ String (byte_of (48 + n mod 10)) "").
    split; [rewrite Ef; by rewrite append_assoc|].
    split.
    { apply span_digits_snoc; [done|]. unfold is_digit, in_range.
      pose proof (Z.mod_pos_bound n 10). rewrite byte_val_of by lia. lia. }
    split; [lia|]. intros _. apply Hc.
    assert (1 ≤ n / 10); [|lia]. apply Z.div_le_lower_bound; lia.
Qed.

Lemma log2_fuel n :
  0 ≤ n → 0 ≤ n < 10 ^ (Z.of_nat (Z.to_nat (Z.log2 n)) + 1).
Proof.
  intros Hn. split; [done|]. rewrite Z2Nat.id by apply Z.log2_nonneg.
  destruct (decide (n = 0)) as [->|Hne]; [done|].
  destruct (Z.log2_spec n) as [_ Hlt]; [lia|].
  eapply Z.lt_le_trans; [exact Hlt|].
  replace (Z.log2 n + 1) with (Z.succ (Z.log2 n)) by lia.
  apply Z.pow_le_mono_l. lia.
Qed.

Lemma scan_digits_literal sign c ds :
  span_digits ds = (ds, "") →
  (byte_val c = 48 ∧ ds = "") ∨ 49 ≤ byte_val c ≤ 57 →
  match scan_int (String c ds) with
  | Some (i, s1) =>
      match scan_frac s1 with
      | Some (f, s2) =>
          match scan_exp s2 with
          | Some (e, s3) => Some (sign ++ i ++ f ++ e, s3)
          | None => None
          end
      | None => None
      end
  | None => None
  end = Some (sign ++ String c ds, "").
Proof.
  intros Hds Hc. cbn [scan_int].
  destruct Hc as [[Hc ->]|Hc].
  - rewrite Hc. simpl. by rewrite !append_nil_r.
  - destruct (byte_val c =? 48) eqn:E0; [lia|].
    unfold is_digit, in_range.
    destruct ((48 <=? byte_val c) && (byte_val c <=? 57)) eqn:E1; [|lia].
    rewrite Hds. simpl. by rewrite !append_nil_r.
Qed.

Lemma FormatInt_valid n : isValidNumber (FormatInt n) = true.
Proof.
  unfold isValidNumber, FormatInt, scan_number.
  destruct (n <? 0) eqn:En.
  - destruct (format_digits_spec _ (- n) "" (log2_fuel (- n) ltac:(lia)))
      as (c & ds & -> & Hds & _ & Hc).
    rewrite append_nil_r. change (byte_val "-" =? 45) with true. cbv iota.
    rewrite (scan_digits_literal (String "-" "") c ds Hds) by (right; apply Hc; lia).
    done.
  - destruct (format_digits_spec _ n "" (log2_fuel n ltac:(lia)))
      as (c & ds & -> & Hds & H0 & Hc).
    rewrite append_nil_r.
    assert (Hcases : (byte_val c = 48 ∧ ds = "") ∨ 49 ≤ byte_val c ≤ 57).
    { destruct (decide (n = 0)); [left; auto|right; apply Hc; lia]. }
    destruct (byte_val c =? 45) eqn:E45; [lia|].
    by rewrite (scan_digits_literal "" c ds Hds Hcases).
Qed.

(** ** The text of a tree is read back as the decoded tree *)

Lemma skip_space_head c s : isSpace c = false → skip_space (String c s) = String c s.
Proof. intros H. cbn [skip_space]. by rewrite H. Qed.

Lemma Join_cons2 x y l sep : Join (x :: y :: l) sep = x ++ sep ++ Join (y :: l) sep.
Proof. reflexivity. Qed.

Lemma print_head t : wf t → ∃ c s, print t = String c s ∧ value_head c.
Proof.
  destruct t as [|[]|s|s|l|m]; intros Hwf; try (eexists _, _; split; [reflexivity|done]).
  cbn [wf print] in *. unfold isValidNumber in Hwf.
  destruct (scan_number s) as [[lit r]|] eqn:E; [|done].
  destruct (scan_number_head _ _ _ E) as (c & s' & -> & Hc).
  exists c, s'. split; [done|]. unfold value_head, isSpace, is_digit, in_range in *.
  lia.
Qed.

Lemma print_length t : wf t → (1 ≤ String.length (print t))%nat.
Proof. intros Hwf. destruct (print_head t Hwf) as (c & s & -> & _). simpl. lia. Qed.

Ltac len_norm H :=
  repeat (progress (rewrite ?append_cons, ?append_nil_l, ?length_append in H;
                    cbn [String.length] in H)).

Lemma scan_print fuel :
  (∀ t rest, wf t → delimited rest →
     (String.length (print t) < fuel)%nat →
     scan_value fuel (print t ++ rest) = Some (decoded t, rest))
  ∧ (∀ l rest, l ≠ [] → wf (JArray l) →
       (String.length (Join (map print l) ",") + 1 < fuel)%nat →
       scan_elements fuel (Join (map print l) "," ++ "]" ++ rest)
       = Some (map decoded l, rest))
  ∧ (∀ m rest, m ≠ [] → wf (JObject m) →
       (String.length
          (Join (map (λ kv, quote (fst kv) ++ ":" ++ print (snd kv)) m) ",") + 1
        < fuel)%nat →
       scan_members fuel
         (Join (map (λ kv, quote (fst kv) ++ ":" ++ print (snd kv)) m) ","
          ++ "}" ++ rest)
       = Some (map (λ kv, (coerce (fst kv), decoded (snd kv))) m, rest)).
Proof.
  induction fuel as [|fuel (IHV & IHE & IHM)].
  { split; [intros; lia|]. split; intros; lia. }
  split; [|split].
  - (* a value *)
    intros t rest Hwf Hrest Hlen.
    destruct t as [|b|s|s|l|m].
    + reflexivity.
    + destruct b; reflexivity.
    + cbn [print decoded wf] in *.
      pose proof Hwf as Hv. unfold isValidNumber in Hv.
      destruct (scan_number s) as [[lit r]|] eqn:E; [|done].
      destruct (scan_number_head _ _ _ E) as (c & s' & Hs & Hc).
      subst s.
      rewrite append_cons. cbn [scan_value].
      unfold is_digit, in_range in Hc.
      destruct (byte_val c =? 91) eqn:E1; [lia|].
      destruct (byte_val c =? 123) eqn:E2; [lia|].
      destruct (byte_val c =? 34) eqn:E3; [lia|].
      unfold is_digit, in_range. rewrite Hc.
      rewrite <- append_cons. by rewrite scan_valid_number.
    + cbn [print decoded]. unfold quote. rewrite append_cons, append_assoc.
      cbn [scan_value]. change (byte_val DQ =? 91) with false.
      change (byte_val DQ =? 123) with false. change (byte_val DQ =? 34) with true.
      cbv iota. rewrite append_cons, append_nil_l. by rewrite scan_escape.
    + cbn [print decoded]. rewrite !append_cons, append_nil_l, append_assoc.
      cbn [scan_value]. change (byte_val "[" =? 91) with true. cbv iota.
      destruct l as [|t1 l].
      * cbn [map Join]. rewrite append_nil_l. reflexivity.
      * assert (Hh : ∃ c s, Join (map print (t1 :: l)) "," = String c s ∧ value_head c).
        { cbn [wf foldr] in Hwf. destruct Hwf as [Hwf1 _].
          destruct (print_head t1 Hwf1) as (c & s & Ep & Hc).
          destruct l as [|t2 l]; cbn [map].
          - exists c, s. by rewrite <- Ep.
          - rewrite Join_cons2, Ep, append_cons. eauto. }
        destruct Hh as (c & s & Ej & Hiss & Hc93 & _).
        pose proof (IHE (t1 :: l) rest ltac:(done) Hwf) as HE.
        rewrite Ej in HE |- *. rewrite append_cons in HE |- *.
        rewrite skip_space_head by done.
        destruct (byte_val c =? 93) eqn:E93; [lia|].
        rewrite HE; [done|].
        cbn [print] in Hlen. len_norm Hlen. rewrite Ej in Hlen. lia.
    + cbn [print decoded]. rewrite !append_cons, append_nil_l, append_assoc.
      cbn [scan_value]. change (byte_val "{" =? 91) with false.
      change (byte_val "{" =? 123) with true. cbv iota.
      destruct m as [|[k1 v1] m].
      * cbn [map Join]. rewrite append_nil_l. reflexivity.
      * assert (Hh : ∃ s, Join (map (λ kv, quote (fst kv) ++ ":" ++ print (snd kv))
                                    ((k1, v1) :: m)) "," = String DQ s).
        { destruct m as [|kv2 m]; cbn [map fst snd].
          - unfold quote. rewrite append_cons. eauto.
          - rewrite Join_cons2. unfold quote at 1. rewrite !append_cons. eauto. }
        destruct Hh as (s & Ej).
        pose proof (IHM ((k1, v1) :: m) rest ltac:(done) Hwf) as HM.
        rewrite Ej in HM |- *. rewrite append_cons in HM |- *.
        rewrite skip_space_head by done.
        change (byte_val DQ =? 125) with false. cbv iota.
        rewrite HM; [done|].
        cbn [print] in Hlen. len_norm Hlen. rewrite Ej in Hlen. lia.
  - (* the elements of an array *)
    intros l rest Hne Hwf Hlen. destruct l as [|t1 l]; [done|].
    cbn [wf foldr] in Hwf. destruct Hwf as [Hwf1 Hwfl].
    pose proof (print_length t1 Hwf1) as Hpos.
    cbn [scan_elements]. destruct l as [|t2 l].
    + cbn [map Join] in *. rewrite (IHV t1 ("]" ++ rest) Hwf1); [|right; by left|lia].
      reflexivity.
    + cbn [map] in *. rewrite Join_cons2 in Hlen |- *.
      len_norm Hlen. rewrite !append_assoc.
      rewrite (IHV t1 ("," ++ Join (print t2 :: map print l) "," ++ "]" ++ rest) Hwf1);
        [|by left|lia].
      rewrite append_cons, append_nil_l. rewrite skip_space_head by done.
      change (byte_val "," =? 44) with true. cbv iota.
      cbn [wf foldr] in Hwfl.
      destruct (print_head t2 (proj1 Hwfl)) as (c & s & Ep & Hc).
      assert (Hj : ∃ s', Join (print t2 :: map print l) "," = String c s').
      { destruct l as [|t3 l]; cbn [map]; [by exists s|].
        rewrite Join_cons2, Ep, append_cons. eauto. }
      destruct Hj as (s' & Ej).
      pose proof (IHE (t2 :: l) rest ltac:(done) Hwfl) as HE. cbn [map] in HE.
      rewrite Ej in HE |- *. rewrite append_cons in HE |- *.
      rewrite skip_space_head by apply Hc.
      rewrite HE; [done|]. rewrite Ej in Hlen. lia.
  - (* the members of an object *)
    intros m rest Hne Hwf Hlen. destruct m as [|[k1 v1] m]; [done|].
    cbn [wf foldr snd] in Hwf. destruct Hwf as [Hwf1 Hwfm].
    pose proof (print_length v1 Hwf1) as Hpos.
    assert (Hmember : ∀ R, delimited R →
              (String.length (print v1) < fuel)%nat →
              ∀ X, X = (quote k1 ++ ":" ++ print v1) ++ R →
              match X with
              | String q s1 =>
                  if byte_val q =? 34 then
                    match scan_string s1 with
                    | Some (k, r0) =>
                        match skip_space r0 with
                        | String c r1 =>
                            if byte_val c =? 58 then
                              scan_value fuel (skip_space r1)
                              = Some (decoded v1, R) ∧ k = coerce k1
                            else False
                        | EmptyString => False
                        end
                    | None => False
                    end
                  else False
              | EmptyString => False
              end).
    { intros R HR Hl X ->. unfold quote.
      rewrite !append_cons, !append_assoc, !append_cons, !append_nil_l.
      change (byte_val DQ =? 34) with true. cbv iota.
      rewrite scan_escape. rewrite skip_space_head by done.
      change (byte_val ":" =? 58) with true. cbv iota.
      destruct (print_head v1 Hwf1) as (c & s & Ep & Hc).
      rewrite Ep, append_cons. rewrite skip_space_head by apply Hc.
      rewrite <- append_cons, <- Ep. split; [|done]. by apply IHV. }
    cbn [scan_members]. destruct m as [|kv2 m].
    + cbn [map Join fst snd] in *. unfold quote in Hlen. len_norm Hlen.
      specialize (Hmember ("}" ++ rest) ltac:(right; by right) ltac:(lia) _ eq_refl).
      destruct ((quote k1 ++ ":" ++ print v1) ++ "}" ++ rest) as [|q s1]; [done|].
      destruct (byte_val q =? 34); [|done].
      destruct (scan_string s1) as [[k r0]|]; [|done].
      destruct (skip_space r0) as [|c r1]; [done|].
      destruct (byte_val c =? 58); [|done].
      destruct Hmember as [-> ->]. reflexivity.
    + cbn [map fst snd] in *. rewrite Join_cons2 in Hlen |- *.
      set (rest2 := Join ((quote (fst kv2) ++ ":" ++ print (snd kv2))
                            :: map (λ kv, quote (fst kv) ++ ":" ++ print (snd kv)) m) ",")
        in *.
      unfold quote in Hlen. len_norm Hlen.
      rewrite (append_assoc (quote k1 ++ ":" ++ print v1)).
      rewrite (append_assoc ",").
      specialize (Hmember ("," ++ rest2 ++ "}" ++ rest) ltac:(by left) ltac:(lia) _ eq_refl).
      destruct ((quote k1 ++ ":" ++ print v1) ++ "," ++ rest2 ++ "}" ++ rest)
        as [|q s1]; [done|].
      destruct (byte_val q =? 34); [|done].
      destruct (scan_string s1) as [[k r0]|]; [|done].
      destruct (skip_space r0) as [|c r1]; [done|].
      destruct (byte_val c =? 58); [|done].
      destruct Hmember as [-> ->].
      rewrite append_cons, append_nil_l. rewrite skip_space_head by done.
      change (byte_val "," =? 44) with true. cbv iota.
      assert (Hj : ∃ s', rest2 = String DQ s').
      { unfold rest2. destruct m as [|kv3 m].
        - cbn [map Join]. unfold quote. rewrite append_cons. eauto.
        - cbn [map]. rewrite Join_cons2. unfold quote at 1. rewrite !append_cons. eauto. }
      destruct Hj as (s' & Ej).
      pose proof (IHM (kv2 :: m) rest ltac:(done) Hwfm) as HM. cbn [map] in HM.
      fold rest2 in HM. rewrite Ej in HM |- *. rewrite append_cons in HM |- *.
      rewrite skip_space_head by done.
      rewrite HM; [done|]. rewrite Ej in Hlen. lia.
Qed.

(** ** Decoding the text of an array *)

Lemma Decode_print l : wf (JArray l) → Decode (print (JArray l)) = inr (map decoded l).
Proof.
  intros Hwf. unfold Decode.
  assert (E : skip_space (print (JArray l)) = print (JArray l)) by reflexivity.
  rewrite E.
  pose proof (proj1 (scan_print (S (String.length (print (JArray l)))))
                (JArray l) "" Hwf I ltac:(lia)) as Hs.
  rewrite append_nil_r in Hs. rewrite Hs. reflexivity.
Qed.

(** ** Marshalling writes the text of a tree *)

Section Marshal.
Context {ro : RangeOrder}.
Variable objs0 : gmap loc (gset value).
Variable mtx0 : gmap loc RWMutex.

Variable marshaler : Set_ → M (error + string).
Variable enc_set : Set_ → Prop.
Hypothesis marshaler_tree : ∀ r w,
  stable objs0 mtx0 w → enc_set r →
  ∃ ts w', marshaler r w = Done (inr (print (JArray ts))) w'
           ∧ wf (JArray ts) ∧ objects w' = objects w ∧ mutex w' = mutex w.

Lemma json_Marshal_tree v : ∀ w,
  stable objs0 mtx0 w → encodable_at enc_set v →
  ∃ t w', json_Marshal marshaler v w = Done (inr (print t)) w'
          ∧ comes_back v t ∧ objects w' = objects w ∧ mutex w' = mutex w.
Proof.
  induction v as [|b|n|s|s|a IHa b IHb|r]; intros w Hst Henc; cbn [json_Marshal].
  - exists JNull, w. by repeat split.
  - exists (JBool b), w. by repeat split.
  - exists (JNumber (FormatInt n)), w. split; [done|].
    split; [split; [apply FormatInt_valid|done]|done].
  - exists (JString s), w. by repeat split.
  - destruct (decide (s = "")) as [->|Hne].
    + exists (JNumber "0"), w. by repeat split.
    + destruct Henc as [?|Hv]; [done|]. rewrite Hv.
      exists (JNumber s), w. split; [done|]. split; [split; [done|]|done].
      cbn [decoded entry scalar round_trip]. by rewrite decide_False.
  - destruct Henc as [Ha Hb].
    destruct (IHa w Hst Ha) as (t1 & w1 & E1 & [Hwf1 _] & Ho1 & Hm1).
    assert (Hst1 : stable objs0 mtx0 w1).
    { destruct Hst as [Ho Hl]. split; [congruence|]. by rewrite Hm1. }
    destruct (IHb w1 Hst1 Hb) as (t2 & w2 & E2 & [Hwf2 _] & Ho2 & Hm2).
    exists (JObject [("First", t1); ("Second", t2)]), w2.
    msimpl. rewrite E1. msimpl. rewrite E2. msimpl. split.
    { do 2 f_equal. cbn [print map Join fst snd].
      by rewrite !append_assoc. }
    split; [split; [by repeat split|done]|]. split; congruence.
  - destruct (marshaler_tree r w Hst Henc) as (ts & w' & E & Hwf & Ho & Hm).
    exists (JArray ts), w'. by repeat split.
Qed.

Lemma marshal_items_tree elems : ∀ items w,
  stable objs0 mtx0 w → Forall (encodable_at enc_set) elems →
  ∃ ts w', marshal_items marshaler elems items w
           = Done (inr (items ++ map print ts)%list) w'
           ∧ Forall2 comes_back elems ts
           ∧ objects w' = objects w ∧ mutex w' = mutex w.
Proof.
  induction elems as [|v elems IH]; intros items w Hst Henc; cbn [marshal_items].
  - exists [], w. rewrite app_nil_r. by repeat split.
  - apply Forall_cons in Henc as [Hv Henc].
    destruct (json_Marshal_tree v w Hst Hv) as (t & w1 & E1 & Hcb & Ho1 & Hm1).
    assert (Hst1 : stable objs0 mtx0 w1).
    { destruct Hst as [Ho Hl]. split; [congruence|]. by rewrite Hm1. }
    destruct (IH (items ++ [print t])%list w1 Hst1 Henc)
      as (ts & w2 & E2 & Hcbs & Ho2 & Hm2).
    exists (t :: ts), w2. msimpl. rewrite E1. msimpl. rewrite E2.
    split; [by rewrite <- app_assoc|]. split; [by constructor|].
    split; congruence.
Qed.

Lemma Forall2_comes_back_wf elems ts :
  Forall2 comes_back elems ts → wf (JArray ts).
Proof.
  induction 1 as [|v t elems ts [Hwf _] _ IH]; [done|]. cbn [wf foldr]. by split.
Qed.

Lemma unsafe_MarshalJSON_tree w set s :
  stable objs0 mtx0 w → objects w !! set = Some s →
  (∀ v, v ∈ s → encodable_at enc_set v) →
  ∃ elems ts w', threadUnsafeSet_MarshalJSON marshaler set w
                 = Done (inr (print (JArray ts))) w'
                 ∧ elems ≡ₚ elements s ∧ Forall2 comes_back elems ts
                 ∧ objects w' = objects w ∧ mutex w' = mutex w.
Proof.
  intros Hst Hs Henc. unfold threadUnsafeSet_MarshalJSON. msimpl.
  rewrite (Cardinality_Done _ _ _ Hs). msimpl.
  rewrite (range_Done _ _ _ Hs). msimpl.
  destruct (marshal_items_tree (range_of (tick w) s) [] (set_tick S w))
    as (ts & w' & E & Hcbs & Ho & Hm); [done| |].
  { apply Forall_forall. intros v Hv%range_of_elem. by apply Henc. }
  rewrite E. msimpl. exists (range_of (tick w) s), ts, w'.
  split; [done|]. split; [apply range_of_perm|]. by repeat split.
Qed.

End Marshal.

Section RoundTrip.
Context {ro : RangeOrder}.

Lemma lock_equiv_rlock mtx mtx0 p m :
  lock_equiv mtx mtx0 → mtx !! p = Some m → writer m = false →
  lock_equiv (<[p := mkRWMutex (S (readers m)) false]> mtx) mtx0.
Proof.
  intros Hl Hm Hw q. destruct (decide (p = q)) as [<-|Hne].
  - rewrite lookup_insert_eq, <- Hl, Hm. simpl. by rewrite Hw.
  - rewrite lookup_insert_ne by done. apply Hl.
Qed.

Lemma Set_MarshalJSON_tree objs0 mtx0 depth : ∀ r w,
  stable objs0 mtx0 w → encodable_set depth objs0 mtx0 r →
  ∃ elems ts w', Set_MarshalJSON depth r w = Done (inr (print (JArray ts))) w'
           ∧ (∀ s, objs0 !! table r = Some s → elems ≡ₚ elements s)
           ∧ Forall2 comes_back elems ts
           ∧ objects w' = objects w ∧ mutex w' = mutex w.
Proof.
  induction depth as [|depth IH]; intros r w Hst Henc; [done|].
  destruct Henc as (s & Hs & Hlock & Helems).
  assert (Hm : ∀ r' w', stable objs0 mtx0 w' →
            encodable_set depth objs0 mtx0 r' →
            ∃ ts w'', Set_MarshalJSON depth r' w' = Done (inr (print (JArray ts))) w''
              ∧ wf (JArray ts) ∧ objects w'' = objects w' ∧ mutex w'' = mutex w').
  { intros r' w' Hst' Henc'.
    destruct (IH r' w' Hst' Henc') as (elems & ts & w'' & E & _ & Hcb & Ho & Hmx).
    exists ts, w''. split; [done|]. split; [|done].
    by eapply Forall2_comes_back_wf. }
  assert (Hun : ∀ w1, stable objs0 mtx0 w1 →
            ∃ elems ts w', threadUnsafeSet_MarshalJSON (Set_MarshalJSON depth)
                             (table r) w1
                           = Done (inr (print (JArray ts))) w'
                 ∧ elems ≡ₚ elements s ∧ Forall2 comes_back elems ts
                 ∧ objects w' = objects w1 ∧ mutex w' = mutex w1).
  { intros w1 Hst1.
    apply (unsafe_MarshalJSON_tree objs0 mtx0 _ _ Hm); [done| |done].
    destruct Hst1 as [-> _]. done. }
  destruct r as [p|p]; cbn [Set_MarshalJSON table] in *.
  - destruct (Hun w Hst) as (elems & ts & w' & E & Hp & Hcb & Ho & Hmx).
    exists elems, ts, w'. split; [done|]. split; [|done].
    intros s' Hs'. congruence.
  - destruct Hlock as (m0 & Hm0 & Hw0).
    destruct Hst as [Ho Hl].
    assert (∃ m, mutex w !! p = Some m ∧ writer m = false) as (m & Hmw & Hw).
    { specialize (Hl p). rewrite Hm0 in Hl.
      destruct (mutex w !! p) as [m|]; [|done].
      exists m. split; [done|]. simpl in Hl. congruence. }
    destruct (Hun (log (EvRLock p)
                (set_mutex <[p := mkRWMutex (S (readers m)) false]> w)))
      as (elems & ts & w1 & E & Hp & Hcb & Ho1 & Hmx1).
    { split; [done|]. simpl. by apply lock_equiv_rlock. }
    unfold threadSafeSet_MarshalJSON.
    edestruct (RLock_section
                 (threadUnsafeSet_MarshalJSON (Set_MarshalJSON depth) p) w p)
      as (w' & E' & Ho' & Hm' & _); [exact Hmw|exact Hw|exact E|exact Hmx1|].
    exists elems, ts, w'. split; [done|]. split; [intros s' Hs'; congruence|].
    split; [done|]. split; [by rewrite Ho', Ho1|done].
Qed.

Lemma comes_back_scalars elems ts :
  Forall2 comes_back elems ts →
  decoded_scalars (map decoded ts) = list_to_set (omap round_trip elems).
Proof.
  unfold decoded_scalars.
  induction 1 as [|v t elems ts [_ Hv] _ IH]; [done|].
  cbn [map omap list_omap]. rewrite Hv.
  destruct (round_trip v); cbn [list_to_set foldr]; by rewrite IH.
Qed.

Lemma list_to_set_omap_perm (f : value → option value) elems (s : gset value) :
  elems ≡ₚ elements s →
  list_to_set (C := gset value) (omap f elems) = set_omap f s.
Proof.
  intros Hp. apply set_eq. intros x.
  rewrite elem_of_list_to_set, elem_of_set_omap, list_elem_of_omap.
  split; intros (y & Hy & Hf); exists y; split; try done.
  - rewrite Hp in Hy. by apply elem_of_elements in Hy.
  - rewrite Hp. by apply elem_of_elements.
Qed.

End RoundTrip.

Lemma plain_round_trip v : plain v → round_trip v = Some v.
Proof.
  destruct v; cbn [plain round_trip]; try done.
  - by intros ->.
  - intros Hne. by rewrite decide_False.
Qed.

Lemma set_omap_plain (s : gset value) :
  (∀ v, v ∈ s → plain v) → set_omap round_trip s = s.
Proof.
  intros Hp. apply set_eq. intros x. rewrite elem_of_set_omap. split.
  - intros (y & Hy & Hx). rewrite (plain_round_trip y (Hp y Hy)) in Hx.
    by injection Hx as <-.
  - intros Hx. exists x. split; [done|]. by apply plain_round_trip, Hp.
Qed.




(** * The remaining methods *)

Section Unary.
Context {ro : RangeOrder}.

Lemma reads_of_holds w r s : holds w r s → reads w r s.
Proof. intros [Hs Hm]. split; [done|]. destruct r; [done|]. by eexists. Qed.

(** A read-locked section whose body leaves the locks alone. *)
Lemma RLock_query {A} (body : M A) w set a w1 :
  readable w set →
  body (rlock set w) = Done a w1 → mutex w1 = mutex (rlock set w) →
  ∃ w', (RLock set;; defer (RUnlock set) body) w = Done a w'
        ∧ objects w' = objects w1 ∧ mutex w' = mutex w ∧ tick w' = tick w1
        ∧ trace w' = (trace w1 ++ [EvRUnlock set])%list.
Proof.
  intros Hr Hb Hm. pose proof Hr as (m & Hmw & Hw).
  unfold rlock in Hb, Hm. rewrite Hmw in Hb, Hm.
  by apply (RLock_section body w set m a w1).
Qed.

Lemma Set_Contains_Done w r s keys :
  reads w r s →
  ∃ w', Set_Contains r keys w
        = Done (bool_decide (Forall (λ k, k ∈ s) keys)) w'
        ∧ objects w' = objects w ∧ mutex w' = mutex w ∧ tick w' = tick w.
Proof.
  intros [Hs Hl]. destruct r as [p|p]; cbn [Set_Contains table] in *.
  - exists w. by rewrite (Contains_Done _ _ s).
  - destruct Hl as (m & Hm & Hw).
    destruct (threadSafeSet_Contains_Done w p s m keys Hs Hm Hw)
      as (w' & E & Ho & Hmx & Ht & _).
    by exists w'.
Qed.

Lemma Set_Cardinality_reads w r s :
  reads w r s →
  ∃ w', Set_Cardinality r w = Done (Z.of_nat (size s)) w'
        ∧ objects w' = objects w ∧ mutex w' = mutex w ∧ tick w' = tick w.
Proof.
  intros [Hs Hl]. destruct r as [p|p]; cbn [Set_Cardinality table] in *.
  - exists w. by rewrite (Cardinality_Done _ _ s).
  - destruct Hl as (m & Hm & Hw).
    destruct (threadSafeSet_Cardinality_Done w p s m Hs Hm Hw)
      as (w' & E & Ho & Hmx & Ht & _).
    by exists w'.
Qed.

Lemma Set_Length_reads w r s :
  reads w r s →
  ∃ w', Set_Length r w = Done (Z.of_nat (size s)) w'
        ∧ objects w' = objects w ∧ mutex w' = mutex w ∧ tick w' = tick w.
Proof.
  intros Hr. destruct (Set_Cardinality_reads w r s Hr) as (w' & E & H).
  exists w'. split; [|done]. by destruct r.
Qed.

Lemma Remove_Done w set s i :
  objects w !! set = Some s →
  threadUnsafeSet_Remove set i w = Done () (set_objects <[set := s ∖ {[i]}]> w).
Proof.
  intros Hs. unfold threadUnsafeSet_Remove. msimpl.
  rewrite (load_Done _ _ _ Hs). by rewrite (store_Done _ _ s).
Qed.

Lemma Set_Remove_Done w r s i :
  holds w r s →
  ∃ w', Set_Remove r i w = Done () w'
        ∧ objects w' = <[table r := s ∖ {[i]}]> (objects w)
        ∧ mutex w' = mutex w ∧ tick w' = tick w.
Proof.
  intros [Hs Hm]. destruct r as [p|p]; cbn [Set_Remove table] in *.
  - eexists. split; [by apply Remove_Done|done].
  - edestruct (Lock_section (s ← load p; store p (s ∖ {[i]})) w p)
      as (w' & E & Ho & Hmx & Ht & _); [exact Hm| | |].
    + apply (Remove_Done _ p s i). exact Hs.
    + reflexivity.
    + exists w'. split; [exact E|]. by rewrite Ho, Hmx, Ht.
Qed.

Lemma Set_Clear_Done w r s :
  holds w r s →
  ∃ w', Set_Clear r w = Done () w'
        ∧ objects w' = <[table r := ∅]> (objects w)
        ∧ mutex w' = mutex w ∧ tick w' = tick w.
Proof.
  intros [Hs Hm]. destruct r as [p|p]; cbn [Set_Clear table] in *.
  - eexists. split; [by apply (store_Done _ _ s)|done].
  - edestruct (Lock_section (store p newThreadUnsafeSet) w p)
      as (w' & E & Ho & Hmx & Ht & _); [exact Hm| | |].
    + apply (store_Done _ p s). exact Hs.
    + reflexivity.
    + exists w'. split; [exact E|]. by rewrite Ho, Hmx, Ht.
Qed.

Lemma Set_Add_Done w r s v :
  holds w r s →
  ∃ w', Set_Add r v w = Done (bool_decide (v ∉ s)) w'
        ∧ objects w' = <[table r := {[v]} ∪ s]> (objects w)
        ∧ mutex w' = mutex w ∧ tick w' = tick w.
Proof.
  intros [Hs Hm]. destruct r as [p|p]; cbn [Set_Add table] in *.
  - eexists. split; [by apply Add_Done|done].
  - destruct (threadSafeSet_Add_Done w p s v Hs Hm) as (w' & E & Ho & Hmx & Ht & _).
    by exists w'.
Qed.

End Unary.

(** ** Contains, Remove and Clear *)

(** X1. [Contains] on a set that holds exactly [s], unguarded or guarded
    with a lock that is not write-locked: the answer is true exactly when
    every given key is in [s], so it is true for no keys at all; no table
    and no lock is changed. *)
Theorem Contains_tests_every_key (ro : RangeOrder) (w : World) (r : Set_)
    (s : gset value) (keys : list value) :
  reads w r s →
  ∃ b w', Set_Contains r keys w = Done b w'
          ∧ (b = true ↔ ∀ k, k ∈ keys → k ∈ s)
          ∧ (keys = [] → b = true)
          ∧ objects w' = objects w ∧ mutex w' = mutex w.
Proof.
  intros Hr. destruct (Set_Contains_Done w r s keys Hr) as (w' & E & Ho & Hm & _).
  exists (bool_decide (Forall (λ k, k ∈ s) keys)), w'.
  split; [done|]. split; [by rewrite bool_decide_eq_true, Forall_forall|].
  split; [|done]. intros ->. by apply bool_decide_eq_true_2.
Qed.

Lemma Contains_tests_every_key_witness :
  reads sample_world (PtrSafe 2) {[Int 1; Str "a"]}
  ∧ ∃ b w', Set_Contains (PtrSafe 2) [Str "a"; Int 2] sample_world = Done b w'
            ∧ (b = true ↔ ∀ k, k ∈ [Str "a"; Int 2] →
                                k ∈ ({[Int 1; Str "a"]} : gset value)).
Proof.
  assert (H : reads sample_world (PtrSafe 2) {[Int 1; Str "a"]}).
  { split; [reflexivity|]. exists (mkRWMutex 0 false). split; reflexivity. }
  split; [exact H|].
  destruct (Contains_tests_every_key order_elements sample_world (PtrSafe 2)
              {[Int 1; Str "a"]} [Str "a"; Int 2] H) as (b & w' & E & Hb & _).
  exists b, w'. split; [exact E|exact Hb].
Defined.

(** X2. [Remove(v)] on a set that holds exactly [s], unguarded or guarded:
    the call returns, the set then holds [s] without [v] and [Contains(v)]
    answers false; when [v] was not in the set, no table has changed.  No
    other table and no lock is changed. *)
Theorem Remove_deletes_the_element (ro : RangeOrder) (w : World) (r : Set_)
    (s : gset value) (v : value) :
  holds w r s →
  ∃ w', Set_Remove r v w = Done () w'
        ∧ holds w' r (s ∖ {[v]})
        ∧ objects w' = <[table r := s ∖ {[v]}]> (objects w)
        ∧ mutex w' = mutex w
        ∧ (v ∉ s → objects w' = objects w)
        ∧ (∃ w'', Set_Contains r [v] w' = Done false w'').
Proof.
  intros Hh. destruct (Set_Remove_Done w r s v Hh) as (w' & E & Ho & Hm & _).
  assert (Hh' : holds w' r (s ∖ {[v]})) by (by eapply holds_after).
  exists w'. split; [done|]. split; [done|]. split; [done|]. split; [done|].
  split.
  - intros Hv. rewrite Ho. destruct Hh as [Hs _].
    replace (s ∖ {[v]}) with s by set_solver. by apply insert_id.
  - destruct (Set_Contains_Done w' r _ [v] (reads_of_holds _ _ _ Hh'))
      as (w'' & E' & _).
    exists w''. rewrite E'. rewrite bool_decide_eq_false_2; [done|].
    intros Hall. apply Forall_cons in Hall as [Hin _]. set_solver.
Qed.

Lemma Remove_deletes_the_element_witness :
  holds sample_world (PtrSafe 2) {[Int 1; Str "a"]}
  ∧ ∃ w', Set_Remove (PtrSafe 2) (Int 1) sample_world = Done () w'
          ∧ holds w' (PtrSafe 2) ({[Int 1; Str "a"]} ∖ {[Int 1]}).
Proof.
  split; [split; reflexivity|].
  destruct (Remove_deletes_the_element order_elements sample_world (PtrSafe 2)
              {[Int 1; Str "a"]} (Int 1) (conj eq_refl eq_refl))
    as (w' & E & Hh & _).
  exists w'. split; [exact E|exact Hh].
Defined.

(** X3. [Clear] on a set that holds exactly [s], unguarded or guarded: the
    call returns, the set then is empty, [Cardinality] reports 0 and
    [Contains] is false for every key; every other table and every lock is
    as before. *)
Theorem Clear_empties_the_set (ro : RangeOrder) (w : World) (r : Set_)
    (s : gset value) :
  holds w r s →
  ∃ w', Set_Clear r w = Done () w'
        ∧ holds w' r ∅
        ∧ objects w' = <[table r := ∅]> (objects w)
        ∧ mutex w' = mutex w
        ∧ (∃ w'', Set_Cardinality r w' = Done 0 w'')
        ∧ (∀ v, ∃ w'', Set_Contains r [v] w' = Done false w'').
Proof.
  intros Hh. destruct (Set_Clear_Done w r s Hh) as (w' & E & Ho & Hm & _).
  assert (Hh' : holds w' r ∅) by (by eapply holds_after).
  exists w'. split; [done|]. split; [done|]. split; [done|]. split; [done|].
  split.
  - destruct (Set_Cardinality_reads w' r _ (reads_of_holds _ _ _ Hh'))
      as (w'' & E' & _).
    exists w''. by rewrite E', size_empty.
  - intros v.
    destruct (Set_Contains_Done w' r _ [v] (reads_of_holds _ _ _ Hh'))
      as (w'' & E' & _).
    exists w''. rewrite E'. rewrite bool_decide_eq_false_2; [done|].
    intros Hall. apply Forall_cons in Hall as [Hin _]. set_solver.
Qed.

Lemma Clear_empties_the_set_witness :
  holds sample_world (PtrSafe 2) {[Int 1; Str "a"]}
  ∧ ∃ w', Set_Clear (PtrSafe 2) sample_world = Done () w'
          ∧ holds w' (PtrSafe 2) ∅.
Proof.
  split; [split; reflexivity|].
  destruct (Clear_empties_the_set order_elements sample_world (PtrSafe 2)
              {[Int 1; Str "a"]} (conj eq_refl eq_refl))
    as (w' & E & Hh & _).
  exists w'. split; [exact E|exact Hh].
Defined.

(** ** ToSlice, Strings and Clone *)

Section Enumerations.
Context {ro : RangeOrder}.

Lemma Set_ToSlice_Done w r s :
  reads w r s →
  ∃ w', Set_ToSlice r w = Done (range_of (tick w) s) w'
        ∧ objects w' = objects w ∧ mutex w' = mutex w.
Proof.
  intros [Hs Hl]. destruct r as [p|p]; cbn [Set_ToSlice table] in *.
  - unfold threadUnsafeSet_ToSlice. msimpl.
    rewrite (Cardinality_Done _ _ _ Hs). msimpl.
    rewrite (range_Done _ _ _ Hs). by eexists.
  - pose proof Hl as (m & Hm & Hw).
    destruct (threadSafeSet_Cardinality_Done w p s m Hs Hm Hw)
      as (w1 & E1 & Ho1 & Hm1 & Ht1 & _).
    unfold threadSafeSet_ToSlice. rewrite (bind_Done _ _ _ _ _ E1).
    assert (Hr1 : readable w1 p) by (exists m; by rewrite Hm1).
    edestruct (RLock_query (range p) w1 p) as (w' & E & Ho & Hmx & _);
      [exact Hr1| | |].
    + apply range_Done. rewrite rlock_objects, Ho1. exact Hs.
    + reflexivity.
    + rewrite rlock_tick, Ht1 in E. exists w'. split; [exact E|].
      simpl in Ho. by rewrite Ho, rlock_objects, Ho1, Hmx, Hm1.
Qed.

Lemma strings_loop_omap elems : ∀ keys,
  strings_loop elems keys = (keys ++ omap text elems)%list.
Proof.
  induction elems as [|v elems IH]; intros keys; cbn [strings_loop omap list_omap].
  - by rewrite app_nil_r.
  - destruct v; cbn [text]; rewrite IH; try done. by rewrite <- app_assoc.
Qed.

Lemma elem_of_omap_text (elems : list value) t :
  t ∈ omap text elems ↔ Str t ∈ elems.
Proof.
  rewrite list_elem_of_omap. split.
  - intros (v & Hv & Ht). destruct v; try done. cbn in Ht. by injection Ht as ->.
  - intros Hin. by exists (Str t).
Qed.

Lemma NoDup_omap_text (elems : list value) : NoDup elems → NoDup (omap text elems).
Proof.
  induction 1 as [|v elems Hv Hnd IH]; cbn [omap list_omap]; [constructor|].
  destruct v; cbn [text]; try done.
  constructor; [|done]. by rewrite elem_of_omap_text.
Qed.

Lemma Set_Strings_Done w r s :
  reads w r s →
  ∃ w', Set_Strings r w = Done (omap text (range_of (tick w) s)) w'
        ∧ objects w' = objects w ∧ mutex w' = mutex w.
Proof.
  intros [Hs Hl]. destruct r as [p|p]; cbn [Set_Strings table] in *.
  - unfold threadUnsafeSet_Strings, threadUnsafeSet_Length. msimpl.
    rewrite (load_Done _ _ _ Hs). msimpl.
    rewrite (range_Done _ _ _ Hs). msimpl. rewrite strings_loop_omap.
    by eexists.
  - pose proof Hl as (m & Hm & Hw).
    destruct (threadSafeSet_Cardinality_Done w p s m Hs Hm Hw)
      as (w1 & E1 & Ho1 & Hm1 & Ht1 & _).
    unfold threadSafeSet_Strings.
    change (threadSafeSet_Length p) with (threadSafeSet_Cardinality p).
    rewrite (bind_Done _ _ _ _ _ E1).
    assert (Hr1 : readable w1 p) by (exists m; by rewrite Hm1).
    edestruct (RLock_query (elems ← range p; mret (strings_loop elems [])) w1 p)
      as (w' & E & Ho & Hmx & _); [exact Hr1| | |].
    + msimpl. rewrite (range_Done _ _ s) by (by rewrite rlock_objects, Ho1).
      msimpl. reflexivity.
    + reflexivity.
    + rewrite rlock_tick, Ht1, strings_loop_omap in E.
      exists w'. split; [exact E|].
      simpl in Ho. by rewrite Ho, rlock_objects, Ho1, Hmx, Hm1.
Qed.

Lemma Clone_Done w set s :
  objects w !! set = Some s →
  ∃ w', threadUnsafeSet_Clone set w = Done (PtrUnsafe (new_loc w)) w'
        ∧ allocates w (PtrUnsafe (new_loc w)) s w'
        ∧ trace w' = trace w.
Proof.
  intros Hs. pose proof (new_loc_fresh w) as Hq.
  pose proof (new_loc_fresh_mutex w) as Hqm.
  assert (Hne : new_loc w ≠ set) by congruence.
  unfold threadUnsafeSet_Clone. msimpl. rewrite var_Done. msimpl.
  rewrite (range_Done _ _ s) by (simpl; by rewrite lookup_insert_ne).
  msimpl. erewrite for_each_Add by (simpl; apply lookup_insert_eq). msimpl.
  eexists. split; [reflexivity|]. split; [|done].
  split; [done|]. split; [done|]. cbn [table]. wsimpl.
  rewrite insert_insert_eq.
  split; [rewrite lookup_insert_eq; f_equal; unfold newThreadUnsafeSet;
          rewrite union_empty_l_L; apply range_of_to_set|].
  split; [by apply insert_subseteq|done].
Qed.

Lemma Set_Clone_Done w r s :
  reads w r s →
  ∃ c w', Set_Clone r w = Done c w' ∧ same_variant r c ∧ allocates w c s w'.
Proof.
  intros [Hs Hl]. destruct r as [p|p]; cbn [Set_Clone table] in *.
  - destruct (Clone_Done w p s Hs) as (w' & E & Ha & _).
    by exists (PtrUnsafe (new_loc w)), w'.
  - pose proof Hl as (m & Hm & Hw).
    destruct (wrap_Done (λ x _, threadUnsafeSet_Clone x) (rlock p w) p p s)
      as (q & w1 & E1 & Hq & Hqm & HR & Hsub & Hmx & _).
    { destruct (Clone_Done (rlock p w) p s) as (w1 & E1 & Ha & Ht);
        [by rewrite rlock_objects|].
      by exists (new_loc (rlock p w)), w1. }
    assert (Hne : q ≠ p).
    { intros ->. by rewrite (rlock_mutex_eq _ _ _ Hm) in Hqm. }
    unfold threadSafeSet_Clone.
    edestruct (RLock_around
                 (r ← threadUnsafeSet_Clone p;
                  clone ← assert_threadUnsafeSet r;
                  m ← load clone;
                  q ← new_threadSafeSet m;
                  mret (PtrSafe q)) w p)
      as (w' & E & Ho & _ & _ & Hmp & Hmo); [exact Hl|exact E1| |].
    { rewrite Hmx. by rewrite lookup_insert_ne. }
    exists (PtrSafe q), w'. split; [exact E|]. split; [done|].
    rewrite rlock_objects in Hq, Hsub. rewrite rlock_mutex_ne in Hqm by done.
    split; [done|]. split; [done|]. cbn [table].
    split; [by rewrite Ho|]. split; [by rewrite Ho|].
    apply map_eq. intros x. destruct (decide (x = p)) as [->|Hxp].
    + rewrite Hmp. by rewrite lookup_insert_ne.
    + rewrite (Hmo x Hxp), Hmx. destruct (decide (x = q)) as [->|Hxq].
      * by rewrite !lookup_insert_eq.
      * rewrite !lookup_insert_ne by done. by apply rlock_mutex_ne.
Qed.

Lemma holds_allocates w a A r R w' :
  holds w a A → allocates w r R w' → holds w' a A.
Proof.
  intros [Hs Hm] (Hq & Hqm & _ & Hsub & Hmx). split.
  - by eapply lookup_weaken.
  - destruct a as [p|p]; [done|]. cbn [table] in *.
    destruct r as [q|q]; cbn [table] in *; rewrite Hmx; [done|].
    rewrite lookup_insert_ne; [done|congruence].
Qed.

End Enumerations.

(** X4. [ToSlice] on a set that holds exactly [s], unguarded or guarded with
    a lock that is not write-locked, returns a slice that lists every
    element of [s] once and nothing else; its length is the number that
    [Cardinality] and [Length] report.  No table and no lock is changed. *)
Theorem ToSlice_lists_every_element_once (ro : RangeOrder) (w : World)
    (r : Set_) (s : gset value) :
  reads w r s →
  ∃ l w', Set_ToSlice r w = Done l w'
          ∧ NoDup l ∧ (∀ v, v ∈ l ↔ v ∈ s)
          ∧ (∃ w'', Set_Cardinality r w = Done (Z.of_nat (length l)) w'')
          ∧ (∃ w'', Set_Length r w = Done (Z.of_nat (length l)) w'')
          ∧ objects w' = objects w ∧ mutex w' = mutex w.
Proof.
  intros Hr. destruct (Set_ToSlice_Done w r s Hr) as (w' & E & Ho & Hm).
  exists (range_of (tick w) s), w'. split; [done|].
  split; [apply range_of_NoDup|]. split; [intros v; apply range_of_elem|].
  rewrite range_of_length.
  split; [destruct (Set_Cardinality_reads w r s Hr) as (w'' & E' & _); eauto|].
  split; [destruct (Set_Length_reads w r s Hr) as (w'' & E' & _); eauto|done].
Qed.

Lemma ToSlice_lists_every_element_once_witness :
  reads sample_world (PtrSafe 2) {[Int 1; Str "a"]}
  ∧ ∃ l w', Set_ToSlice (ro := order_elements) (PtrSafe 2) sample_world
            = Done l w'
            ∧ NoDup l ∧ (∀ v, v ∈ l ↔ v ∈ ({[Int 1; Str "a"]} : gset value)).
Proof.
  assert (H : reads sample_world (PtrSafe 2) {[Int 1; Str "a"]}).
  { split; [reflexivity|]. exists (mkRWMutex 0 false). split; reflexivity. }
  split; [exact H|].
  destruct (ToSlice_lists_every_element_once order_elements sample_world
              (PtrSafe 2) {[Int 1; Str "a"]} H) as (l & w' & E & Hnd & Hin & _).
  exists l, w'. split; [exact E|]. split; [exact Hnd|exact Hin].
Defined.

(** X5. [Strings] on a set that holds exactly [s], unguarded or guarded with
    a lock that is not write-locked, returns the texts of the elements of
    type string, each once: a text is in the result exactly when the string
    with that text is in [s].  Elements of every other type are left out, a
    [json.Number] included; no table and no lock is changed. *)
Theorem Strings_keeps_the_strings_only (ro : RangeOrder) (w : World)
    (r : Set_) (s : gset value) :
  reads w r s →
  ∃ l w', Set_Strings r w = Done l w'
          ∧ NoDup l ∧ (∀ t, t ∈ l ↔ Str t ∈ s)
          ∧ (∀ t, Str t ∉ s → t ∉ l)
          ∧ objects w' = objects w ∧ mutex w' = mutex w.
Proof.
  intros Hr. destruct (Set_Strings_Done w r s Hr) as (w' & E & Ho & Hm).
  assert (Hin : ∀ t, t ∈ omap text (range_of (tick w) s) ↔ Str t ∈ s).
  { intros t. by rewrite elem_of_omap_text, range_of_elem. }
  exists (omap text (range_of (tick w) s)), w'. split; [done|].
  split; [apply NoDup_omap_text, range_of_NoDup|]. split; [done|].
  split; [|done]. intros t Ht. by rewrite Hin.
Qed.

Lemma Strings_keeps_the_strings_only_witness :
  reads sample_world (PtrUnsafe 1) {[Int 1; Str "a"]}
  ∧ ∃ l w', Set_Strings (ro := order_elements) (PtrUnsafe 1) sample_world
            = Done l w'
            ∧ (∀ t, t ∈ l ↔ Str t ∈ ({[Int 1; Str "a"]} : gset value)).
Proof.
  assert (H : reads sample_world (PtrUnsafe 1) {[Int 1; Str "a"]}).
  { split; [reflexivity|exact I]. }
  split; [exact H|].
  destruct (Strings_keeps_the_strings_only order_elements sample_world
              (PtrUnsafe 1) {[Int 1; Str "a"]} H) as (l & w' & E & _ & Hin & _).
  exists l, w'. split; [exact E|exact Hin].
Defined.

(** X6. [Clone] on a set that holds exactly [s], unguarded or guarded with a
    lock that is not write-locked, returns a set of the same variant at a
    location not in use before, with a free lock of its own if guarded,
    holding exactly [s]; nothing that existed is changed.  The copy is
    independent: adding an element to the clone leaves the original holding
    [s]. *)
Theorem Clone_is_an_independent_copy (ro : RangeOrder) (w : World)
    (r : Set_) (s : gset value) :
  reads w r s →
  ∃ c w', Set_Clone r w = Done c w'
          ∧ same_variant r c ∧ table c ≠ table r
          ∧ allocates w c s w' ∧ holds w' c s
          ∧ objects w' !! table r = Some s
          ∧ (∀ v, ∃ w'', Set_Add c v w' = Done (bool_decide (v ∉ s)) w''
                         ∧ holds w'' c ({[v]} ∪ s)
                         ∧ objects w'' !! table r = Some s).
Proof.
  intros Hr. destruct (Set_Clone_Done w r s Hr) as (c & w' & E & Hv & Ha).
  pose proof (allocates_holds _ _ _ _ Ha) as Hc.
  destruct Hr as [Hs _]. pose proof Ha as (Hq & _ & _ & Hsub & _).
  assert (Hne : table c ≠ table r) by congruence.
  assert (Hs' : objects w' !! table r = Some s) by (by eapply lookup_weaken).
  exists c, w'. split; [done|]. split; [done|]. split; [done|].
  split; [done|]. split; [done|]. split; [done|].
  intros v. destruct (Set_Add_Done w' c s v Hc) as (w'' & E' & Ho & Hm & _).
  exists w''. split; [done|]. split; [by eapply holds_after|].
  rewrite Ho. by rewrite lookup_insert_ne.
Qed.

Lemma Clone_is_an_independent_copy_witness :
  reads sample_world (PtrSafe 2) {[Int 1; Str "a"]}
  ∧ ∃ c w', Set_Clone (ro := order_elements) (PtrSafe 2) sample_world
            = Done c w'
            ∧ holds w' c {[Int 1; Str "a"]}.
Proof.
  assert (H : reads sample_world (PtrSafe 2) {[Int 1; Str "a"]}).
  { split; [reflexivity|]. exists (mkRWMutex 0 false). split; reflexivity. }
  split; [exact H|].
  destruct (Clone_is_an_independent_copy order_elements sample_world
              (PtrSafe 2) {[Int 1; Str "a"]} H)
    as (c & w' & E & _ & _ & _ & Hh & _).
  exists c, w'. split; [exact E|exact Hh].
Defined.

(** ** Equal and the subset tests *)

Section Tests.
Context {ro : RangeOrder}.

Lemma guarded_test (body : loc → Set_ → M bool) (f : gset value → gset value → bool)
    w set o A B :
  (∀ w0 x y X Y, objects w0 !! x = Some X → objects w0 !! y = Some Y →
     ∃ w', body x (PtrUnsafe y) w0 = Done (f X Y) w'
           ∧ objects w' = objects w0 ∧ mutex w' = mutex w0
           ∧ trace w' = trace w0) →
  readable w set → readable w o →
  objects w !! set = Some A → objects w !! o = Some B →
  ∃ w', (RLock set;; defer (RUnlock set)
           (RLock o;; defer (RUnlock o) (body set (PtrUnsafe o)))) w
        = Done (f A B) w'
        ∧ objects w' = objects w ∧ mutex w' = mutex w.
Proof.
  intros Hbody Hs Ho HA HB.
  destruct (guarded_query_Done (body set (PtrUnsafe o)) w set o (f A B) Hs Ho)
    as (w' & E & Hob & Hm & _).
  - destruct (Hbody (rlock o (rlock set w)) set o A B) as (w1 & E1 & Ho1 & Hm1 & Ht1);
      [by rewrite !rlock_objects..|].
    exists w1. split; [done|]. split; [|done]. by rewrite Ho1, !rlock_objects.
  - by exists w'.
Qed.

Lemma IsProperSuperset_Done w set o A B :
  objects w !! set = Some A → objects w !! o = Some B →
  ∃ w', threadUnsafeSet_IsProperSuperset set (PtrUnsafe o) w
        = Done (bool_decide (B ⊂ A)) w'
        ∧ objects w' = objects w ∧ mutex w' = mutex w ∧ trace w' = trace w.
Proof.
  intros HA HB. unfold threadUnsafeSet_IsProperSuperset, threadUnsafeSet_IsSuperset.
  cbn [Set_IsSubset]. msimpl.
  destruct (IsSubset_Done w o set B A HB HA) as (w1 & E1 & Ho1 & Hm1 & Ht1).
  rewrite E1. msimpl. destruct (decide (B ⊆ A)) as [Hsub|Hsub].
  - rewrite bool_decide_eq_true_2 by done. msimpl.
    destruct (Equal_Done w1 set o A B) as (w2 & E2 & Ho2 & Hm2 & Ht2);
      [by rewrite Ho1..|].
    rewrite E2. msimpl. exists w2. split; [|by rewrite Ho2, Hm2, Ht2].
    f_equal. destruct (decide (A = B)) as [->|Hne].
    + rewrite bool_decide_eq_true_2 by done. simpl. symmetry.
      apply bool_decide_eq_false_2. by intros [_ []].
    + rewrite bool_decide_eq_false_2 by done. simpl. symmetry.
      apply bool_decide_eq_true_2. split; [done|]. intros Hsup. apply Hne.
      by apply (anti_symm (⊆)).
  - rewrite bool_decide_eq_false_2 by done. msimpl. exists w1.
    split; [|done]. f_equal. symmetry. apply bool_decide_eq_false_2.
    by intros [? _].
Qed.

Lemma Set_test_Done t w a b A B :
  same_variant a b → reads w a A → reads w b B →
  ∃ w', Set_test t a b w = Done (verdict t A B) w'
        ∧ objects w' = objects w ∧ mutex w' = mutex w.
Proof.
  intros Hv [HA Hla] [HB Hlb].
  destruct a as [p|p], b as [o|o]; try done; cbn [table] in *.
  - destruct t; cbn [Set_test verdict Set_Equal Set_IsSubset Set_IsProperSubset
                     Set_IsSuperset Set_IsProperSuperset].
    + destruct (Equal_Done w p o A B HA HB) as (w' & E & Ho & Hm & _). eauto.
    + destruct (IsSubset_Done w p o A B HA HB) as (w' & E & Ho & Hm & _). eauto.
    + destruct (IsProperSubset_Done w p o A B HA HB) as (w' & E & Ho & Hm & _). eauto.
    + destruct (IsSubset_Done w o p B A HB HA) as (w' & E & Ho & Hm & _). eauto.
    + destruct (IsProperSuperset_Done w p o A B HA HB) as (w' & E & Ho & Hm & _). eauto.
  - destruct t; cbn [Set_test verdict Set_Equal Set_IsSubset Set_IsProperSubset
                     Set_IsSuperset Set_IsProperSuperset].
    + exact (guarded_test threadUnsafeSet_Equal (λ X Y, bool_decide (X = Y))
               w p o A B (λ w0 x y X Y, Equal_Done w0 x y X Y) Hla Hlb HA HB).
    + exact (guarded_test threadUnsafeSet_IsSubset (λ X Y, bool_decide (X ⊆ Y))
               w p o A B (λ w0 x y X Y, IsSubset_Done w0 x y X Y) Hla Hlb HA HB).
    + exact (guarded_test threadUnsafeSet_IsProperSubset
               (λ X Y, bool_decide (X ⊂ Y))
               w p o A B (λ w0 x y X Y, IsProperSubset_Done w0 x y X Y)
               Hla Hlb HA HB).
    + exact (guarded_test threadUnsafeSet_IsSubset (λ X Y, bool_decide (X ⊆ Y))
               w o p B A (λ w0 x y X Y, IsSubset_Done w0 x y X Y) Hlb Hla HB HA).
    + exact (guarded_test threadUnsafeSet_IsProperSubset
               (λ X Y, bool_decide (X ⊂ Y))
               w o p B A (λ w0 x y X Y, IsProperSubset_Done w0 x y X Y)
               Hlb Hla HB HA).
Qed.

End Tests.

(** X7. [Equal] on two sets of one variant that hold [A] and [B], guarded
    ones with locks that are not write-locked: the answer is true exactly
    when [A] and [B] have the same elements, whatever the order of the
    traversal; the two operands may be one and the same set.  No table is
    changed, and every lock is again as it was. *)
Theorem Equal_decides_equality (ro : RangeOrder) (w : World) (a b : Set_)
    (A B : gset value) :
  same_variant a b → reads w a A → reads w b B →
  ∃ e w', Set_Equal a b w = Done e w'
          ∧ (e = true ↔ ∀ v, v ∈ A ↔ v ∈ B)
          ∧ objects w' = objects w ∧ mutex w' = mutex w.
Proof.
  intros Hv Ha Hb.
  destruct (Set_test_Done TEqual w a b A B Hv Ha Hb) as (w' & E & Ho & Hm).
  exists (bool_decide (A = B)), w'. split; [exact E|]. split; [|done].
  rewrite bool_decide_eq_true. by rewrite set_eq.
Qed.

Lemma Equal_decides_equality_witness :
  same_variant (PtrSafe 2) (PtrSafe 4)
  ∧ reads sample_world (PtrSafe 2) {[Int 1; Str "a"]}
  ∧ reads sample_world (PtrSafe 4) ∅
  ∧ ∃ e w', Set_Equal (ro := order_elements) (PtrSafe 2) (PtrSafe 4)
              sample_world = Done e w'
            ∧ (e = true ↔ ∀ v, v ∈ ({[Int 1; Str "a"]} : gset value)
                               ↔ v ∈ (∅ : gset value)).
Proof.
  assert (H2 : reads sample_world (PtrSafe 2) {[Int 1; Str "a"]}).
  { split; [reflexivity|]. exists (mkRWMutex 0 false). split; reflexivity. }
  assert (H4 : reads sample_world (PtrSafe 4) ∅).
  { split; [reflexivity|]. exists (mkRWMutex 0 false). split; reflexivity. }
  split; [exact I|]. split; [exact H2|]. split; [exact H4|].
  destruct (Equal_decides_equality order_elements sample_world (PtrSafe 2)
              (PtrSafe 4) {[Int 1; Str "a"]} ∅ I H2 H4) as (e & w' & E & He & _).
  exists e, w'. split; [exact E|exact He].
Defined.

(** X8. The four subset tests on two sets of one variant that hold [A] and
    [B], guarded ones with locks that are not write-locked: [IsSubset]
    answers whether every element of [A] is in [B], [IsProperSubset] whether
    in addition [A] and [B] differ, and [IsSuperset] and [IsProperSuperset]
    answer the same questions with [A] and [B] exchanged.  On one and the
    same set [IsSubset] is true and [IsProperSubset] is false.  No table is
    changed, and every lock is again as it was. *)
Theorem subset_tests_decide_inclusion (ro : RangeOrder) (w : World)
    (a b : Set_) (A B : gset value) :
  same_variant a b → reads w a A → reads w b B →
  (∃ w', Set_IsSubset a b w = Done (bool_decide (A ⊆ B)) w'
         ∧ objects w' = objects w ∧ mutex w' = mutex w)
  ∧ (∃ w', Set_IsProperSubset a b w = Done (bool_decide (A ⊆ B ∧ A ≠ B)) w'
           ∧ objects w' = objects w ∧ mutex w' = mutex w)
  ∧ (∃ w', Set_IsSuperset a b w = Done (bool_decide (B ⊆ A)) w'
           ∧ objects w' = objects w ∧ mutex w' = mutex w)
  ∧ (∃ w', Set_IsProperSuperset a b w = Done (bool_decide (B ⊆ A ∧ A ≠ B)) w'
           ∧ objects w' = objects w ∧ mutex w' = mutex w)
  ∧ (∃ w', Set_IsSubset a a w = Done true w')
  ∧ (∃ w', Set_IsProperSubset a a w = Done false w').
Proof.
  intros Hv Ha Hb.
  assert (Hp : ∀ X Y : gset value,
            bool_decide (X ⊂ Y) = bool_decide (X ⊆ Y ∧ X ≠ Y)).
  { intros X Y. apply bool_decide_ext. split.
    - intros [Hsub Hn]. split; [done|]. intros ->. by apply Hn.
    - intros [Hsub Hne]. split; [done|]. intros Hsup. apply Hne.
      by apply (anti_symm (⊆)). }
  assert (Hva : same_variant a a) by (by destruct a).
  split; [exact (Set_test_Done TIsSubset w a b A B Hv Ha Hb)|].
  split.
  { destruct (Set_test_Done TIsProperSubset w a b A B Hv Ha Hb) as (w' & E & H).
    exists w'. cbn [Set_test verdict] in E. by rewrite <- Hp. }
  split; [exact (Set_test_Done TIsSuperset w a b A B Hv Ha Hb)|].
  split.
  { destruct (Set_test_Done TIsProperSuperset w a b A B Hv Ha Hb) as (w' & E & H).
    exists w'. cbn [Set_test verdict] in E. rewrite Hp in E.
    rewrite E. split; [|done]. do 2 f_equal. apply bool_decide_ext. naive_solver. }
  split.
  { destruct (Set_test_Done TIsSubset w a a A A Hva Ha Ha) as (w' & E & _).
    exists w'. cbn [Set_test verdict] in E. by rewrite bool_decide_eq_true_2 in E. }
  destruct (Set_test_Done TIsProperSubset w a a A A Hva Ha Ha) as (w' & E & _).
  exists w'. cbn [Set_test verdict] in E.
  rewrite bool_decide_eq_false_2 in E; [done|]. by intros [_ []].
Qed.

Lemma subset_tests_decide_inclusion_witness :
  same_variant (PtrUnsafe 3) (PtrUnsafe 1)
  ∧ reads sample_world (PtrUnsafe 3) ∅
  ∧ reads sample_world (PtrUnsafe 1) {[Int 1; Str "a"]}
  ∧ ∃ w', Set_IsProperSubset (ro := order_elements) (PtrUnsafe 3) (PtrUnsafe 1)
            sample_world
          = Done (bool_decide ((∅ : gset value) ⊆ {[Int 1; Str "a"]}
                               ∧ (∅ : gset value) ≠ {[Int 1; Str "a"]})) w'.
Proof.
  assert (H3 : reads sample_world (PtrUnsafe 3) ∅) by (split; [reflexivity|exact I]).
  assert (H1 : reads sample_world (PtrUnsafe 1) {[Int 1; Str "a"]})
    by (split; [reflexivity|exact I]).
  split; [exact I|]. split; [exact H3|]. split; [exact H1|].
  destruct (subset_tests_decide_inclusion order_elements sample_world
              (PtrUnsafe 3) (PtrUnsafe 1) ∅ {[Int 1; Str "a"]} I H3 H1)
    as (_ & (w' & E & _) & _).
  exists w'. exact E.
Defined.

(** ** Operands of the other variant *)

Section Mixed.
Context {ro : RangeOrder}.

Lemma all_contained_reads b B l : ∀ w,
  reads w b B →
  ∃ w', all_contained b l w = Done (bool_decide (Forall (λ x, x ∈ B) l)) w'
        ∧ objects w' = objects w ∧ mutex w' = mutex w ∧ tick w' = tick w.
Proof.
  induction l as [|x l IH]; intros w Hr; cbn [all_contained].
  - exists w. split; [|done]. by rewrite bool_decide_eq_true_2.
  - destruct (Set_Contains_Done w b B [x] Hr) as (w1 & E1 & Ho1 & Hm1 & Ht1).
    msimpl. rewrite E1. msimpl.
    assert (Hr1 : reads w1 b B).
    { destruct Hr as [HB Hl]. split; [by rewrite Ho1|].
      destruct b; [done|]. unfold readable. by rewrite Hm1. }
    destruct (decide (x ∈ B)) as [Hx|Hx].
    + rewrite bool_decide_eq_true_2 by (by constructor). msimpl.
      destruct (IH w1 Hr1) as (w' & E & Ho & Hm & Ht). exists w'.
      split; [|by rewrite Ho, Hm, Ht]. rewrite E. f_equal.
      apply bool_decide_ext. rewrite Forall_cons. naive_solver.
    + rewrite bool_decide_eq_false_2
        by (intros Hall; apply Forall_cons in Hall as [? _]; done).
      msimpl. exists w1. split; [|done]. f_equal. symmetry.
      apply bool_decide_eq_false_2. intros Hall.
      apply Forall_cons in Hall as [? _]. done.
Qed.

Lemma reads_frame w w' b B :
  reads w b B → objects w' = objects w → mutex w' = mutex w → reads w' b B.
Proof.
  intros [HB Hl] Ho Hm. split; [by rewrite Ho|].
  destruct b; [done|]. unfold readable. by rewrite Hm.
Qed.

Lemma IsSubset_reads w set b A B :
  objects w !! set = Some A → reads w b B →
  ∃ w', threadUnsafeSet_IsSubset set b w = Done (bool_decide (A ⊆ B)) w'
        ∧ objects w' = objects w ∧ mutex w' = mutex w.
Proof.
  intros HA Hr. unfold threadUnsafeSet_IsSubset. msimpl.
  rewrite (Cardinality_Done _ _ _ HA). msimpl.
  destruct (Set_Cardinality_reads w b B Hr) as (w1 & E1 & Ho1 & Hm1 & Ht1).
  rewrite E1. msimpl.
  destruct (decide (Z.of_nat (size A) > Z.of_nat (size B))) as [Hgt|Hle]; msimpl.
  - exists w1. split; [|done]. f_equal. symmetry. apply bool_decide_eq_false_2.
    intros Hsub. apply subseteq_size in Hsub. lia.
  - rewrite (range_Done _ _ A) by (by rewrite Ho1). msimpl.
    destruct (all_contained_reads b B (range_of (tick w1) A) (set_tick S w1))
      as (w' & E & Ho & Hm & _); [by eapply reads_frame|].
    rewrite E. exists w'. split; [|simpl in *; by rewrite Ho, Hm].
    f_equal. apply bool_decide_ext, Forall_range_of.
Qed.

Lemma Equal_reads w set b A B :
  objects w !! set = Some A → reads w b B →
  ∃ w', threadUnsafeSet_Equal set b w = Done (bool_decide (A = B)) w'
        ∧ objects w' = objects w ∧ mutex w' = mutex w.
Proof.
  intros HA Hr. unfold threadUnsafeSet_Equal. msimpl.
  rewrite (Cardinality_Done _ _ _ HA). msimpl.
  destruct (Set_Cardinality_reads w b B Hr) as (w1 & E1 & Ho1 & Hm1 & Ht1).
  rewrite E1. msimpl.
  destruct (decide (Z.of_nat (size A) ≠ Z.of_nat (size B))) as [Hne|Heq]; msimpl.
  - exists w1. split; [|done]. f_equal. symmetry. apply bool_decide_eq_false_2.
    intros ->. lia.
  - rewrite (range_Done _ _ A) by (by rewrite Ho1). msimpl.
    destruct (all_contained_reads b B (range_of (tick w1) A) (set_tick S w1))
      as (w' & E & Ho & Hm & _); [by eapply reads_frame|].
    rewrite E. exists w'. split; [|simpl in *; by rewrite Ho, Hm].
    f_equal. apply bool_decide_ext. rewrite Forall_range_of. split.
    + intros Hsub. apply set_subseteq_size_eq; [done|]. lia.
    + by intros ->.
Qed.

Lemma IsProperSubset_reads w set b A B :
  objects w !! set = Some A → reads w b B →
  ∃ w', threadUnsafeSet_IsProperSubset set b w
        = Done (bool_decide (A ⊆ B ∧ A ≠ B)) w'
        ∧ objects w' = objects w ∧ mutex w' = mutex w.
Proof.
  intros HA Hr. unfold threadUnsafeSet_IsProperSubset. msimpl.
  destruct (IsSubset_reads w set b A B HA Hr) as (w1 & E1 & Ho1 & Hm1).
  rewrite E1. msimpl. destruct (decide (A ⊆ B)) as [Hsub|Hsub].
  - rewrite bool_decide_eq_true_2 by done. msimpl.
    destruct (Equal_reads w1 set b A B) as (w2 & E2 & Ho2 & Hm2);
      [by rewrite Ho1|by eapply reads_frame|].
    rewrite E2. msimpl. exists w2. split; [|by rewrite Ho2, Hm2].
    f_equal. rewrite <- bool_decide_not. apply bool_decide_ext. naive_solver.
  - rewrite bool_decide_eq_false_2 by done. msimpl.
    exists w1. split; [|done]. f_equal. symmetry. apply bool_decide_eq_false_2.
    by intros [? _].
Qed.

Lemma for_each_missing_reads w u acc b B l :
  objects w !! u = Some acc → reads w b B → u ≠ table b →
  ∃ w', for_each l (λ elem,
          c ← Set_Contains b [elem];
          if (c : bool) then mret ()
          else threadUnsafeSet_Add u elem;; mret ()) w = Done () w'
        ∧ objects w' = <[u := acc ∪ (list_to_set l ∖ B)]> (objects w)
        ∧ mutex w' = mutex w.
Proof.
  revert w acc. induction l as [|x l IH]; intros w acc Hu Hr Hne;
    cbn [for_each list_to_set foldr].
  - exists w. split; [done|]. split; [|done].
    replace (acc ∪ ∅ ∖ B) with acc by set_solver. by rewrite insert_id.
  - destruct (Set_Contains_Done w b B [x] Hr) as (w1 & E1 & Ho1 & Hm1 & _).
    msimpl. rewrite E1. msimpl.
    pose proof (reads_frame _ _ _ _ Hr Ho1 Hm1) as Hr1.
    destruct (decide (x ∈ B)) as [Hx|Hx].
    + rewrite bool_decide_eq_true_2 by (by constructor). msimpl.
      destruct (IH w1 acc) as (w' & E & Ho & Hm); [by rewrite Ho1|done|done|].
      exists w'. split; [done|]. rewrite Ho, Ho1, Hm, Hm1. split; [|done].
      f_equal. set_solver.
    + rewrite bool_decide_eq_false_2
        by (intros Hall; apply Forall_cons in Hall as [? _]; done).
      msimpl. rewrite (Add_Done _ _ acc) by (by rewrite Ho1). msimpl.
      destruct (IH (set_objects <[u := {[x]} ∪ acc]> w1) ({[x]} ∪ acc))
        as (w' & E & Ho & Hm); [simpl; apply lookup_insert_eq| |done|].
      { destruct Hr1 as [HB Hl]. split; [|by destruct b].
        simpl. by rewrite lookup_insert_ne. }
      exists w'. split; [done|]. rewrite Ho, Hm. simpl.
      rewrite insert_insert_eq, Ho1, Hm1. split; [|done]. f_equal. set_solver.
Qed.

Lemma Difference_reads w set b A B :
  objects w !! set = Some A → reads w b B →
  ∃ w', threadUnsafeSet_Difference set b w = Done (PtrUnsafe (new_loc w)) w'
        ∧ objects w' = <[new_loc w := A ∖ B]> (objects w)
        ∧ mutex w' = mutex w.
Proof.
  intros HA Hr. pose proof (new_loc_fresh w) as Hq.
  assert (Hne : new_loc w ≠ set) by congruence.
  assert (Hnb : new_loc w ≠ table b) by (destruct Hr as [HB _]; congruence).
  unfold threadUnsafeSet_Difference. msimpl. rewrite var_Done. msimpl.
  rewrite (range_Done _ _ A) by (simpl; by rewrite lookup_insert_ne). msimpl.
  edestruct (for_each_missing_reads
               (set_tick S (set_objects <[new_loc w := newThreadUnsafeSet]> w))
               (new_loc w) ∅ b B (range_of (tick w) A))
    as (w' & E & Ho & Hm); [simpl; apply lookup_insert_eq| |done|].
  { destruct Hr as [HB Hl]. split; [|by destruct b].
    simpl. by rewrite lookup_insert_ne. }
  wsimpl. rewrite E. msimpl. exists w'. split; [done|].
  rewrite Ho, Hm. simpl. rewrite insert_insert_eq. split; [|done].
  f_equal. rewrite range_of_to_set. set_solver.
Qed.

End Mixed.

(** X9. The methods of an unguarded set that reach their operand only
    through the interface accept an operand of either variant.  On a receiver
    that holds [A] and an operand that holds [B], guarded with a lock that is
    not write-locked or unguarded, [IsSubset], [Equal] and [IsProperSubset]
    give the answers for [A] and [B], and [Difference] returns a new
    unguarded set holding the elements of [A] that are not in [B]; no
    existing table is changed and every lock is again as it was. *)
Theorem unguarded_tests_accept_either_variant (ro : RangeOrder) (w : World)
    (set : loc) (b : Set_) (A B : gset value) :
  objects w !! set = Some A → reads w b B →
  (∃ w', threadUnsafeSet_IsSubset set b w = Done (bool_decide (A ⊆ B)) w'
         ∧ objects w' = objects w ∧ mutex w' = mutex w)
  ∧ (∃ w', threadUnsafeSet_Equal set b w = Done (bool_decide (A = B)) w'
           ∧ objects w' = objects w ∧ mutex w' = mutex w)
  ∧ (∃ w', threadUnsafeSet_IsProperSubset set b w
           = Done (bool_decide (A ⊆ B ∧ A ≠ B)) w'
           ∧ objects w' = objects w ∧ mutex w' = mutex w)
  ∧ (∃ q w', threadUnsafeSet_Difference set b w = Done (PtrUnsafe q) w'
             ∧ objects w !! q = None
             ∧ objects w' = <[q := A ∖ B]> (objects w)
             ∧ mutex w' = mutex w).
Proof.
  intros HA Hr.
  split; [by apply IsSubset_reads|]. split; [by apply Equal_reads|].
  split; [by apply IsProperSubset_reads|].
  destruct (Difference_reads w set b A B HA Hr) as (w' & E & Ho & Hm).
  exists (new_loc w), w'. split; [done|]. split; [apply new_loc_fresh|done].
Qed.

Lemma unguarded_tests_accept_either_variant_witness :
  objects sample_world !! 1%positive = Some {[Int 1; Str "a"]}
  ∧ reads sample_world (PtrSafe 4) ∅
  ∧ ∃ q w', threadUnsafeSet_Difference (ro := order_elements) 1 (PtrSafe 4)
              sample_world = Done (PtrUnsafe q) w'
            ∧ objects w' = <[q := {[Int 1; Str "a"]} ∖ ∅]> (objects sample_world).
Proof.
  assert (H4 : reads sample_world (PtrSafe 4) ∅).
  { split; [reflexivity|]. exists (mkRWMutex 0 false). split; reflexivity. }
  split; [reflexivity|]. split; [exact H4|].
  destruct (unguarded_tests_accept_either_variant order_elements sample_world
              1 (PtrSafe 4) {[Int 1; Str "a"]} ∅ eq_refl H4)
    as (_ & _ & _ & q & w' & E & _ & Ho & _).
  exists q, w'. split; [exact E|exact Ho].
Defined.

(** X10. A method that asserts the variant of its operand panics on an
    operand of the other variant before it does anything else: no lock is
    taken and nothing in the store is changed.  This is so for the five
    operations and [Equal], [IsSubset] and [IsProperSubset] of a guarded set
    given an unguarded operand; for [Union], [Intersect] and
    [CartesianProduct] of an unguarded set given a guarded operand; and for
    [IsSuperset] and [IsProperSuperset] of an unguarded set given a guarded
    operand, which call the operand's [IsSubset] with the receiver. *)
Theorem operand_of_other_variant_panics (ro : RangeOrder) (w : World)
    (p o : loc) :
  (∀ op, Set_binop op (PtrSafe p) (PtrUnsafe o) w
         = Panic "interface conversion: mapset.Set is *mapset.threadUnsafeSet, not *mapset.threadSafeSet" w)
  ∧ (∀ t, t = TEqual ∨ t = TIsSubset ∨ t = TIsProperSubset →
          Set_test t (PtrSafe p) (PtrUnsafe o) w
          = Panic "interface conversion: mapset.Set is *mapset.threadUnsafeSet, not *mapset.threadSafeSet" w)
  ∧ (∀ op, op = Union ∨ op = Intersect ∨ op = CartesianProduct →
           Set_binop op (PtrUnsafe p) (PtrSafe o) w
           = Panic "interface conversion: mapset.Set is *mapset.threadSafeSet, not *mapset.threadUnsafeSet" w)
  ∧ (∀ t, t = TIsSuperset ∨ t = TIsProperSuperset →
          Set_test t (PtrUnsafe p) (PtrSafe o) w
          = Panic "interface conversion: mapset.Set is *mapset.threadUnsafeSet, not *mapset.threadSafeSet" w).
Proof.
  split; [by intros []|].
  split; [by intros t [->|[->| ->]]|].
  split; [by intros op [->|[->| ->]]|].
  by intros t [->| ->].
Qed.

(** ** The lock of a guarded set *)

Lemma Lock_parks w p m :
  mutex w !! p = Some m → readers m ≠ 0%nat ∨ writer m = true →
  Lock p w = Blocked w.
Proof.
  intros Hm Hheld. unfold Lock. rewrite Hm. destruct (writer m); [done|].
  destruct (readers m); [|done]. by destruct Hheld.
Qed.

Lemma Set_mutate_parks {ro : RangeOrder} w p m mu :
  mutex w !! p = Some m → readers m ≠ 0%nat ∨ writer m = true →
  Set_mutate mu (PtrSafe p) w = Blocked w.
Proof.
  intros Hm Hheld. pose proof (Lock_parks w p m Hm Hheld) as HL.
  destruct mu; cbn [Set_mutate Set_Add Set_Remove Set_Clear Set_Pop];
    unfold threadSafeSet_Add, threadSafeSet_Remove, threadSafeSet_Clear,
      threadSafeSet_Pop; msimpl; by rewrite HL.
Qed.

(** X11. While the lock of a guarded set is held by anybody, as a read lock
    or as the write lock, each of [Add], [Remove], [Clear] and [Pop] on that
    set parks at its [Lock] and has changed nothing: no table, no lock, and
    no entry in the lock history. *)
Theorem mutators_wait_for_the_lock (ro : RangeOrder) (w : World) (p : loc)
    (m : RWMutex) (mu : mutator) :
  mutex w !! p = Some m → readers m ≠ 0%nat ∨ writer m = true →
  Set_mutate mu (PtrSafe p) w = Blocked w.
Proof. apply Set_mutate_parks. Qed.

Lemma mutators_wait_for_the_lock_witness :
  mutex (rlock 2 sample_world) !! 2%positive = Some (mkRWMutex 1 false)
  ∧ Set_mutate (H := order_elements) (MAdd (Int 7)) (PtrSafe 2)
      (rlock 2 sample_world)
    = Blocked (rlock 2 sample_world).
Proof.
  split; [reflexivity|].
  apply (mutators_wait_for_the_lock order_elements (rlock 2 sample_world) 2
           (mkRWMutex 1 false) (MAdd (Int 7)) eq_refl).
  left. discriminate.
Defined.



(** ** Each *)

Lemma until_elem stop l x : x ∈ until stop l → x ∈ l.
Proof.
  induction l as [|y l IH]; cbn [until]; [done|].
  destruct (stop y).
  - intros ->%list_elem_of_singleton. by left.
  - intros [->|Hx]%elem_of_cons; [by left|]. right. by apply IH.
Qed.

Lemma until_all stop l : Forall (λ e, stop e = false) l → until stop l = l.
Proof.
  induction 1 as [|y l Hy _ IH]; cbn [until]; [done|]. by rewrite Hy, IH.
Qed.

Lemma until_one_stop stop l x y :
  x ∈ until stop l → y ∈ until stop l → stop x = true → stop y = true → x = y.
Proof.
  induction l as [|z l IH]; cbn [until]; [by intros ?%elem_of_nil|].
  destruct (stop z) eqn:Hz.
  - by intros ->%list_elem_of_singleton ->%list_elem_of_singleton.
  - intros [->|Hx]%elem_of_cons [->|Hy]%elem_of_cons Sx Sy; try congruence.
    by apply IH.
Qed.

Lemma until_stops stop l e :
  e ∈ l → stop e = true → ∃ x, x ∈ until stop l ∧ stop x = true.
Proof.
  induction l as [|z l IH]; [by intros ?%elem_of_nil|]. cbn [until].
  destruct (stop z) eqn:Hz.
  - intros _ _. exists z. split; [by left|done].
  - intros [->|He]%elem_of_cons Se; [congruence|].
    destruct (IH He Se) as (x & Hx & Sx). exists x. split; [by right|done].
Qed.

Section Each.
Context {ro : RangeOrder}.

Lemma each_loop_copy (stop : value → bool) r' l : ∀ w acc,
  holds w r' acc →
  ∃ w', each_loop l (λ e, Set_Add r' e;; mret (stop e)) w = Done () w'
        ∧ objects w' = <[table r' := acc ∪ list_to_set (until stop l)]> (objects w)
        ∧ mutex w' = mutex w.
Proof.
  induction l as [|x l IH]; intros w acc Hh; cbn [each_loop until].
  - exists w. split; [done|]. split; [|done]. destruct Hh as [Hs _].
    cbn [list_to_set foldr]. rewrite union_empty_r_L. by rewrite insert_id.
  - destruct (Set_Add_Done w r' acc x Hh) as (w1 & E1 & Ho1 & Hm1 & _).
    msimpl. rewrite E1. msimpl. destruct (stop x).
    + msimpl. exists w1. split; [done|]. rewrite Ho1. split; [|done].
      f_equal. set_solver.
    + destruct (IH w1 ({[x]} ∪ acc)) as (w' & E & Ho & Hm);
        [by eapply holds_after|].
      exists w'. split; [done|]. rewrite Ho, Ho1, Hm, insert_insert_eq.
      split; [|done]. f_equal. set_solver.
Qed.

Lemma Set_Each_copy (stop : value → bool) w r r' A B :
  reads w r A → holds w r' B → table r ≠ table r' →
  ∃ w', Set_Each r (λ e, Set_Add r' e;; mret (stop e)) w = Done () w'
        ∧ objects w'
          = <[table r' := B ∪ list_to_set (until stop (range_of (tick w) A))]>
              (objects w)
        ∧ mutex w' = mutex w.
Proof.
  intros [HA Hl] Hh Hne. destruct r as [p|p]; cbn [Set_Each table] in *.
  - unfold threadUnsafeSet_Each. msimpl. rewrite (range_Done _ _ _ HA). msimpl.
    destruct (each_loop_copy stop r' (range_of (tick w) A) (set_tick S w) B)
      as (w' & E & Ho & Hm); [done|]. by exists w'.
  - unfold threadSafeSet_Each.
    assert (Hh1 : holds (set_tick S (rlock p w)) r' B).
    { destruct Hh as [HB Hlb]. split; [simpl; by rewrite rlock_objects|].
      destruct r' as [q|q]; [done|]. simpl. rewrite rlock_mutex_ne; [done|].
      exact Hne. }
    destruct (each_loop_copy stop r' (range_of (tick w) A)
                (set_tick S (rlock p w)) B Hh1) as (w1 & E1 & Ho1 & Hm1).
    edestruct (RLock_query
                 (elems ← range p;
                  each_loop elems (λ e, Set_Add r' e;; mret (stop e))) w p)
      as (w' & E & Ho & Hmx & _); [exact Hl| |exact Hm1|].
    + msimpl. rewrite (range_Done _ _ A) by (by rewrite rlock_objects).
      msimpl. rewrite rlock_tick. exact E1.
    + exists w'. split; [exact E|]. split; [|done].
      rewrite Ho, Ho1. simpl. by rewrite rlock_objects.
Qed.

End Each.

(** X13. [Each] with a callback that adds the element it is given to
    another set [r'] and then answers [stop]: on a receiver that holds [A],
    unguarded or guarded with a lock that is not write-locked, the call
    returns and [r'] then holds what it held together with the elements
    visited, which are the elements of the traversal up to and including the
    first at which the callback answered true.  So the visited elements are
    elements of [A], at most one of them has the answer true, one has if
    some element of [A] has, and all of [A] is visited if none has.  The
    receiver is unchanged and its lock is again as it was. *)
Theorem Each_stops_at_the_first_true (ro : RangeOrder) (w : World)
    (r r' : Set_) (A B : gset value) (stop : value → bool) :
  reads w r A → holds w r' B → table r ≠ table r' →
  ∃ visited w',
    Set_Each r (λ e, Set_Add r' e;; mret (stop e)) w = Done () w'
    ∧ visited = until stop (range_of (tick w) A)
    ∧ objects w' = <[table r' := B ∪ list_to_set visited]> (objects w)
    ∧ mutex w' = mutex w
    ∧ (∀ x, x ∈ visited → x ∈ A)
    ∧ (∀ x y, x ∈ visited → y ∈ visited →
              stop x = true → stop y = true → x = y)
    ∧ (∀ e, e ∈ A → stop e = true → ∃ x, x ∈ visited ∧ stop x = true)
    ∧ ((∀ e, e ∈ A → stop e = false) →
       objects w' = <[table r' := B ∪ A]> (objects w)).
Proof.
  intros Hr Hh Hne.
  destruct (Set_Each_copy stop w r r' A B Hr Hh Hne) as (w' & E & Ho & Hm).
  exists (until stop (range_of (tick w) A)), w'.
  split; [done|]. split; [done|]. split; [done|]. split; [done|].
  split; [intros x Hx%until_elem; by apply range_of_elem in Hx|].
  split; [apply until_one_stop|].
  split.
  - intros e He Se. apply (until_stops stop _ e); [|done]. by apply range_of_elem.
  - intros Hall. rewrite Ho, until_all, range_of_to_set; [done|].
    apply Forall_forall. intros e He. apply Hall. by apply range_of_elem in He.
Qed.

Lemma Each_stops_at_the_first_true_witness :
  reads sample_world (PtrSafe 2) {[Int 1; Str "a"]}
  ∧ holds sample_world (PtrSafe 4) ∅
  ∧ table (PtrSafe 2) ≠ table (PtrSafe 4)
  ∧ ∃ w', Set_Each (ro := order_elements) (PtrSafe 2)
            (λ e, Set_Add (PtrSafe 4) e;; mret false) sample_world
          = Done () w'
          ∧ objects w' = <[4%positive := ∅ ∪ {[Int 1; Str "a"]}]>
                           (objects sample_world).
Proof.
  assert (H2 : reads sample_world (PtrSafe 2) {[Int 1; Str "a"]}).
  { split; [reflexivity|]. exists (mkRWMutex 0 false). split; reflexivity. }
  split; [exact H2|]. split; [split; reflexivity|]. split; [discriminate|].
  destruct (Each_stops_at_the_first_true order_elements sample_world
              (PtrSafe 2) (PtrSafe 4) {[Int 1; Str "a"]} ∅ (λ _, false) H2
              (conj eq_refl eq_refl) ltac:(discriminate))
    as (visited & w' & E & _ & _ & _ & _ & _ & _ & Hall).
  exists w'. split; [exact E|]. apply Hall. reflexivity.
Defined.

(** X14. [Each] on a guarded set holds the read lock while the callback
    runs.  With a callback that calls [Add], [Remove], [Clear] or [Pop] on
    the same set, [Each] on a non-empty set with a lock that is not
    write-locked never returns: the callback parks at [Lock] at the first
    element, no table has changed, and the read lock that [Each] took is
    still held. *)
Theorem Each_with_a_mutating_callback_parks (ro : RangeOrder) (w : World)
    (p : loc) (s : gset value) (m : RWMutex) (mu : value → mutator)
    (stop : value → bool) :
  objects w !! p = Some s → s ≠ ∅ →
  mutex w !! p = Some m → writer m = false →
  ∃ w', threadSafeSet_Each p
          (λ e, Set_mutate (mu e) (PtrSafe p);; mret (stop e)) w
        = Blocked w'
        ∧ objects w' = objects w
        ∧ mutex w' !! p = Some (mkRWMutex (S (readers m)) false)
        ∧ trace w' = (trace w ++ [EvRLock p])%list.
Proof.
  intros Hs Hne Hm Hw. unfold threadSafeSet_Each. msimpl.
  rewrite (RLock_Done _ _ _ Hm Hw). msimpl. unfold defer. msimpl.
  rewrite (range_Done _ _ s) by exact Hs. msimpl.
  destruct (range_of (tick w) s) as [|x l] eqn:El.
  { exfalso. apply set_choose_L in Hne as [x Hx].
    apply (range_of_elem (tick w)) in Hx. wsimpl. rewrite El in Hx.
    by apply elem_of_nil in Hx. }
  wsimpl. rewrite El. cbn [each_loop]. msimpl.
  erewrite Set_mutate_parks;
    [|simpl; apply lookup_insert_eq|left; simpl; discriminate].
  eexists. split; [reflexivity|]. simpl.
  split; [done|]. split; [apply lookup_insert_eq|done].
Qed.

Lemma Each_with_a_mutating_callback_parks_witness :
  objects sample_world !! 2%positive = Some {[Int 1; Str "a"]}
  ∧ ({[Int 1; Str "a"]} : gset value) ≠ ∅
  ∧ mutex sample_world !! 2%positive = Some (mkRWMutex 0 false)
  ∧ ∃ w', threadSafeSet_Each (ro := order_elements) 2
            (λ e, Set_mutate (H := order_elements) (MRemove e) (PtrSafe 2);;
                  mret false) sample_world
          = Blocked w'
          ∧ mutex w' !! 2%positive = Some (mkRWMutex 1 false).
Proof.
  assert (Hne : ({[Int 1; Str "a"]} : gset value) ≠ ∅).
  { intros H. assert (Hin : Int 1 ∈ ({[Int 1; Str "a"]} : gset value))
      by (apply elem_of_union_l, elem_of_singleton; reflexivity).
    rewrite H in Hin. exact (not_elem_of_empty _ Hin). }
  split; [reflexivity|]. split; [exact Hne|]. split; [reflexivity|].
  destruct (Each_with_a_mutating_callback_parks order_elements sample_world 2
              {[Int 1; Str "a"]} (mkRWMutex 0 false) MRemove (λ _, false)
              eq_refl Hne eq_refl eq_refl) as (w' & E & _ & Hm & _).
  exists w'. split; [exact E|exact Hm].
Defined.

(** ** How the operations compose *)

Lemma size_pairs_row (x : value) (B : gset value) :
  size (set_map (C := gset value) (D := gset value) (OrderedPair x) B) = size B.
Proof.
  induction B as [|y B Hy IH] using set_ind_L.
  - by rewrite set_map_empty, !size_empty.
  - rewrite set_map_union_L, set_map_singleton_L.
    rewrite !size_union, !size_singleton, IH; [done|set_solver|].
    intros z ->%elem_of_singleton (y' & [= ->] & Hy')%elem_of_map. done.
Qed.

Lemma size_pairs (A B : gset value) :
  size (pairs A B) = (size A * size B)%nat.
Proof.
  induction A as [|x A Hx IH] using set_ind_L.
  - replace (pairs ∅ B) with (∅ : gset value); [by rewrite !size_empty|].
    apply set_eq. intros v. rewrite elem_of_pairs. set_solver.
  - assert (E : pairs ({[x]} ∪ A) B
                = set_map (C := gset value) (OrderedPair x) B ∪ pairs A B).
    { apply set_eq. intros v. rewrite elem_of_union, !elem_of_pairs, elem_of_map.
      split.
      - intros (i & j & -> & [->%elem_of_singleton|Hi]%elem_of_union & Hj); eauto 6.
      - intros [(j & -> & Hj)|(i & j & -> & Hi & Hj)];
          eexists _, _; (split; [done|]); set_solver. }
    rewrite E, size_union, size_pairs_row, IH, size_union, size_singleton;
      [lia|set_solver|].
    intros v (j & -> & Hj)%elem_of_map (i' & j' & [= -> ->] & Hi & _)%elem_of_pairs.
    done.
Qed.

(** X15. [CartesianProduct] on two sets of one variant that hold [A] and
    [B], except guarded on two different sets: the call returns a new set
    whose elements are exactly the ordered pairs of an element of [A] and an
    element of [B], and [Cardinality] of the result reports the number of
    elements of [A] times that of [B].  A guarded set may be multiplied with
    itself. *)
Theorem CartesianProduct_has_all_pairs (ro : RangeOrder) (w : World)
    (a b : Set_) (A B : gset value) :
  same_variant a b → holds w a A → holds w b B →
  ¬ lock_slip CartesianProduct a b →
  ∃ r w' R, Set_CartesianProduct a b w = Done r w'
    ∧ same_variant a r ∧ holds w' r R
    ∧ (∀ v, v ∈ R ↔ ∃ i j, v = OrderedPair i j ∧ i ∈ A ∧ j ∈ B)
    ∧ (∃ w'', Set_Cardinality r w'
              = Done (Z.of_nat (size A) * Z.of_nat (size B)) w'').
Proof.
  intros Hv HA HB Hslip.
  destruct (Set_binop_Done ro CartesianProduct w a b A B Hv HA HB Hslip)
    as (r & w' & E & Hvr & Ha).
  pose proof (allocates_holds _ _ _ _ Ha) as Hr. cbn [denote] in Hr.
  exists r, w', (pairs A B). split; [exact E|]. split; [done|]. split; [done|].
  split; [intros v; apply elem_of_pairs|].
  destruct (Set_Cardinality_reads w' r _ (reads_of_holds _ _ _ Hr))
    as (w'' & E' & _).
  exists w''. by rewrite E', size_pairs, Nat2Z.inj_mul.
Qed.

Lemma CartesianProduct_has_all_pairs_witness :
  same_variant (PtrSafe 2) (PtrSafe 2)
  ∧ holds sample_world (PtrSafe 2) {[Int 1; Str "a"]}
  ∧ ¬ lock_slip CartesianProduct (PtrSafe 2) (PtrSafe 2)
  ∧ ∃ r w' R, Set_CartesianProduct (ro := order_elements) (PtrSafe 2)
                (PtrSafe 2) sample_world = Done r w'
              ∧ holds w' r R.
Proof.
  assert (Hs : ¬ lock_slip CartesianProduct (PtrSafe 2) (PtrSafe 2)).
  { intros [_ H]. apply H. reflexivity. }
  split; [exact I|]. split; [split; reflexivity|]. split; [exact Hs|].
  destruct (CartesianProduct_has_all_pairs order_elements sample_world
              (PtrSafe 2) (PtrSafe 2) {[Int 1; Str "a"]} {[Int 1; Str "a"]} I
              (conj eq_refl eq_refl) (conj eq_refl eq_refl) Hs)
    as (r & w' & R & E & _ & Hh & _).
  exists r, w', R. split; [exact E|exact Hh].
Defined.

Lemma same_variant_trans a b c :
  same_variant a b → same_variant b c → same_variant a c.
Proof. by destruct a, b, c. Qed.

Lemma same_variant_sym a b : same_variant a b → same_variant b a.
Proof. by destruct a, b. Qed.

Lemma no_slip op a b : op ≠ CartesianProduct → ¬ lock_slip op a b.
Proof. by intros Hop [? _]. Qed.

(** X16. The union of the two differences and the symmetric difference are
    equal sets: for two sets of one variant that hold [A] and [B],
    [a.Difference(b).Union(b.Difference(a))] and [a.SymmetricDifference(b)]
    are compared equal by [Equal]; the four new sets are added to the store
    and nothing that existed is changed. *)
Theorem SymmetricDifference_is_the_union_of_the_differences
    (ro : RangeOrder) (w : World) (a b : Set_) (A B : gset value) :
  same_variant a b → holds w a A → holds w b B →
  ∃ w', symmetric_difference_by_parts a b w = Done true w'
        ∧ objects w ⊆ objects w'
        ∧ holds w' a A ∧ holds w' b B.
Proof.
  intros Hv HA HB. unfold symmetric_difference_by_parts.
  destruct (Set_binop_Done ro Difference w a b A B Hv HA HB)
    as (d1 & w1 & E1 & Hv1 & Ha1); [by apply no_slip|].
  cbn [Set_binop] in E1. rewrite (bind_Done _ _ _ _ _ E1).
  pose proof (holds_allocates _ _ _ _ _ _ HA Ha1) as HA1.
  pose proof (holds_allocates _ _ _ _ _ _ HB Ha1) as HB1.
  pose proof (allocates_holds _ _ _ _ Ha1) as Hd1. cbn [denote] in Hd1.
  destruct (Set_binop_Done ro Difference w1 b a B A (same_variant_sym _ _ Hv)
              HB1 HA1) as (d2 & w2 & E2 & Hv2 & Ha2); [by apply no_slip|].
  cbn [Set_binop] in E2. rewrite (bind_Done _ _ _ _ _ E2).
  pose proof (holds_allocates _ _ _ _ _ _ HA1 Ha2) as HA2.
  pose proof (holds_allocates _ _ _ _ _ _ HB1 Ha2) as HB2.
  pose proof (holds_allocates _ _ _ _ _ _ Hd1 Ha2) as Hd12.
  pose proof (allocates_holds _ _ _ _ Ha2) as Hd2. cbn [denote] in Hd2.
  assert (Hv12 : same_variant d1 d2).
  { eapply same_variant_trans; [apply same_variant_sym, Hv1|].
    eapply same_variant_trans; [exact Hv|exact Hv2]. }
  destruct (Set_binop_Done ro Union w2 d1 d2 _ _ Hv12 Hd12 Hd2)
    as (u & w3 & E3 & Hv3 & Ha3); [by apply no_slip|].
  cbn [Set_binop] in E3. rewrite (bind_Done _ _ _ _ _ E3).
  pose proof (holds_allocates _ _ _ _ _ _ HA2 Ha3) as HA3.
  pose proof (holds_allocates _ _ _ _ _ _ HB2 Ha3) as HB3.
  pose proof (allocates_holds _ _ _ _ Ha3) as Hu. cbn [denote] in Hu.
  destruct (Set_binop_Done ro SymmetricDifference w3 a b A B Hv HA3 HB3)
    as (sd & w4 & E4 & Hv4 & Ha4); [by apply no_slip|].
  cbn [Set_binop] in E4. rewrite (bind_Done _ _ _ _ _ E4).
  pose proof (holds_allocates _ _ _ _ _ _ HA3 Ha4) as HA4.
  pose proof (holds_allocates _ _ _ _ _ _ HB3 Ha4) as HB4.
  pose proof (holds_allocates _ _ _ _ _ _ Hu Ha4) as Hu4.
  pose proof (allocates_holds _ _ _ _ Ha4) as Hsd. cbn [denote] in Hsd.
  assert (Hvu : same_variant u sd).
  { eapply same_variant_trans; [apply same_variant_sym, Hv3|].
    eapply same_variant_trans; [apply same_variant_sym, Hv1|exact Hv4]. }
  destruct (Set_test_Done TEqual w4 u sd _ _ Hvu (reads_of_holds _ _ _ Hu4)
              (reads_of_holds _ _ _ Hsd)) as (w5 & E5 & Ho5 & Hm5).
  cbn [Set_test verdict] in E5. rewrite bool_decide_eq_true_2 in E5 by done.
  exists w5. split; [exact E5|].
  destruct Ha1 as (_ & _ & _ & S1 & _), Ha2 as (_ & _ & _ & S2 & _),
    Ha3 as (_ & _ & _ & S3 & _), Ha4 as (_ & _ & _ & S4 & _).
  split.
  { rewrite Ho5. etrans; [exact S1|]. etrans; [exact S2|]. by etrans. }
  split.
  - destruct HA4 as [H1 H2]. split; [by rewrite Ho5|]. destruct a; [done|].
    by rewrite Hm5.
  - destruct HB4 as [H1 H2]. split; [by rewrite Ho5|]. destruct b; [done|].
    by rewrite Hm5.
Qed.

Lemma SymmetricDifference_is_the_union_of_the_differences_witness :
  same_variant (PtrSafe 2) (PtrSafe 4)
  ∧ holds sample_world (PtrSafe 2) {[Int 1; Str "a"]}
  ∧ holds sample_world (PtrSafe 4) ∅
  ∧ ∃ w', symmetric_difference_by_parts (H := order_elements) (PtrSafe 2)
            (PtrSafe 4) sample_world = Done true w'.
Proof.
  split; [exact I|]. split; [split; reflexivity|]. split; [split; reflexivity|].
  destruct (SymmetricDifference_is_the_union_of_the_differences order_elements
              sample_world (PtrSafe 2) (PtrSafe 4) {[Int 1; Str "a"]} ∅ I
              (conj eq_refl eq_refl) (conj eq_refl eq_refl)) as (w' & E & _).
  exists w'. exact E.
Defined.

Section Compose.
Context {ro : RangeOrder}.

Lemma Set_Pop_Done w r s :
  holds w r s →
  ∃ item w', Set_Pop r w = Done item w'
    ∧ (s = ∅ → item = Nil)
    ∧ (s ≠ ∅ → item ∈ s)
    ∧ holds w' r (s ∖ {[item]}) ∧ mutex w' = mutex w.
Proof.
  intros Hh. pose proof Hh as [Hs Hm].
  assert (∃ item w1, threadUnsafeSet_Pop (table r) w = Done item w1
            ∧ (s = ∅ → item = Nil) ∧ (s ≠ ∅ → item ∈ s)
            ∧ objects w1 = <[table r := s ∖ {[item]}]> (objects w)
            ∧ mutex w1 = mutex w) as (item & w1 & E & H0 & H1 & Ho & Hmx).
  { destruct (decide (s = ∅)) as [->|Hne].
    - exists Nil, (set_tick S w). rewrite Pop_empty by done.
      split; [done|]. split; [done|]. split; [done|]. simpl. split; [|done].
      replace (∅ ∖ {[Nil]}) with (∅ : gset value) by set_solver.
      by rewrite insert_id.
    - destruct (Pop_nonempty w _ s Hs Hne) as (item & Hin & E).
      exists item. eexists. split; [exact E|]. by repeat split. }
  destruct r as [p|p]; cbn [Set_Pop table] in *.
  - exists item, w1. split; [done|]. split; [done|]. split; [done|].
    split; [|done]. split; [|done]. rewrite Ho. apply lookup_insert_eq.
  - destruct (threadSafeSet_Pop_Done w p s item w1 Hs Hm E) as (w' & E' & Ho' & Hm').
    exists item, w'. split; [done|]. split; [done|]. split; [done|].
    split; [|done]. split; [rewrite Ho', Ho; apply lookup_insert_eq|].
    by rewrite Hm'.
Qed.

Lemma pop_times_drains r n : ∀ w s,
  size s = n → holds w r s →
  ∃ l w', pop_times n r w = Done l w'
          ∧ NoDup l ∧ (∀ v, v ∈ l ↔ v ∈ s) ∧ holds w' r ∅.
Proof.
  induction n as [|n IH]; intros w s Hn Hh; cbn [pop_times].
  - apply size_empty_inv in Hn. apply leibniz_equiv in Hn. subst s.
    exists [], w. split; [done|]. split; [constructor|]. split; [|done].
    intros v. rewrite elem_of_nil. set_solver.
  - assert (Hne : s ≠ ∅) by (intros ->; by rewrite size_empty in Hn).
    destruct (Set_Pop_Done w r s Hh) as (item & w1 & E1 & _ & Hin & Hh1 & _).
    specialize (Hin Hne). msimpl. rewrite E1. msimpl.
    destruct (IH w1 (s ∖ {[item]})) as (l & w' & E & Hnd & Hl & Hh');
      [|done|].
    { rewrite size_difference by set_solver. rewrite size_singleton. lia. }
    rewrite E. msimpl. exists (item :: l), w'. split; [done|].
    split; [constructor; [rewrite Hl; set_solver|done]|]. split; [|done].
    intros v. rewrite elem_of_cons, Hl.
    destruct (decide (v = item)) as [->|]; set_solver.
Qed.

End Compose.

(** X17. Popping a set as many times as it has elements drains it: on a set
    that holds exactly [s], unguarded or guarded, the calls return every
    element of [s] once and nothing else, in the order of the traversals;
    the set then is empty, and one more [Pop] returns nil. *)
Theorem Pop_drains_the_set (ro : RangeOrder) (w : World) (r : Set_)
    (s : gset value) :
  holds w r s →
  ∃ l w', pop_times (size s) r w = Done l w'
          ∧ NoDup l ∧ (∀ v, v ∈ l ↔ v ∈ s) ∧ length l = size s
          ∧ holds w' r ∅
          ∧ (∃ w'', Set_Pop r w' = Done Nil w'' ∧ holds w'' r ∅).
Proof.
  intros Hh.
  destruct (pop_times_drains r (size s) w s eq_refl Hh)
    as (l & w' & E & Hnd & Hl & Hh').
  exists l, w'. split; [done|]. split; [done|]. split; [done|].
  split.
  { rewrite <- (size_list_to_set (C := gset value) l Hnd). f_equal.
    apply set_eq. intros v. by rewrite elem_of_list_to_set. }
  split; [done|].
  destruct (Set_Pop_Done w' r ∅ Hh') as (item & w'' & E' & H0 & _ & Hh'' & _).
  rewrite (H0 eq_refl) in E', Hh''. exists w''. split; [done|].
  by replace (∅ ∖ {[Nil]}) with (∅ : gset value) in Hh'' by set_solver.
Qed.

Lemma Pop_drains_the_set_witness :
  holds sample_world (PtrSafe 2) {[Int 1; Str "a"]}
  ∧ ∃ l w', pop_times (H := order_elements)
              (size ({[Int 1; Str "a"]} : gset value)) (PtrSafe 2) sample_world
            = Done l w'
            ∧ holds w' (PtrSafe 2) ∅.
Proof.
  split; [split; reflexivity|].
  destruct (Pop_drains_the_set order_elements sample_world (PtrSafe 2)
              {[Int 1; Str "a"]} (conj eq_refl eq_refl))
    as (l & w' & E & _ & _ & _ & Hh & _).
  exists l, w'. split; [exact E|exact Hh].
Defined.

(** X18. [Add] and [Remove] undo each other.  On a set that holds exactly
    [s], unguarded or guarded: if [v] is not in [s], [Add(v)] followed by
    [Remove(v)] leaves every table as it was; if [v] is in [s], [Remove(v)]
    followed by [Add(v)] does, and that [Add] returns true. *)
Theorem Add_and_Remove_undo_each_other (ro : RangeOrder) (w : World)
    (r : Set_) (s : gset value) (v : value) :
  holds w r s →
  (v ∉ s → ∃ w', (Set_Add r v;; Set_Remove r v) w = Done () w'
                 ∧ objects w' = objects w ∧ mutex w' = mutex w)
  ∧ (v ∈ s → ∃ w', (Set_Remove r v;; Set_Add r v) w = Done true w'
                   ∧ objects w' = objects w ∧ mutex w' = mutex w).
Proof.
  intros Hh. pose proof Hh as [Hs _]. split; intros Hv.
  - destruct (Set_Add_Done w r s v Hh) as (w1 & E1 & Ho1 & Hm1 & _).
    msimpl. rewrite E1. msimpl.
    destruct (Set_Remove_Done w1 r ({[v]} ∪ s) v) as (w2 & E2 & Ho2 & Hm2 & _);
      [by eapply holds_after|].
    exists w2. split; [done|]. rewrite Ho2, Ho1, Hm2, Hm1, insert_insert_eq.
    split; [|done]. replace (({[v]} ∪ s) ∖ {[v]}) with s by set_solver.
    by apply insert_id.
  - destruct (Set_Remove_Done w r s v Hh) as (w1 & E1 & Ho1 & Hm1 & _).
    msimpl. rewrite E1. msimpl.
    destruct (Set_Add_Done w1 r (s ∖ {[v]}) v) as (w2 & E2 & Ho2 & Hm2 & _);
      [by eapply holds_after|].
    exists w2. rewrite E2, Ho2, Ho1, Hm2, Hm1, insert_insert_eq.
    split; [f_equal; apply bool_decide_eq_true_2; set_solver|].
    split; [|done]. replace ({[v]} ∪ (s ∖ {[v]})) with s; [by apply insert_id|].
    apply set_eq. intros x. rewrite elem_of_union, elem_of_difference,
      elem_of_singleton. destruct (decide (x = v)); naive_solver.
Qed.

Lemma Add_and_Remove_undo_each_other_witness :
  holds sample_world (PtrSafe 2) {[Int 1; Str "a"]}
  ∧ (Int 7 ∉ ({[Int 1; Str "a"]} : gset value))
  ∧ ∃ w', (Set_Add (PtrSafe 2) (Int 7);; Set_Remove (PtrSafe 2) (Int 7))
            sample_world = Done () w'
          ∧ objects w' = objects sample_world.
Proof.
  assert (Hv : Int 7 ∉ ({[Int 1; Str "a"]} : gset value)).
  { intros [H|H]%elem_of_union; apply elem_of_singleton in H; discriminate H. }
  split; [split; reflexivity|]. split; [exact Hv|].
  destruct (proj1 (Add_and_Remove_undo_each_other order_elements sample_world
                     (PtrSafe 2) {[Int 1; Str "a"]} (Int 7)
                     (conj eq_refl eq_refl)) Hv) as (w' & E & Ho & _).
  exists w'. split; [exact E|exact Ho].
Defined.

(** ** What UnmarshalJSON reads *)

Lemma scan_array fuel l rest :
  wf (JArray l) → (String.length (print (JArray l)) < fuel)%nat →
  scan_value fuel (print (JArray l) ++ rest) = Some (JArray (map decoded l), rest).
Proof.
  intros Hwf Hlen. destruct fuel as [|fuel]; [lia|].
  destruct (scan_print fuel) as (_ & IHE & _).
  cbn [print]. rewrite !append_cons, append_nil_l, append_assoc.
  cbn [scan_value]. change (byte_val "[" =? 91) with true. cbv iota.
  destruct l as [|t1 l].
  - cbn [map Join]. rewrite append_nil_l. reflexivity.
  - assert (Hh : ∃ c s, Join (map print (t1 :: l)) "," = String c s ∧ value_head c).
    { cbn [wf foldr] in Hwf. destruct Hwf as [Hwf1 _].
      destruct (print_head t1 Hwf1) as (c & s & Ep & Hc).
      destruct l as [|t2 l]; cbn [map].
      - exists c, s. by rewrite <- Ep.
      - rewrite Join_cons2, Ep, append_cons. eauto. }
    destruct Hh as (c & s & Ej & Hiss & Hc93 & _).
    pose proof (IHE (t1 :: l) rest ltac:(done) Hwf) as HE.
    rewrite Ej in HE |- *. rewrite append_cons in HE |- *.
    rewrite skip_space_head by done.
    destruct (byte_val c =? 93) eqn:E93; [lia|].
    rewrite HE; [done|].
    cbn [print] in Hlen. len_norm Hlen. rewrite Ej in Hlen. lia.
Qed.

Lemma Decode_array_then_anything l rest :
  wf (JArray l) → Decode (print (JArray l) ++ rest) = inr (map decoded l).
Proof.
  intros Hwf. unfold Decode.
  assert (E : skip_space (print (JArray l) ++ rest) = print (JArray l) ++ rest).
  { cbn [print]. rewrite append_cons. by apply skip_space_head. }
  rewrite E, scan_array; [done|done|]. rewrite length_append. lia.
Qed.

Lemma Decode_document t :
  wf t →
  Decode (print t) = match decoded t with
                     | JArray l => inr l
                     | JNull => inr []
                     | _ => inl DecodeError
                     end.
Proof.
  intros Hwf. unfold Decode.
  destruct (print_head t Hwf) as (c & s & Ep & Hiss & _).
  assert (E : skip_space (print t) = print t).
  { rewrite Ep. by apply skip_space_head. }
  pose proof (proj1 (scan_print (S (String.length (print t)))) t "" Hwf I
                ltac:(lia)) as Hs.
  rewrite append_nil_r in Hs. rewrite E, Hs. by destruct (decoded t).
Qed.





(** ** What MarshalJSON rejects *)

Section MarshalError.
Context {ro : RangeOrder}.
Variable marshaler : Set_ → M (error + string).

Lemma json_Marshal_flat v :
  flat v →
  ∃ r, (∀ w, json_Marshal marshaler v w = Done r w)
       ∧ (∀ e, r = inl e → e = MarshalError).
Proof.
  induction v as [|b|n|s|s|a IHa b IHb|r]; cbn [flat json_Marshal]; intros Hf;
    try (eexists; split; [reflexivity|done]).
  - destruct (decide (s = "")); [eexists; split; [reflexivity|done]|].
    destruct (isValidNumber s); eexists; (split; [reflexivity|]);
      [done|by intros e [= <-]].
  - destruct Hf as [Hfa Hfb].
    destruct (IHa Hfa) as (ra & Ea & Hra), (IHb Hfb) as (rb & Eb & Hrb).
    destruct ra as [ea|ba].
    { exists (inl ea). split; [|done]. intros w. msimpl. by rewrite Ea. }
    destruct rb as [eb|bb].
    { exists (inl eb). split; [|done]. intros w. msimpl. rewrite Ea. msimpl.
      by rewrite Eb. }
    exists (inr ("{" ++ quote "First" ++ ":" ++ ba ++ ","
                   ++ quote "Second" ++ ":" ++ bb ++ "}")).
    split; [|done]. intros w. msimpl. rewrite Ea. msimpl.
    rewrite Eb. msimpl. reflexivity.
  - done.
Qed.

Lemma marshal_items_error n elems :
  Forall flat elems → Number n ∈ elems →
  n ≠ EmptyString → isValidNumber n = false →
  ∀ items w, marshal_items marshaler elems items w = Done (inl MarshalError) w.
Proof.
  intros Hflat Hin Hne Hbad.
  induction elems as [|x elems IH]; [by apply elem_of_nil in Hin|].
  apply Forall_cons in Hflat as [Hx Hflat]. intros items w.
  cbn [marshal_items]. msimpl.
  destruct (json_Marshal_flat x Hx) as (r & E & Hr). rewrite E.
  destruct r as [e|b]; msimpl.
  - by rewrite (Hr e eq_refl).
  - apply elem_of_cons in Hin as [<-|Hin]; [|by apply IH].
    specialize (E w). cbn [json_Marshal] in E.
    rewrite decide_False in E by done. rewrite Hbad in E. done.
Qed.

End MarshalError.

(** X21. [MarshalJSON] on a set that holds a non-empty [json.Number] that
    is no number literal, and no nested sets: whichever element the
    traversal meets first, the call returns the error of [json.Marshal] and
    no text; no table is changed and the lock of a guarded set is again as
    it was. *)
Theorem MarshalJSON_rejects_an_invalid_number (ro : RangeOrder)
    (depth : nat) (w : World) (r : Set_) (s : gset value) (n : string) :
  reads w r s → (∀ v, v ∈ s → flat v) →
  Number n ∈ s → n ≠ EmptyString → isValidNumber n = false →
  ∃ w', Set_MarshalJSON (S depth) r w = Done (inl MarshalError) w'
        ∧ objects w' = objects w ∧ mutex w' = mutex w.
Proof.
  intros [Hs Hl] Hflat Hin Hne Hbad.
  assert (Hun : ∀ w0, objects w0 = objects w →
            threadUnsafeSet_MarshalJSON (Set_MarshalJSON depth) (table r) w0
            = Done (inl MarshalError) (set_tick S w0)).
  { intros w0 Ho. unfold threadUnsafeSet_MarshalJSON. msimpl.
    rewrite (Cardinality_Done _ _ s) by (by rewrite Ho). msimpl.
    rewrite (range_Done _ _ s) by (by rewrite Ho). msimpl.
    rewrite (marshal_items_error _ n); [done| |by apply range_of_elem|done..].
    apply Forall_forall. intros v Hv%range_of_elem. by apply Hflat. }
  destruct r as [p|p]; cbn [Set_MarshalJSON table] in *.
  - exists (set_tick S w). split; [by apply Hun|done].
  - unfold threadSafeSet_MarshalJSON.
    edestruct (RLock_query
                 (threadUnsafeSet_MarshalJSON (Set_MarshalJSON depth) p) w p)
      as (w' & E & Ho & Hm & _); [exact Hl| | |].
    + apply Hun. apply rlock_objects.
    + reflexivity.
    + exists w'. split; [exact E|]. split; [|done].
      rewrite Ho. simpl. apply rlock_objects.
Qed.

Lemma MarshalJSON_rejects_an_invalid_number_witness :
  reads world_with_bad_number (PtrUnsafe 1) {[Int 1; Number "1e"]}
  ∧ isValidNumber "1e" = false
  ∧ ∃ w', Set_MarshalJSON (ro := order_elements) 1 (PtrUnsafe 1)
            world_with_bad_number = Done (inl MarshalError) w'.
Proof.
  assert (Hr : reads world_with_bad_number (PtrUnsafe 1) {[Int 1; Number "1e"]}).
  { split; [reflexivity|exact I]. }
  split; [exact Hr|]. split; [reflexivity|].
  destruct (MarshalJSON_rejects_an_invalid_number order_elements 0
              world_with_bad_number (PtrUnsafe 1) {[Int 1; Number "1e"]} "1e" Hr)
    as (w' & E & _).
  - intros v [Hv|Hv]%elem_of_union; apply elem_of_singleton in Hv;
      rewrite Hv; exact I.
  - apply elem_of_union_r, elem_of_singleton. reflexivity.
  - discriminate.
  - reflexivity.
  - exists w'. exact E.
Defined.
